(** * Bookmark Manager: a shallow embedding of the service layer

    The development follows the TypeScript services of the repository:

    - [LinkCheckerService]  (processResponse, performCheck, checkUrl,
      checkAllUrls, cancel / pause / resume),
    - [BookmarkOrganizerService] (matchesRule, categorizeBookmarks,
      normalizeUrl, calculateUrlSimilarity, findDuplicates),
    - [BookmarkImportExportService] (exportToJSON, importFromJSON,
      removeDuplicates),
    - [CloudSyncService] (getCurrentUser, uploadBookmarks,
      downloadBookmarks, syncBookmarks).

    Part III adds the rest of these services that can be stated without
    the DOM: checkUrls; the account operations of the sync service
    (register, login, logout, deleteAccount, updateUsername,
    setSyncEnabled, getSyncStatus, checkForUpdates); validateBookmarks,
    cleanBookmarks and the counts of previewImport; mergeBookmarks,
    organizeByFolder and searchBookmarks.

    Stored and imported JSON is read twice: at its TypeScript type
    ([CloudSync], [ImportExport]), and as whatever value the text holds
    ([CloudSyncValues], [ImportValues]), where the tests of the code are
    JavaScript truthiness tests on that value.  The loop of checkAllUrls
    is followed twice as well: for one run in which a released wait goes
    on at once ([LinkChecker]), and for any number of runs with the going
    on as an event of its own ([LinkCheckerRuns]).

    Conventions.  A JavaScript string is a [string]; an optional field
    [f?: T] is an [option T]; [Date.now()] and other readings of the
    outside world are explicit arguments; a rejected promise or a thrown
    exception is a constructor of the result type.  Browser primitives
    that the repository only calls (String.prototype.toLowerCase, RegExp,
    the URL constructor, JSON.stringify / JSON.parse) are Section
    variables, and what the network does with a request is an argument, so
    every theorem holds for any behaviour of the platform; concrete
    reference versions are given where an evaluation needs one. *)

From Stdlib Require Import ZArith QArith String Ascii List Lia.
From stdpp Require Import base option list gmap strings pretty.

Set Default Proof Using "Type".

(* ===================================================================== *)
(** * Part I.  Definitions                                                *)
(* ===================================================================== *)

(** ** JavaScript truthiness of the values the services test *)

(** [if (s)] for [s : string]: the empty string is falsy. *)
Definition truthy_string (s : string) : bool :=
  match s with EmptyString => false | String _ _ => true end.

(** [if (o)] for [o : string | undefined]. *)
Definition truthy (o : option string) : bool :=
  match o with Some s => truthy_string s | None => false end.

(** [a || b] on an optional string with a string fallback. *)
Definition or_else (o : option string) (d : string) : string :=
  match o with Some s => if truthy_string s then s else d | None => d end.

(** [s.startsWith(p)] *)
Fixpoint startsWith (s p : string) {struct p} : bool :=
  match p, s with
  | EmptyString, _ => true
  | String _ _, EmptyString => false
  | String a p', String b s' => if decide (a = b) then startsWith s' p' else false
  end.

(** [s.includes(sub)]: [sub] occurs in [s] as a contiguous substring. *)
Fixpoint includes (s sub : string) : bool :=
  startsWith s sub ||
  match s with
  | EmptyString => false
  | String _ s' => includes s' sub
  end.

(** [s.substring(n)] *)
Fixpoint string_drop (n : nat) (s : string) : string :=
  match n, s with
  | O, _ => s
  | S n', String _ s' => string_drop n' s'
  | S _, EmptyString => EmptyString
  end.

(** ** Reference versions of platform string functions

    [toLowerCase_ascii] lowers the letters A-Z and leaves every other
    character alone; it agrees with String.prototype.toLowerCase on ASCII
    text and is used to evaluate the services on concrete inputs. *)

Definition lower_ascii (c : ascii) : ascii :=
  let n := nat_of_ascii c in
  if ((65 <=? n) && (n <=? 90))%nat then ascii_of_nat (n + 32) else c.

Fixpoint toLowerCase_ascii (s : string) : string :=
  match s with
  | EmptyString => EmptyString
  | String c s' => String (lower_ascii c) (toLowerCase_ascii s')
  end.

(** A RegExp stand-in for rule sets that carry no urlPatterns: it is never
    consulted by matchesRule on such rules. *)
Definition regex_unused (pattern text : string) : option bool := None.

(** [URL_href_nohash_ref s] stands for
    [try { const u = new URL(s); u.hash = ''; return u.toString() } catch { none }]
    on the strings used in the examples: an http(s) URL that is already in
    serialised form (lower-case scheme and host, explicit path, no dot
    segments, no default port) is returned with its fragment removed;
    a string without the "http://" or "https://" prefix is treated as one
    the constructor rejects, which is exact for strings that carry no
    scheme at all. *)
Fixpoint strip_fragment (s : string) : string :=
  match s with
  | EmptyString => EmptyString
  | String c s' => if decide (c = "#"%char) then EmptyString
                   else String c (strip_fragment s')
  end.

Definition URL_href_nohash_ref (s : string) : option string :=
  if startsWith s "http://" || startsWith s "https://"
  then Some (strip_fragment s) else None.

(** ** types/index.ts: BookmarkNode

    The fields are those of the data model: id, title, url, dateAdded,
    parentId, children, status, tags and notes.  The remaining optional
    fields of the TypeScript interface (index, visitCount, metadata, ...)
    are read by none of the functions modelled here. *)

Inductive NodeStatus :=
  NSNormal | NSBroken | NSRedirect | NSChecking | NSTimeout | NSError.

Global Instance NodeStatus_eq_dec : EqDecision NodeStatus.
Proof. solve_decision. Defined.

#[local] Unset Elimination Schemes.
Inductive BookmarkNode := mkBookmarkNode {
  node_id : string;
  node_title : string;
  node_url : option string;
  node_dateAdded : option Z;
  node_parentId : option string;
  node_children : option (list BookmarkNode);
  node_status : option NodeStatus;
  node_tags : option (list string);
  node_notes : option string
}.
#[local] Set Elimination Schemes.

(** [{ ...node, children: c }] *)
Definition with_children (c : option (list BookmarkNode)) (n : BookmarkNode)
  : BookmarkNode :=
  mkBookmarkNode (node_id n) (node_title n) (node_url n) (node_dateAdded n)
    (node_parentId n) c (node_status n) (node_tags n) (node_notes n).

(** A bookmark (leaf) with the given id, title and url. *)
Definition bookmark (i t u : string) : BookmarkNode :=
  mkBookmarkNode i t (Some u) None None None None None None.

(** A folder with the given id, title and children. *)
Definition folder (i t : string) (cs : list BookmarkNode) : BookmarkNode :=
  mkBookmarkNode i t None None None (Some cs) None None None.

(** The test [if (node.url)] that every service uses to tell a bookmark
    from a folder. *)
Definition has_url (n : BookmarkNode) : bool := truthy (node_url n).

(** All nodes of a tree in the order [forEach] visits them (a node, then
    its children from left to right). *)
Fixpoint nodes_of (n : BookmarkNode) : list BookmarkNode :=
  n :: match node_children n with
       | Some cs => flat_map nodes_of cs
       | None => []
       end.

Definition forest_nodes (f : list BookmarkNode) : list BookmarkNode :=
  flat_map nodes_of f.

(** The bookmark/folder view of a tree that removeDuplicates, previewImport
    and the data model share: a node with a URL is a leaf (its children, if
    any, are not looked at), every other node is a folder. *)

(** The URLs of the bookmark leaves, from left to right. *)
Fixpoint leaf_urls (n : BookmarkNode) : list string :=
  if has_url n then [default "" (node_url n)]
  else match node_children n with
       | Some cs => flat_map leaf_urls cs
       | None => []
       end.

(** The folder structure: the tree with its bookmark leaves taken out;
    a folder keeps all its fields and the folders among its children. *)
Fixpoint folders_only (n : BookmarkNode) : option BookmarkNode :=
  if has_url n then None
  else Some (with_children
               (match node_children n with
                | Some cs => Some (omap folders_only cs)
                | None => None
                end) n).

(** The invariant of the data model: a node with a URL has no children. *)
Definition leafy (n : BookmarkNode) : Prop :=
  has_url n = true -> default [] (node_children n) = [].

Definition leaf_invariant (forest : list BookmarkNode) : Prop :=
  Forall leafy (forest_nodes forest).

(** The URLs of all nodes that have one, wherever they are in the forest. *)
Definition all_urls (forest : list BookmarkNode) : list string :=
  omap (fun n => if has_url n then node_url n else None) (forest_nodes forest).

(** All folder nodes, wherever they are in the forest, each without its
    children. *)
Definition all_folders (forest : list BookmarkNode) : list BookmarkNode :=
  map (with_children None)
      (List.filter (fun n => negb (has_url n)) (forest_nodes forest)).

(** ** types/index.ts: CategoryRule *)

Record CategoryRule := mkCategoryRule {
  rule_id : string;
  rule_name : string;
  keywords : list string;
  urlPatterns : option (list string);
  targetFolder : string
}.

(** ** types/index.ts: DuplicateInfo

    [similarity] is a JavaScript number.  It is only ever the literal 1,
    the literal 0 or the quotient of two small natural numbers, so it is
    modelled by an exact rational. *)

Record DuplicateInfo := mkDuplicateInfo {
  dup_url : string;
  dup_bookmarks : list BookmarkNode;
  dup_similarity : Q
}.

(** ** types/index.ts: LinkCheckResult *)

Inductive LinkStatus := SNormal | SBroken | SRedirect | STimeout | SError.

Global Instance LinkStatus_eq_dec : EqDecision LinkStatus.
Proof. solve_decision. Defined.

Record LinkCheckResult := mkLinkCheckResult {
  lc_url : string;
  lc_status : LinkStatus;
  lc_statusCode : option Z;
  lc_redirectUrl : option string;
  lc_error : option string;
  lc_checkTime : Z
}.

Definition set_status (s : LinkStatus) (r : LinkCheckResult) : LinkCheckResult :=
  mkLinkCheckResult (lc_url r) s (lc_statusCode r) (lc_redirectUrl r)
                    (lc_error r) (lc_checkTime r).
Definition set_statusCode (c : Z) (r : LinkCheckResult) : LinkCheckResult :=
  mkLinkCheckResult (lc_url r) (lc_status r) (Some c) (lc_redirectUrl r)
                    (lc_error r) (lc_checkTime r).
Definition set_redirectUrl (u : string) (r : LinkCheckResult) : LinkCheckResult :=
  mkLinkCheckResult (lc_url r) (lc_status r) (lc_statusCode r) (Some u)
                    (lc_error r) (lc_checkTime r).
Definition set_error (e : string) (r : LinkCheckResult) : LinkCheckResult :=
  mkLinkCheckResult (lc_url r) (lc_status r) (lc_statusCode r) (lc_redirectUrl r)
                    (Some e) (lc_checkTime r).

(** The object literal [{ url, status, error, checkTime: Date.now() }]. *)
Definition mkResult (url : string) (s : LinkStatus) (e : option string) (now : Z)
  : LinkCheckResult :=
  mkLinkCheckResult url s None None e now.

(** ** The part of a fetch [Response] that processResponse reads *)

Record Response := mkResponse {
  resp_status : Z;                  (* response.status *)
  resp_redirected : bool;           (* response.redirected *)
  resp_url : string;                (* response.url *)
  resp_location : option string     (* response.headers.get('Location') *)
}.

(** [response.ok] is a getter of the platform: true exactly for a status
    in the range 200-299. *)
Definition resp_ok (r : Response) : bool :=
  ((200 <=? resp_status r) && (resp_status r <=? 299))%Z.

Module LinkChecker.

Definition CHECK_TIMEOUT : Z := 5000.
Definition BATCH_DELAY : Z := 200.

(** processResponse(url, response); [now] is the reading of Date.now(). *)
Definition processResponse (now : Z) (url : string) (response : Response)
  : LinkCheckResult :=
  let st := resp_status response in
  let result := mkResult url SNormal None now in
  if resp_ok response then set_status SNormal result
  else if resp_redirected response then
    let result := set_statusCode st
                    (set_redirectUrl (resp_url response)
                       (set_status SRedirect result)) in
    if ((st =? 301) || (st =? 308))%Z then
      set_redirectUrl (resp_url response) (set_status SNormal result)
    else if ((st =? 302) || (st =? 303) || (st =? 307))%Z then
      set_error "临时重定向，请验证目标链接"
        (set_redirectUrl (resp_url response) (set_status SRedirect result))
    else
      set_redirectUrl (resp_url response) (set_status SRedirect result)
  else if ((300 <=? st) && (st <? 400))%Z then
    let result := set_status SRedirect result in
    let result := match resp_location response with
                  | Some location =>
                      if truthy_string location
                      then set_redirectUrl location result else result
                  | None => result
                  end in
    set_statusCode st result
  else if ((400 <=? st) && (st <? 500))%Z then
    if (st =? 404)%Z then set_status SBroken result
    else if (st =? 403)%Z then
      set_error "访问被拒绝 (403)，网站可能存在但需要登录或权限"
        (set_statusCode st (set_status SError result))
    else if (st =? 429)%Z then
      set_error "请求过于频繁 (429)，网站可能存在但被限流"
        (set_statusCode st (set_status SError result))
    else if (st =? 401)%Z then
      set_error "未授权访问 (401)，网站可能存在但需要登录"
        (set_statusCode st (set_status SError result))
    else if (st =? 410)%Z then
      set_error "资源已永久删除 (410)"
        (set_statusCode st (set_status SBroken result))
    else
      set_error ("客户端错误: HTTP " +:+ pretty st)
        (set_statusCode st (set_status SError result))
  else if (500 <=? st)%Z then
    set_error ("服务器错误: HTTP " +:+ pretty st)
      (set_statusCode st (set_status SError result))
  else
    set_error ("HTTP " +:+ pretty st)
      (set_statusCode st (set_status SError result)).

(** *** One check: fetch, abort timer and the timeout race

    Time is counted in milliseconds.  What the network does with one
    request is given from outside: it answers after some time, fails after
    some time with an error message, or never answers.  Timers fire at
    their due time; a timer is served before a completion of the request
    that falls on the same millisecond, and of two timers that are due
    together the one that was set first is served first. *)

Inductive FetchOutcome :=
| FResolves (after : Z) (response : Response)
| FRejects (after : Z) (message : string)
| FHangs.

(** The behaviour of the HEAD request of performCheck and of the GET
    request of performCheckWithNoCors for the URL under check. *)
Record Network := mkNetwork {
  net_head : FetchOutcome;
  net_get : FetchOutcome
}.

(** [setTimeout(() => controller.abort(), CHECK_TIMEOUT - 500)] *)
Definition ABORT_AFTER : Z := CHECK_TIMEOUT - 500.

(** What [await fetch(url, { signal })] yields under the abort timer. *)
Inductive Awaited :=
| Got (elapsed : Z) (response : Response)
| Failed (elapsed : Z) (message : string)
| AbortError.

Definition await_fetch (o : FetchOutcome) : Awaited :=
  match o with
  | FResolves t r => if (t <? ABORT_AFTER)%Z then Got t r else AbortError
  | FRejects t m => if (t <? ABORT_AFTER)%Z then Failed t m else AbortError
  | FHangs => AbortError
  end.

(** [m || d] on a message string. *)
Definition msg_or (m d : string) : string := if truthy_string m then m else d.

(** performCheckWithNoCors(url), started at time [start]: the time at
    which the returned promise settles and the result it carries. *)
Definition performCheckWithNoCors (strictMode : bool) (start : Z) (url : string)
    (o : FetchOutcome) : Z * LinkCheckResult :=
  match await_fetch o with
  | Got responseTime _ =>
      let now := (start + responseTime)%Z in
      if (responseTime <? 30)%Z then
        (now, mkResult url SError (Some "响应过快，可能无效") now)
      else if (4500 <? responseTime)%Z then
        (now, mkResult url STimeout
                (Some ("响应超时 (" +:+ pretty responseTime +:+ "ms)")) now)
      else if strictMode then
        (now, mkResult url SError
                (Some "无法准确验证（CORS限制），但网站可能正常，请手动检查") now)
      else
        (now, mkResult url SNormal
                (Some "CORS限制，无法获取详细信息，但网站可能正常") now)
  | AbortError =>
      let now := (start + ABORT_AFTER)%Z in
      (now, mkResult url STimeout (Some "请求超时") now)
  | Failed elapsed message =>
      let now := (start + elapsed)%Z in
      let errorMessage := msg_or message "无法访问" in
      if includes errorMessage "NetworkError" || includes errorMessage "Failed to fetch"
      then (now, mkResult url SError (Some "网络连接失败，可能无法访问") now)
      else (now, mkResult url SError (Some ("访问失败: " +:+ errorMessage)) now)
  end.

(** performCheck(url), started at time [start]. *)
Definition performCheck (strictMode : bool) (start : Z) (url : string)
    (net : Network) : Z * LinkCheckResult :=
  match await_fetch (net_head net) with
  | Got elapsed response =>
      let now := (start + elapsed)%Z in
      (now, processResponse now url response)
  | AbortError =>
      let now := (start + ABORT_AFTER)%Z in
      (now, mkResult url STimeout (Some "请求超时") now)
  | Failed elapsed message =>
      let now := (start + elapsed)%Z in
      let errorMessage := msg_or message "" in
      if includes errorMessage "Failed to fetch" || includes errorMessage "CORS"
      then performCheckWithNoCors strictMode now url (net_get net)
      else (now, mkResult url SError (Some (msg_or errorMessage "网络错误")) now)
  end.

(** A settled promise of a check. *)
Inductive Raced :=
| Fulfilled (at_time : Z) (result : LinkCheckResult)
| Rejected (at_time : Z) (message : string).

(** createTimeoutPromise(url): rejects with [new Error('检测超时')] once
    CHECK_TIMEOUT has elapsed. *)
Definition createTimeoutPromise (start : Z) : Raced :=
  Rejected (start + CHECK_TIMEOUT) "检测超时".

(** [Promise.race([performCheck(url), createTimeoutPromise(url)])]: the
    first of the two to settle. *)
Definition race_check (strictMode : bool) (start : Z) (url : string)
    (net : Network) : Raced :=
  let '(t, result) := performCheck strictMode start url net in
  if (t <? start + CHECK_TIMEOUT)%Z then Fulfilled t result
  else createTimeoutPromise start.

(** How a call of checkUrl ends. *)
Inductive Settled :=
| Resolves (at_time : Z) (result : LinkCheckResult)
| Throws (message : string)
| Pending.

(** checkUrl(url), called at time [start].  [isPaused] is the flag at the
    time of the call; when it is set the call waits in checkPause until
    resume() or cancel() releases it, at time [released] if ever. *)
Definition checkUrl (isPaused : bool) (released : option Z) (strictMode : bool)
    (start : Z) (url : string) (net : Network) : Settled :=
  if negb (truthy_string url) || negb (startsWith url "http") then
    Resolves start (mkResult url SError (Some "无效的URL") start)
  else
    let go (t0 : Z) :=
      match race_check strictMode t0 url net with
      | Fulfilled t result => Resolves t result
      | Rejected t message =>
          Resolves t (mkResult url SError (Some (msg_or message "检测失败")) t)
      end in
    if isPaused then
      match released with
      | Some t0 => go t0
      | None => Pending
      end
    else go start.

(** *** checkAllUrls, with the calls that may arrive while it is suspended

    JavaScript runs the loop of checkAllUrls until it reaches an [await];
    while it is suspended the page may call cancel(), pause() or resume(),
    and the awaited operation may complete.  The machine below has one
    control point per [await] of the loop and one transition per such
    event.  It follows one run, from the call of checkAllUrls on, and a
    run that resume() or cancel() releases goes on within that call;
    [LinkCheckerRuns] below lifts both restrictions. *)

Inductive Pc :=
| NotStarted
| AwaitPause (i : nat)        (* in the loop: await this.checkPause() *)
| AwaitCheckPause (i : nat)   (* in checkUrl(urls[i]): await this.checkPause() *)
| AwaitCheck (i : nat)        (* in checkUrl(urls[i]): await Promise.race(...) *)
| AwaitDelay (i : nat)        (* await setTimeout(..., BATCH_DELAY) *)
| Returned (results : list LinkCheckResult).

Inductive LogEntry :=
| Began (url : string)        (* checkUrl(url) was called by the loop *)
| CancelCalled.               (* cancel() was called *)

Record Machine := mkMachine {
  (* the fields of the service object *)
  isPaused : bool;
  pauseResolver : bool;              (* pauseResolver !== null *)
  currentCheckingUrl : option string;
  isChecking : bool;
  strictMode : bool;
  isCancelled : bool;
  (* the locals of the running checkAllUrls *)
  urls : list string;
  pc : Pc;
  results : list LinkCheckResult;
  (* what has happened so far, oldest entry first *)
  log : list LogEntry
}.

Definition init (strict : bool) : Machine :=
  mkMachine false false None false strict false [] NotStarted [] [].

Definition set_isPaused (b : bool) (m : Machine) : Machine :=
  mkMachine b (pauseResolver m) (currentCheckingUrl m) (isChecking m)
    (strictMode m) (isCancelled m) (urls m) (pc m) (results m) (log m).
Definition set_pauseResolver (b : bool) (m : Machine) : Machine :=
  mkMachine (isPaused m) b (currentCheckingUrl m) (isChecking m)
    (strictMode m) (isCancelled m) (urls m) (pc m) (results m) (log m).
Definition set_currentCheckingUrl (u : option string) (m : Machine) : Machine :=
  mkMachine (isPaused m) (pauseResolver m) u (isChecking m)
    (strictMode m) (isCancelled m) (urls m) (pc m) (results m) (log m).
Definition set_isChecking (b : bool) (m : Machine) : Machine :=
  mkMachine (isPaused m) (pauseResolver m) (currentCheckingUrl m) b
    (strictMode m) (isCancelled m) (urls m) (pc m) (results m) (log m).
Definition set_isCancelled (b : bool) (m : Machine) : Machine :=
  mkMachine (isPaused m) (pauseResolver m) (currentCheckingUrl m) (isChecking m)
    (strictMode m) b (urls m) (pc m) (results m) (log m).
Definition set_urls (l : list string) (m : Machine) : Machine :=
  mkMachine (isPaused m) (pauseResolver m) (currentCheckingUrl m) (isChecking m)
    (strictMode m) (isCancelled m) l (pc m) (results m) (log m).
Definition set_pc (p : Pc) (m : Machine) : Machine :=
  mkMachine (isPaused m) (pauseResolver m) (currentCheckingUrl m) (isChecking m)
    (strictMode m) (isCancelled m) (urls m) p (results m) (log m).
Definition push_result (r : LinkCheckResult) (m : Machine) : Machine :=
  mkMachine (isPaused m) (pauseResolver m) (currentCheckingUrl m) (isChecking m)
    (strictMode m) (isCancelled m) (urls m) (pc m) (results m ++ [r]) (log m).
Definition add_log (e : LogEntry) (m : Machine) : Machine :=
  mkMachine (isPaused m) (pauseResolver m) (currentCheckingUrl m) (isChecking m)
    (strictMode m) (isCancelled m) (urls m) (pc m) (results m) (log m ++ [e]).

(** collectUrls of checkAllUrls: the URLs that start with "http", in
    visiting order. *)
Definition collect_http_urls (bookmarks : list BookmarkNode) : list string :=
  omap (fun node =>
          match node_url node with
          | Some u => if truthy_string u && startsWith u "http" then Some u else None
          | None => None
          end)
       (forest_nodes bookmarks).

(** The [finally] block and the return of checkAllUrls. *)
Definition finish (m : Machine) : Machine :=
  let m := set_isCancelled false (set_currentCheckingUrl None (set_isChecking false m)) in
  set_pc (Returned (results m)) m.

(** The call [this.checkUrl(url)] of iteration [i], up to its first
    suspension. *)
Definition begin_check (i : nat) (url : string) (m : Machine) : Machine :=
  let m := add_log (Began url) m in
  if negb (truthy_string url) || negb (startsWith url "http") then
    set_pc (AwaitCheck i) m
  else if isPaused m then
    set_pc (AwaitCheckPause i) (set_pauseResolver true m)
  else
    set_pc (AwaitCheck i) (set_currentCheckingUrl (Some url) m).

(** The top of the loop body for index [i], up to its first suspension. *)
Definition loop_head (i : nat) (m : Machine) : Machine :=
  match urls m !! i with
  | None => finish m                             (* i < urls.length fails *)
  | Some url =>
      if isCancelled m then finish m             (* break *)
      else if isPaused m then
        set_pc (AwaitPause i) (set_pauseResolver true m)
      else begin_check i url m
  end.

(** After the check of iteration [i] has produced [r]. *)
Definition after_check (i : nat) (r : LinkCheckResult) (m : Machine) : Machine :=
  let m := push_result r m in
  if (i <? length (urls m) - 1)%nat then set_pc (AwaitDelay i) m
  else loop_head (S i) m.

(** The continuation that a call of the stored pauseResolver wakes up. *)
Definition release (m : Machine) : Machine :=
  match pc m with
  | AwaitPause i =>
      match urls m !! i with
      | Some url => begin_check i url m
      | None => m
      end
  | AwaitCheckPause i =>
      match urls m !! i with
      | Some url => set_pc (AwaitCheck i) (set_currentCheckingUrl (Some url) m)
      | None => m
      end
  | _ => m
  end.

(** cancel() *)
Definition cancel (m : Machine) : Machine :=
  let m := add_log CancelCalled m in
  let m := set_isChecking false (set_isPaused false (set_isCancelled true m)) in
  if pauseResolver m then release (set_pauseResolver false m) else m.

(** pause() *)
Definition pause (m : Machine) : Machine := set_isPaused true m.

(** resume() *)
Definition resume (m : Machine) : Machine :=
  let m := set_isPaused false m in
  if pauseResolver m then release (set_pauseResolver false m) else m.

(** checkAllUrls(bookmarks), up to its first suspension. *)
Definition checkAllUrls (bookmarks : list BookmarkNode) (m : Machine) : Machine :=
  if isChecking m then set_pc (Returned []) m
  else
    let m := set_isChecking true m in
    let m := set_urls (collect_http_urls bookmarks) m in
    loop_head 0 m.

Inductive Event :=
| CallCheckAllUrls (bookmarks : list BookmarkNode)
| CallCancel
| CallPause
| CallResume
| CheckSettles (start : Z) (net : Network)   (* the check in flight settles *)
| DelayElapsed.

(** One transition; [None] when the event cannot happen at this point. *)
Definition step (m : Machine) (e : Event) : option Machine :=
  match e, pc m with
  | CallCheckAllUrls bookmarks, NotStarted => Some (checkAllUrls bookmarks m)
  | CallCheckAllUrls _, _ => None
  | CallCancel, _ => Some (cancel m)
  | CallPause, _ => Some (pause m)
  | CallResume, _ => Some (resume m)
  | CheckSettles start net, AwaitCheck i =>
      match urls m !! i with
      | Some url =>
          match checkUrl false None (strictMode m) start url net with
          | Resolves _ result =>
              (* finally of checkUrl, then results.push(result) *)
              let m := if bool_decide (currentCheckingUrl m = Some url)
                       then set_currentCheckingUrl None m else m in
              Some (after_check i result m)
          | Throws message =>
              (* catch of the loop: an error result is recorded *)
              Some (after_check i
                      (mkResult url SError (Some (msg_or message "检测失败")) start) m)
          | Pending => None
          end
      | None => None
      end
  | CheckSettles _ _, _ => None
  | DelayElapsed, AwaitDelay i => Some (loop_head (S i) m)
  | DelayElapsed, _ => None
  end.

Fixpoint run (tr : list Event) (m : Machine) : option Machine :=
  match tr with
  | [] => Some m
  | e :: tr' => match step m e with
                | Some m' => run tr' m'
                | None => None
                end
  end.

(** The URLs whose check was begun, in order. *)
Definition begun (l : list LogEntry) : list string :=
  omap (fun e => match e with Began u => Some u | CancelCalled => None end) l.

(** The URLs whose check was begun after a call of cancel(). *)
Fixpoint begun_after_cancel (l : list LogEntry) : list string :=
  match l with
  | [] => []
  | CancelCalled :: l' => begun l'
  | Began _ :: l' => begun_after_cancel l'
  end.

(** *** checkUrls

    How a call of checkUrls ends: with the list of results, at some time,
    or never (a check that waits for a pause to end that never ends). *)
Inductive Batch :=
| BatchDone (at_time : Z) (results : list LinkCheckResult)
| BatchPending.

(** checkUrls(urls), called at time [start], with pause() not being called
    during the run.  [net_of i] is what the network does with the requests
    for the URL at position [i]; [results] is the array being filled.
    After a result the loop waits BATCH_DELAY; the [catch] branch records
    an error result and goes on without the delay. *)
Fixpoint checkUrls_from (strict : bool) (net_of : nat -> Network) (i : nat)
    (start : Z) (urls : list string) (results : list LinkCheckResult) : Batch :=
  match urls with
  | [] => BatchDone start results
  | url :: rest =>
      match checkUrl false None strict start url (net_of i) with
      | Resolves t result =>
          checkUrls_from strict net_of (S i) (t + BATCH_DELAY) rest
            (results ++ [result])
      | Throws message =>
          checkUrls_from strict net_of (S i) start rest
            (results ++ [mkResult url SError (Some (msg_or message "检测失败")) start])
      | Pending => BatchPending
      end
  end.

Definition checkUrls (strict : bool) (net_of : nat -> Network) (start : Z)
    (urls : list string) : Batch :=
  checkUrls_from strict net_of 0 start urls [].

End LinkChecker.

(** ** checkAllUrls as the page can drive it

    The service object is shared by every call of checkAllUrls.  A call is
    accepted when [isChecking] is unset, and cancel() unsets it while the
    cancelled run is still suspended, so that several runs can be under
    way at once; each has its own [urls], [i] and [results] and all of
    them read and write the fields of the service.

    A call of the stored [pauseResolver] only resolves the promise that a
    run awaits: the run goes on in a later microtask, and the caller of
    resume() or cancel() may make further calls before that.  The
    continuation is therefore an event of its own.  The continuations
    that follow the settling of a check or the firing of a delay timer
    are started by the platform, not by a call of the page, and are taken
    together with it: up to the top of the next iteration they read none
    of the flags that the page can set, so that a call made in between
    has the effect of the same call made just before.  The [onProgress]
    callback is taken to make no call on the service.

    The events are the calls of checkAllUrls and of the methods that write
    the fields (cancel, resetCancel, pause, resume, setStrictMode), and
    what the platform does for a run.  Calls of checkUrl and checkUrls
    from outside a run are not part of the histories. *)

Module LinkCheckerRuns.

(** Where a run is suspended. *)
Inductive Point :=
| AtPause (i : nat)        (* in the loop: await this.checkPause(), unresolved *)
| Woken (i : nat)          (* the same, resolved; the loop has not gone on yet *)
| AtCheckPause (i : nat)   (* in checkUrl(urls[i]): await this.checkPause(), unresolved *)
| WokenCheck (i : nat)     (* the same, resolved; checkUrl has not gone on yet *)
| InFlight (i : nat)       (* in checkUrl(urls[i]): await Promise.race(...) *)
| Delay (i : nat)          (* await setTimeout(..., BATCH_DELAY) *)
| Done (returned : list LinkCheckResult).

(** The locals of one accepted call of checkAllUrls. *)
Record Run := mkRun {
  urls : list string;
  pc : Point;
  results : list LinkCheckResult
}.

Definition at_pc (p : Point) (run : Run) : Run :=
  mkRun (urls run) p (results run).
Definition push_result (r : LinkCheckResult) (run : Run) : Run :=
  mkRun (urls run) (pc run) (results run ++ [r]).

Inductive Entry :=
| Began (r : nat) (url : string)   (* run [r] called checkUrl(url) *)
| CancelCalled.                    (* cancel() was called *)

Record Service := mkService {
  (* the fields of the service object *)
  isPaused : bool;
  pauseResolver : option nat;        (* the run whose wait the stored function ends *)
  currentCheckingUrl : option string;
  isChecking : bool;
  strictMode : bool;
  isCancelled : bool;
  (* the accepted calls of checkAllUrls, oldest first *)
  runs : list Run;
  (* what has happened so far, oldest entry first *)
  log : list Entry
}.

Definition init (strict : bool) : Service :=
  mkService false None None false strict false [] [].

Definition set_isPaused (b : bool) (m : Service) : Service :=
  mkService b (pauseResolver m) (currentCheckingUrl m) (isChecking m)
    (strictMode m) (isCancelled m) (runs m) (log m).
Definition set_pauseResolver (o : option nat) (m : Service) : Service :=
  mkService (isPaused m) o (currentCheckingUrl m) (isChecking m)
    (strictMode m) (isCancelled m) (runs m) (log m).
Definition set_currentCheckingUrl (u : option string) (m : Service) : Service :=
  mkService (isPaused m) (pauseResolver m) u (isChecking m)
    (strictMode m) (isCancelled m) (runs m) (log m).
Definition set_isChecking (b : bool) (m : Service) : Service :=
  mkService (isPaused m) (pauseResolver m) (currentCheckingUrl m) b
    (strictMode m) (isCancelled m) (runs m) (log m).
Definition set_strictMode (b : bool) (m : Service) : Service :=
  mkService (isPaused m) (pauseResolver m) (currentCheckingUrl m) (isChecking m)
    b (isCancelled m) (runs m) (log m).
Definition set_isCancelled (b : bool) (m : Service) : Service :=
  mkService (isPaused m) (pauseResolver m) (currentCheckingUrl m) (isChecking m)
    (strictMode m) b (runs m) (log m).
Definition set_runs (l : list Run) (m : Service) : Service :=
  mkService (isPaused m) (pauseResolver m) (currentCheckingUrl m) (isChecking m)
    (strictMode m) (isCancelled m) l (log m).
Definition add_log (e : Entry) (m : Service) : Service :=
  mkService (isPaused m) (pauseResolver m) (currentCheckingUrl m) (isChecking m)
    (strictMode m) (isCancelled m) (runs m) (log m ++ [e]).

(** The code of a run works on the fields of the service and on its own
    locals: it is given both and gives both back. *)

(** The [finally] block and the return of checkAllUrls. *)
Definition finish (run : Run) (m : Service) : Service * Run :=
  (set_isCancelled false (set_currentCheckingUrl None (set_isChecking false m)),
   at_pc (Done (results run)) run).

(** The call [this.checkUrl(url)] of iteration [i] of run [r], up to its
    first suspension: [await this.checkPause()] suspends it also when the
    service is not paused. *)
Definition begin_check (r i : nat) (url : string) (run : Run) (m : Service)
  : Service * Run :=
  let m := add_log (Began r url) m in
  if negb (truthy_string url) || negb (startsWith url "http") then
    (m, at_pc (InFlight i) run)
  else if isPaused m then
    (set_pauseResolver (Some r) m, at_pc (AtCheckPause i) run)
  else
    (m, at_pc (WokenCheck i) run).

(** The top of the loop body for index [i], up to its first suspension. *)
Definition loop_head (r i : nat) (run : Run) (m : Service) : Service * Run :=
  match urls run !! i with
  | None => finish run m                         (* i < urls.length fails *)
  | Some url =>
      if isCancelled m then finish run m         (* break *)
      else if isPaused m then
        (set_pauseResolver (Some r) m, at_pc (AtPause i) run)
      else begin_check r i url run m
  end.

(** After the check of iteration [i] has produced [result]. *)
Definition after_check (r i : nat) (result : LinkCheckResult) (run : Run)
    (m : Service) : Service * Run :=
  let run := push_result result run in
  if (i <? length (urls run) - 1)%nat then (m, at_pc (Delay i) run)
  else loop_head r (S i) run m.

(** The locals of run [r] are put back. *)
Definition store (r : nat) (p : Service * Run) : Service :=
  set_runs (<[r := snd p]> (runs (fst p))) (fst p).

(** A call of the stored pauseResolver: the wait of run [r] is over. *)
Definition release (r : nat) (m : Service) : Service :=
  match runs m !! r with
  | Some run =>
      match pc run with
      | AtPause i => store r (m, at_pc (Woken i) run)
      | AtCheckPause i => store r (m, at_pc (WokenCheck i) run)
      | _ => m
      end
  | None => m
  end.

(** [if (this.pauseResolver) { this.pauseResolver(); this.pauseResolver = null; }] *)
Definition call_pauseResolver (m : Service) : Service :=
  match pauseResolver m with
  | Some r => release r (set_pauseResolver None m)
  | None => m
  end.

(** cancel() *)
Definition cancel (m : Service) : Service :=
  let m := add_log CancelCalled m in
  call_pauseResolver
    (set_isChecking false (set_isPaused false (set_isCancelled true m))).

(** resetCancel() *)
Definition resetCancel (m : Service) : Service := set_isCancelled false m.

(** setStrictMode(enabled) *)
Definition setStrictMode (enabled : bool) (m : Service) : Service :=
  set_strictMode enabled m.

(** pause() *)
Definition pause (m : Service) : Service := set_isPaused true m.

(** resume() *)
Definition resume (m : Service) : Service :=
  call_pauseResolver (set_isPaused false m).

(** checkAllUrls(bookmarks), up to its first suspension.  A call that
    finds [isChecking] set returns the empty list and changes nothing;
    an accepted call is a new run. *)
Definition checkAllUrls (bookmarks : list BookmarkNode) (m : Service) : Service :=
  if isChecking m then m
  else
    let m := set_isChecking true m in
    (* [loop_head] sets the point of the new run *)
    let run := mkRun (LinkChecker.collect_http_urls bookmarks) (AtPause 0) [] in
    let '(m, run) := loop_head (length (runs m)) 0 run m in
    set_runs (runs m ++ [run]) m.

Inductive Event :=
| CallCheckAllUrls (bookmarks : list BookmarkNode)
| CallCancel
| CallResetCancel
| CallPause
| CallResume
| CallSetStrictMode (enabled : bool)
| Continue (r : nat)                       (* run [r] goes on after its wait *)
| CheckSettles (r : nat) (start : Z) (net : LinkChecker.Network)
                                           (* the check of run [r] settles *)
| DelayElapsed (r : nat).                  (* the delay timer of run [r] fires *)

(** One transition.  The calls of the page can happen at any point; what
    the platform does for a run can happen only where the run waits for
    it, and is [None] elsewhere. *)
Definition step (m : Service) (e : Event) : option Service :=
  match e with
  | CallCheckAllUrls bookmarks => Some (checkAllUrls bookmarks m)
  | CallCancel => Some (cancel m)
  | CallResetCancel => Some (resetCancel m)
  | CallPause => Some (pause m)
  | CallResume => Some (resume m)
  | CallSetStrictMode enabled => Some (setStrictMode enabled m)
  | Continue r =>
      match runs m !! r with
      | Some run =>
          match pc run with
          | Woken i =>
              (* const url = urls[i]; ... await this.checkUrl(url) *)
              match urls run !! i with
              | Some url => Some (store r (begin_check r i url run m))
              | None => None
              end
          | WokenCheck i =>
              (* this.currentCheckingUrl = url; ... await Promise.race(...) *)
              match urls run !! i with
              | Some url =>
                  Some (store r (set_currentCheckingUrl (Some url) m,
                                 at_pc (InFlight i) run))
              | None => None
              end
          | _ => None
          end
      | None => None
      end
  | CheckSettles r start net =>
      match runs m !! r with
      | Some run =>
          match pc run with
          | InFlight i =>
              match urls run !! i with
              | Some url =>
                  match LinkChecker.checkUrl false None (strictMode m) start url net with
                  | LinkChecker.Resolves _ result =>
                      (* finally of checkUrl, then results.push(result) *)
                      let m := if bool_decide (currentCheckingUrl m = Some url)
                               then set_currentCheckingUrl None m else m in
                      Some (store r (after_check r i result run m))
                  | LinkChecker.Throws message =>
                      (* catch of the loop: an error result is recorded *)
                      Some (store r
                              (after_check r i
                                 (mkResult url SError
                                    (Some (LinkChecker.msg_or message "检测失败")) start)
                                 run m))
                  | LinkChecker.Pending => None
                  end
              | None => None
              end
          | _ => None
          end
      | None => None
      end
  | DelayElapsed r =>
      match runs m !! r with
      | Some run =>
          match pc run with
          | Delay i => Some (store r (loop_head r (S i) run m))
          | _ => None
          end
      | None => None
      end
  end.

Fixpoint run (tr : list Event) (m : Service) : option Service :=
  match tr with
  | [] => Some m
  | e :: tr' => match step m e with
                | Some m' => run tr' m'
                | None => None
                end
  end.

(** The checks that were begun, in order: the run and the URL. *)
Definition begun (l : list Entry) : list (nat * string) :=
  omap (fun e => match e with Began r u => Some (r, u) | CancelCalled => None end) l.

(** The URLs whose check run [r] has begun, in order. *)
Definition begun_by (r : nat) (l : list Entry) : list string :=
  omap (fun e => match e with
                 | Began r' u => if (r' =? r)%nat then Some u else None
                 | CancelCalled => None
                 end) l.

End LinkCheckerRuns.

(** ** JSON values

    The values that JSON.stringify writes and JSON.parse returns.  Numbers
    are the integers (the services store identifiers, titles and
    millisecond timestamps).  An object is the list of its properties in
    insertion order. *)

Module Json.

#[local] Unset Elimination Schemes.
Inductive json :=
| JNull
| JBool (b : bool)
| JNum (n : Z)
| JStr (s : string)
| JArr (items : list json)
| JObj (fields : list (string * json)).
#[local] Set Elimination Schemes.

(** The property read [o[k]]; [None] stands for [undefined]. *)
Fixpoint jlookup (k : string) (fields : list (string * json)) : option json :=
  match fields with
  | [] => None
  | (k', v) :: rest => if String.eqb k k' then Some v else jlookup k rest
  end.

(** A property [k: v] that is only present when the field is defined:
    JSON.stringify leaves out properties whose value is [undefined]. *)
Definition opt_field {A : Type} (k : string) (enc : A -> json) (o : option A)
  : list (string * json) :=
  match o with Some a => [(k, enc a)] | None => [] end.

(** *** A reference serialiser and parser

    [json_print] writes compact JSON text and [json_parse] reads JSON text
    (white space allowed, escapes below U+0100, integers).  They stand in
    for JSON.stringify and JSON.parse where a concrete document has to be
    evaluated. *)

Definition dquote : ascii := "034"%char.
Definition bslash : ascii := "092"%char.

Definition hex_char (n : nat) : ascii :=
  if (n <? 10)%nat then ascii_of_nat (48 + n) else ascii_of_nat (87 + n).

Fixpoint print_chars (s : string) : string :=
  match s with
  | EmptyString => EmptyString
  | String c r =>
      let n := nat_of_ascii c in
      (if (n =? 34)%nat then String bslash (String dquote "")
       else if (n =? 92)%nat then String bslash (String bslash "")
       else if (n <? 32)%nat then
         String bslash ("u00" +:+ String (hex_char (n / 16)) (String (hex_char (n mod 16)) ""))
       else String c "")
      +:+ print_chars r
  end.

Definition print_string (s : string) : string :=
  String dquote (print_chars s +:+ String dquote "").

Fixpoint json_print (j : json) : string :=
  match j with
  | JNull => "null"
  | JBool true => "true"
  | JBool false => "false"
  | JNum n => pretty n
  | JStr s => print_string s
  | JArr l =>
      "[" +:+
      (fix items (l : list json) : string :=
         match l with
         | [] => ""
         | x :: r => json_print x +:+
                     match r with [] => "" | _ :: _ => "," +:+ items r end
         end) l +:+ "]"
  | JObj fs =>
      "{" +:+
      (fix members (fs : list (string * json)) : string :=
         match fs with
         | [] => ""
         | (k, v) :: r => print_string k +:+ ":" +:+ json_print v +:+
                          match r with [] => "" | _ :: _ => "," +:+ members r end
         end) fs +:+ "}"
  end.

Definition is_ws (c : ascii) : bool :=
  let n := nat_of_ascii c in
  (n =? 32)%nat || (n =? 9)%nat || (n =? 10)%nat || (n =? 13)%nat.

Fixpoint skip_ws (s : string) : string :=
  match s with
  | EmptyString => EmptyString
  | String c r => if is_ws c then skip_ws r else s
  end.

Definition hex_value (c : ascii) : option nat :=
  let n := nat_of_ascii c in
  if ((48 <=? n) && (n <=? 57))%nat then Some (n - 48)%nat
  else if ((97 <=? n) && (n <=? 102))%nat then Some (n - 87)%nat
  else if ((65 <=? n) && (n <=? 70))%nat then Some (n - 55)%nat
  else None.

(** The character that follows a backslash, other than [u]. *)
Definition unescape (c : ascii) : option ascii :=
  let n := nat_of_ascii c in
  if (n =? 34)%nat then Some dquote
  else if (n =? 92)%nat then Some bslash
  else if (n =? 47)%nat then Some "/"%char
  else if (n =? 98)%nat then Some "008"%char
  else if (n =? 102)%nat then Some "012"%char
  else if (n =? 110)%nat then Some "010"%char
  else if (n =? 114)%nat then Some "013"%char
  else if (n =? 116)%nat then Some "009"%char
  else None.

(** The text after an opening quote: the string it denotes and the text
    after the closing quote. *)
Fixpoint parse_chars (s : string) : option (string * string) :=
  let cont (c : ascii) (r : option (string * string)) :=
    match r with
    | Some (body, rest) => Some (String c body, rest)
    | None => None
    end in
  match s with
  | EmptyString => None
  | String c r =>
      if Ascii.eqb c dquote then Some (EmptyString, r)
      else if Ascii.eqb c bslash then
        match r with
        | EmptyString => None
        | String e r1 =>
            if Ascii.eqb e "u"%char then
              match r1 with
              | String h1 (String h2 (String h3 (String h4 r2))) =>
                  match hex_value h1, hex_value h2, hex_value h3, hex_value h4 with
                  | Some 0%nat, Some 0%nat, Some a, Some b =>
                      cont (ascii_of_nat (16 * a + b)) (parse_chars r2)
                  | _, _, _, _ => None
                  end
              | _ => None
              end
            else
              match unescape e with
              | Some c' => cont c' (parse_chars r1)
              | None => None
              end
        end
      else cont c (parse_chars r)
  end.

Definition digit_value (c : ascii) : option Z :=
  let n := nat_of_ascii c in
  if ((48 <=? n) && (n <=? 57))%nat then Some (Z.of_nat (n - 48)) else None.

Fixpoint parse_digits (acc : Z) (s : string) : Z * string :=
  match s with
  | EmptyString => (acc, s)
  | String c r =>
      match digit_value c with
      | Some d => parse_digits (10 * acc + d) r
      | None => (acc, s)
      end
  end.

Definition parse_number (s : string) : option (Z * string) :=
  match s with
  | String c r =>
      if Ascii.eqb c "-"%char then
        match r with
        | String d _ =>
            match digit_value d with
            | Some _ => let '(n, rest) := parse_digits 0 r in Some ((- n)%Z, rest)
            | None => None
            end
        | EmptyString => None
        end
      else
        match digit_value c with
        | Some _ => Some (parse_digits 0 s)
        | None => None
        end
  | EmptyString => None
  end.

Fixpoint parse_value (fuel : nat) (s : string) : option (json * string) :=
  match fuel with
  | O => None
  | S fuel' =>
      match skip_ws s with
      | EmptyString => None
      | String c r as s0 =>
          if Ascii.eqb c "{"%char then
            match skip_ws r with
            | String c' r' =>
                if Ascii.eqb c' "}"%char then Some (JObj [], r')
                else match parse_members fuel' (String c' r') with
                     | Some (fs, rest) => Some (JObj fs, rest)
                     | None => None
                     end
            | EmptyString => None
            end
          else if Ascii.eqb c "["%char then
            match skip_ws r with
            | String c' r' =>
                if Ascii.eqb c' "]"%char then Some (JArr [], r')
                else match parse_items fuel' (String c' r') with
                     | Some (l, rest) => Some (JArr l, rest)
                     | None => None
                     end
            | EmptyString => None
            end
          else if Ascii.eqb c dquote then
            match parse_chars r with
            | Some (str, rest) => Some (JStr str, rest)
            | None => None
            end
          else if startsWith s0 "null" then Some (JNull, string_drop 4 s0)
          else if startsWith s0 "true" then Some (JBool true, string_drop 4 s0)
          else if startsWith s0 "false" then Some (JBool false, string_drop 5 s0)
          else match parse_number s0 with
               | Some (n, rest) => Some (JNum n, rest)
               | None => None
               end
      end
  end
with parse_items (fuel : nat) (s : string) : option (list json * string) :=
  match fuel with
  | O => None
  | S fuel' =>
      match parse_value fuel' s with
      | Some (v, rest) =>
          match skip_ws rest with
          | String c r =>
              if Ascii.eqb c "]"%char then Some ([v], r)
              else if Ascii.eqb c ","%char then
                match parse_items fuel' r with
                | Some (l, rest') => Some (v :: l, rest')
                | None => None
                end
              else None
          | EmptyString => None
          end
      | None => None
      end
  end
with parse_members (fuel : nat) (s : string)
  : option (list (string * json) * string) :=
  match fuel with
  | O => None
  | S fuel' =>
      match skip_ws s with
      | String q r =>
          if Ascii.eqb q dquote then
            match parse_chars r with
            | Some (k, rest) =>
                match skip_ws rest with
                | String c r1 =>
                    if Ascii.eqb c ":"%char then
                      match parse_value fuel' r1 with
                      | Some (v, rest1) =>
                          match skip_ws rest1 with
                          | String c2 r2 =>
                              if Ascii.eqb c2 "}"%char then Some ([(k, v)], r2)
                              else if Ascii.eqb c2 ","%char then
                                match parse_members fuel' r2 with
                                | Some (fs, rest2) => Some ((k, v) :: fs, rest2)
                                | None => None
                                end
                              else None
                          | EmptyString => None
                          end
                      | None => None
                      end
                    else None
                | EmptyString => None
                end
            | None => None
            end
          else None
      | EmptyString => None
      end
  end.

(** [None] stands for the SyntaxError that JSON.parse throws. *)
Definition json_parse (s : string) : option json :=
  match parse_value (2 * String.length s + 2) s with
  | Some (v, rest) =>
      match skip_ws rest with
      | EmptyString => Some v
      | String _ _ => None
      end
  | None => None
  end.

(** *** Bookmark nodes as JSON objects *)

(** [o[k]] read through a function: [jfind k f fields = f <$> jlookup k fields]. *)
Definition jfind {A : Type} (k : string) (f : json -> A)
  : list (string * json) -> option A :=
  fix go (fields : list (string * json)) : option A :=
    match fields with
    | [] => None
    | (k', v) :: rest => if String.eqb k k' then Some (f v) else go rest
    end.

(** All elements decode, or none. *)
Definition traverse {A B : Type} (f : A -> option B) : list A -> option (list B) :=
  fix go (l : list A) : option (list B) :=
    match l with
    | [] => Some []
    | x :: r =>
        match f x, go r with
        | Some y, Some ys => Some (y :: ys)
        | _, _ => None
        end
    end.

Definition status_to_string (s : NodeStatus) : string :=
  match s with
  | NSNormal => "normal" | NSBroken => "broken" | NSRedirect => "redirect"
  | NSChecking => "checking" | NSTimeout => "timeout" | NSError => "error"
  end.

Definition status_of_string (s : string) : option NodeStatus :=
  if String.eqb s "normal" then Some NSNormal
  else if String.eqb s "broken" then Some NSBroken
  else if String.eqb s "redirect" then Some NSRedirect
  else if String.eqb s "checking" then Some NSChecking
  else if String.eqb s "timeout" then Some NSTimeout
  else if String.eqb s "error" then Some NSError
  else None.

(** The object that JSON.stringify sees for a node: the defined properties.
    (The order of the keys of a JavaScript object is its insertion order;
    a fixed order is used here, and nothing below depends on it.) *)
Fixpoint node_to_json (n : BookmarkNode) : json :=
  JObj ([("id", JStr (node_id n)); ("title", JStr (node_title n))]
        ++ opt_field "url" JStr (node_url n)
        ++ opt_field "dateAdded" JNum (node_dateAdded n)
        ++ opt_field "parentId" JStr (node_parentId n)
        ++ opt_field "children" (fun cs => JArr (map node_to_json cs))
             (node_children n)
        ++ opt_field "status" (fun st => JStr (status_to_string st)) (node_status n)
        ++ opt_field "tags" (fun l => JArr (map JStr l)) (node_tags n)
        ++ opt_field "notes" JStr (node_notes n)).

Definition dec_string (j : json) : option string :=
  match j with JStr s => Some s | _ => None end.

Definition dec_number (j : json) : option Z :=
  match j with JNum n => Some n | _ => None end.

Definition dec_status (j : json) : option NodeStatus :=
  match j with JStr s => status_of_string s | _ => None end.

Definition dec_strings (j : json) : option (list string) :=
  match j with JArr l => traverse dec_string l | _ => None end.

(** An optional property: absent, present with a value of the declared
    type, or ([None]) present with a value of another type. *)
Definition dec_opt {A : Type} (o : option (option A)) : option (option A) :=
  match o with
  | None => Some None
  | Some (Some a) => Some (Some a)
  | Some None => None
  end.

(** A parsed object read at the type BookmarkNode.  [None]: the value is
    not of that type (a property is missing or has a value of another
    type); the TypeScript sources do not consider such values. *)
Fixpoint node_of_json (j : json) : option BookmarkNode :=
  match j with
  | JObj fields =>
      match jfind "id" dec_string fields, jfind "title" dec_string fields,
            dec_opt (jfind "url" dec_string fields),
            dec_opt (jfind "dateAdded" dec_number fields),
            dec_opt (jfind "parentId" dec_string fields),
            dec_opt (jfind "children"
                       (fun v => match v with
                                 | JArr items => traverse node_of_json items
                                 | _ => None
                                 end) fields),
            dec_opt (jfind "status" dec_status fields),
            dec_opt (jfind "tags" dec_strings fields),
            dec_opt (jfind "notes" dec_string fields)
      with
      | Some (Some i), Some (Some t), Some u, Some d, Some p, Some cs,
        Some st, Some tg, Some nt =>
          Some (mkBookmarkNode i t u d p cs st tg nt)
      | _, _, _, _, _, _, _, _, _ => None
      end
  | _ => None
  end.

End Json.

(** ** Parsed values as JavaScript sees them

    What JSON.parse returns is used by the services without a check of its
    type.  A value is a [json]; [JNull] is [null]; a property whose value
    is [undefined] is a missing property (a property read and
    JSON.stringify do not tell the two apart). *)

Module JsValue.
Import Json.

(** [if (v)] on a parsed value: [null], [false], [0] and [''] are falsy. *)
Definition truthy_value (v : json) : bool :=
  match v with
  | JNull => false
  | JBool b => b
  | JNum n => negb (n =? 0)%Z
  | JStr s => truthy_string s
  | JArr _ | JObj _ => true
  end.

(** [v.k] on a value other than [null], for the property names the
    services read ([id], [parentId], [children], [bookmarks]), which only
    an object can have; [None] is [undefined]. *)
Definition get_prop (k : string) (v : json) : option json :=
  match v with
  | JObj fields => jlookup k fields
  | _ => None
  end.

(** [o.k = v] on the properties of an object: the value is replaced where
    the property is, or the property is added at the end. *)
Fixpoint set_prop (k : string) (v : json) (fields : list (string * json))
  : list (string * json) :=
  match fields with
  | [] => [(k, v)]
  | (k', v') :: rest =>
      if String.eqb k k' then (k, v) :: rest else (k', v') :: set_prop k v rest
  end.

(** [delete o.k] *)
Fixpoint unset_prop (k : string) (fields : list (string * json))
  : list (string * json) :=
  match fields with
  | [] => []
  | (k', v') :: rest =>
      if String.eqb k k' then unset_prop k rest else (k', v') :: unset_prop k rest
  end.

(** The property [k] of an object literal written after a spread: with a
    value it is set, with [undefined] it is as good as missing. *)
Definition put_prop (k : string) (o : option json) (fields : list (string * json))
  : list (string * json) :=
  match o with
  | Some v => set_prop k v fields
  | None => unset_prop k fields
  end.

End JsValue.

(** ** services/importExport: removeDuplicates *)

Module ImportExport.

(** The two collections that removeDuplicates fills while it walks the
    forest: [seenUrls : Set<string>] and [seenTitles : Map<string, BookmarkNode>]. *)
Record Seen := mkSeen {
  seenUrls : gset string;
  seenTitles : gmap string BookmarkNode
}.

Definition no_seen : Seen := mkSeen ∅ ∅.

(** [l.map(x => f(x)).filter(y => y !== null)] for an [f] that reads and
    updates the collections: elements are processed from left to right. *)
Definition map_filter {S A B : Type} (f : A -> S -> option B * S)
  : list A -> S -> list B * S :=
  fix go (l : list A) (s : S) : list B * S :=
    match l with
    | [] => ([], s)
    | x :: r =>
        let '(o, s1) := f x s in
        let '(rest, s2) := go r s1 in
        (match o with Some y => y :: rest | None => rest end, s2)
    end.

(** The closure processNode(node, parentId) of removeDuplicates. *)
Fixpoint processNode (node : BookmarkNode) (parentId : option string) (s : Seen)
  : option BookmarkNode * Seen :=
  if has_url node then
    let url := default "" (node_url node) in
    if bool_decide (url ∈ seenUrls s) then (None, s)
    else
      let s1 := mkSeen ({[url]} ∪ seenUrls s) (seenTitles s) in
      let titleKey :=
        match parentId with
        | Some pid => if truthy_string pid
                      then pid +:+ ":" +:+ node_title node else node_title node
        | None => node_title node
        end in
      match seenTitles s1 !! titleKey with
      | Some _ => (None, s1)
      | None =>
          (Some node, mkSeen (seenUrls s1) (<[titleKey := node]> (seenTitles s1)))
      end
  else
    match node_children node with
    | Some (c :: cs) =>
        let '(cleanedChildren, s') :=
          map_filter (fun child => processNode child (Some (node_id node)))
                     (c :: cs) s in
        (Some (with_children (Some cleanedChildren) node), s')
    | _ => (Some node, s)
    end.

Definition removeDuplicates (bookmarks : list BookmarkNode) : list BookmarkNode :=
  fst (map_filter (fun node => processNode node None) bookmarks no_seen).

(** *** exportToJSON and importFromJSON *)

Import Json.

(** types/index.ts: ExportOptions (the [format] field is not read by
    exportToJSON). *)
Record ExportOptions := mkExportOptions {
  includeBroken : option bool;
  selectedFolders : option (list string)
}.

(** The default argument [{ format: 'json' }]. *)
Definition default_options : ExportOptions := mkExportOptions None None.

(** The predicate of [nodes.filter(...)] in filterTree. *)
Definition keep (options : ExportOptions) (node : BookmarkNode) : bool :=
  let unselected :=
    match selectedFolders options with
    | Some sel => truthy_string (node_id node)
                  && negb (bool_decide (node_id node ∈ sel))
    | None => false
    end in
  if unselected then false
  else if bool_decide (includeBroken options = Some false)
          && bool_decide (node_status node = Some NSBroken) then false
  else true.

(** [l.filter(p).map(f)] *)
Definition filter_map_list {A B : Type} (p : A -> bool) (f : A -> B)
  : list A -> list B :=
  fix go (l : list A) : list B :=
    match l with
    | [] => []
    | x :: r => if p x then f x :: go r else go r
    end.

(** The arrow function of [.map(...)] in filterTree. *)
Fixpoint filterNode (options : ExportOptions) (node : BookmarkNode) : BookmarkNode :=
  with_children
    (match node_children node with
     | Some cs => Some (filter_map_list (keep options) (filterNode options) cs)
     | None => None
     end) node.

Definition filterTree (options : ExportOptions) (nodes : list BookmarkNode)
  : list BookmarkNode :=
  filter_map_list (keep options) (filterNode options) nodes.

(** The object [{ version, exportDate, bookmarks }] that is serialised. *)
Definition export_document (exportDate : string) (bookmarkTree : list BookmarkNode)
    (options : ExportOptions) : json :=
  JObj [("version", JStr "1.0");
        ("exportDate", JStr exportDate);
        ("bookmarks", JArr (map node_to_json (filterTree options bookmarkTree)))].

(** [l.map(x => f(x))] for an [f] that reads and advances a counter. *)
Definition map_state {S A B : Type} (f : A -> S -> B * S)
  : list A -> S -> list B * S :=
  fix go (l : list A) (s : S) : list B * S :=
    match l with
    | [] => ([], s)
    | x :: r =>
        let '(y, s1) := f x s in
        let '(ys, s2) := go r s1 in
        (y :: ys, s2)
    end.

Inductive ImportFailure :=
| SyntaxError      (* JSON.parse threw *)
| InvalidFormat    (* data.bookmarks is missing or not an array *)
| TypeError.       (* a property of null was read *)

(** How importFromJSON ends.  Every failure reaches the caller as
    [Error('JSON解析失败: ' + message)]. *)
Inductive ImportResult :=
| Imported (nodes : list BookmarkNode)
| Failed (why : ImportFailure)
| NotBookmarkNodes.   (* entries that are not of the type BookmarkNode *)

Section Platform.

(** [JSON.stringify(data, null, 2)] and [JSON.parse]; [None] is a thrown
    SyntaxError. *)
Variable JSON_stringify : json -> string.
Variable JSON_parse : string -> option json.

(** The readings of Date.now() and Math.random() in the call number [k]
    of generateId, already formatted. *)
Variable stamp : nat -> string.

(** generateId() *)
Definition generateId (k : nat) : string := "bk_" +:+ stamp k.

(** exportToJSON(bookmarkTree, options); [exportDate] is
    [new Date().toISOString()]. *)
Definition exportToJSON (exportDate : string) (bookmarkTree : list BookmarkNode)
    (options : ExportOptions) : string :=
  JSON_stringify (export_document exportDate bookmarkTree options).

(** The closure addIds(node, parentId); the counter counts the calls of
    generateId. *)
Fixpoint addIds (node : BookmarkNode) (parentId : option string) (k : nat)
  : BookmarkNode * nat :=
  let '(id, k1) :=
    if truthy_string (node_id node) then (node_id node, k)
    else (generateId k, S k) in
  let '(children, k2) :=
    match node_children node with
    | Some cs =>
        let '(cs', k') :=
          map_state (fun child => addIds child (Some (node_id node))) cs k1 in
        (Some cs', k')
    | None => (None, k1)
    end in
  (mkBookmarkNode id (node_title node) (node_url node) (node_dateAdded node)
     parentId children (node_status node) (node_tags node) (node_notes node),
   k2).

(** importFromJSON(jsonContent, options) *)
Definition importFromJSON (jsonContent : string) : ImportResult :=
  match JSON_parse jsonContent with
  | None => Failed SyntaxError
  | Some JNull => Failed TypeError
  | Some (JObj fields) =>
      match jlookup "bookmarks" fields with
      | Some (JArr items) =>
          match traverse node_of_json items with
          | Some nodes =>
              Imported (fst (map_state (fun node => addIds node None) nodes 0%nat))
          | None => NotBookmarkNodes
          end
      | _ => Failed InvalidFormat
      end
  | Some _ => Failed InvalidFormat
  end.

End Platform.

(** *** The claim's vocabulary *)

(** The id, title, url and children of a node, all the way down. *)
#[local] Unset Elimination Schemes.
Inductive Core :=
| mkCore (id title : string) (url : option string) (children : option (list Core)).
#[local] Set Elimination Schemes.

Fixpoint core (n : BookmarkNode) : Core :=
  mkCore (node_id n) (node_title n) (node_url n)
         (match node_children n with
          | Some cs => Some (map core cs)
          | None => None
          end).

(** What importFromJSON makes of a node whose ids are all present: only
    the parentId fields are rewritten. *)
Fixpoint reparent (parentId : option string) (n : BookmarkNode) : BookmarkNode :=
  mkBookmarkNode (node_id n) (node_title n) (node_url n) (node_dateAdded n)
    parentId
    (match node_children n with
     | Some cs => Some (map (reparent (Some (node_id n))) cs)
     | None => None
     end)
    (node_status n) (node_tags n) (node_notes n).

End ImportExport.

(** ** importFromJSON on whatever the document holds

    importFromJSON does not check that the entries of [data.bookmarks] are
    bookmark nodes: [addIds] is applied to any value.  Here it is followed
    on any document; the typed reading of [ImportExport] is the case of
    entries that are bookmark nodes. *)

Module ImportValues.
Import Json JsValue ImportExport.

(** [l.map(x => f(x))] for an [f] that advances a counter and may throw;
    [None] is the exception, which ends the loop. *)
Definition map_try {S A B : Type} (f : A -> S -> option (B * S))
  : list A -> S -> option (list B * S) :=
  fix go (l : list A) (s : S) : option (list B * S) :=
    match l with
    | [] => Some ([], s)
    | x :: r =>
        match f x s with
        | Some (y, s1) =>
            match go r s1 with
            | Some (ys, s2) => Some (y :: ys, s2)
            | None => None
            end
        | None => None
        end
    end.

(** The own properties [0], [1], ... of an array or of a string. *)
Definition indexed (l : list json) : list (string * json) :=
  imap (fun i v => (pretty i, v)) l.

(** The properties that [{ ...node }] copies: those of an object, the
    elements of an array, the characters of a string (for ASCII text),
    and none for a number, a boolean or [null]. *)
Definition spread (node : json) : list (string * json) :=
  match node with
  | JObj fields => fields
  | JArr items => indexed items
  | JStr s => indexed (map (fun a => JStr (String a EmptyString))
                           (list_ascii_of_string s))
  | _ => []
  end.

(** How importFromJSON ends.  Every failure reaches the caller as
    [Error('JSON解析失败: ' + message)]. *)
Inductive Ends :=
| Gives (nodes : list json)
| Fails (why : ImportFailure).

Section Platform.

Variable JSON_parse : string -> option json.
Variable stamp : nat -> string.

(** [node.id || this.generateId()]; the counter counts the calls of
    generateId. *)
Definition id_or_fresh (id : option json) (k : nat) : json * nat :=
  match id with
  | Some v => if truthy_value v then (v, k) else (JStr (generateId stamp k), S k)
  | None => (JStr (generateId stamp k), S k)
  end.

(** The closure addIds(node, parentId) on any value; [None] is a
    TypeError: [node] is [null], or [node.children] is neither falsy nor
    an array, so that it has no [map]. *)
Fixpoint addIds (node : json) (parentId : option json) (k : nat) {struct node}
  : option (json * nat) :=
  match node with
  | JNull => None
  | JObj fields =>
      let id := jlookup "id" fields in
      let '(id', k1) := id_or_fresh id k in
      let children :=
        jfind "children"
          (fun c (k1 : nat) =>
             if truthy_value c then
               match c with
               | JArr items =>
                   match map_try (fun child => addIds child id) items k1 with
                   | Some (items', k2) => Some (Some (JArr items'), k2)
                   | None => None
                   end
               | _ => None
               end
             else Some (None, k1))
          fields in
      match match children with
            | Some mapped => mapped k1
            | None => Some (None, k1)
            end
      with
      | Some (children', k2) =>
          Some (JObj (put_prop "children" children'
                        (put_prop "parentId" parentId
                           (set_prop "id" id' fields))), k2)
      | None => None
      end
  | other =>
      let '(id', k1) := id_or_fresh None k in
      Some (JObj (put_prop "parentId" parentId
                    (set_prop "id" id' (spread other))), k1)
  end.

(** importFromJSON(jsonContent, options) *)
Definition importFromJSON (jsonContent : string) : Ends :=
  match JSON_parse jsonContent with
  | None => Fails SyntaxError
  | Some JNull => Fails TypeError
  | Some data =>
      match get_prop "bookmarks" data with
      | Some (JArr items) =>
          match map_try (fun node => addIds node None) items 0%nat with
          | Some (nodes, _) => Gives nodes
          | None => Fails TypeError
          end
      | _ => Fails InvalidFormat
      end
  end.

End Platform.

(** The nodes of an imported tree: the value, then the nodes of the
    elements of its [children] array. *)
Fixpoint value_nodes (node : json) : list json :=
  node ::
  match node with
  | JObj fields =>
      default []
        (jfind "children"
           (fun c => match c with
                     | JArr items => flat_map value_nodes items
                     | _ => []
                     end)
           fields)
  | _ => []
  end.

End ImportValues.

(** ** services/importExport: validation, cleaning and the import preview *)

Module Cleaning.

(** The closure countItems of previewImport: the folders and the bookmarks
    it counts below (and including) a node. *)
Fixpoint countItems (node : BookmarkNode) : nat * nat :=
  if has_url node then (0, 1)%nat
  else
    let below :=
      match node_children node with
      | Some cs => map countItems cs
      | None => []
      end in
    (S (foldr (fun c n => fst c + n) 0 below), foldr (fun c n => snd c + n) 0 below)%nat.

(** The object [{ count, folders, bookmarks }] that previewImport computes
    from the imported forest. *)
Definition previewCounts (bookmarks : list BookmarkNode) : nat * nat * nat :=
  let counted := map countItems bookmarks in
  (length bookmarks,
   foldr (fun c n => fst c + n) 0 counted,
   foldr (fun c n => snd c + n) 0 counted)%nat.

Section Platform.

(** [s.trim()] *)
Variable trim : string -> string.

(** [!title || title.trim() === ''] *)
Definition blank (title : string) : bool :=
  negb (truthy_string title) || String.eqb (trim title) "".

(** The closure validateNode(node, path) of validateBookmarks: the errors
    it pushes, in order. *)
Fixpoint validateNode (node : BookmarkNode) (path : string) : list string :=
  let currentPath :=
    if truthy_string path then path +:+ " > " +:+ node_title node
    else node_title node in
  let url := default "" (node_url node) in
  (if has_url node && negb (startsWith url "http")
   then ["无效的书签URL: " +:+ currentPath +:+ " (" +:+ url +:+ ")"] else [])
  ++ (if negb (has_url node) && blank (node_title node)
      then ["文件夹没有标题: " +:+ (if truthy_string path then path else "根目录")]
      else [])
  ++ match node_children node with
     | Some cs => flat_map (fun child => validateNode child currentPath) cs
     | None => []
     end.

(** validateBookmarks(bookmarks): the pair (valid, errors). *)
Definition validateBookmarks (bookmarks : list BookmarkNode) : bool * list string :=
  let errors := flat_map (fun node => validateNode node "") bookmarks in
  ((length errors =? 0)%nat, errors).

(** The closure cleanNode of cleanBookmarks; [None] is [null]. *)
Fixpoint cleanNode (node : BookmarkNode) : option BookmarkNode :=
  if has_url node then
    let url := default "" (node_url node) in
    if negb (startsWith url "http") && negb (startsWith url "https")
       && negb (startsWith url "ftp")
    then None else Some node
  else if blank (node_title node) then None
  else
    match node_children node with
    | Some (c :: cs) => Some (with_children (Some (omap cleanNode (c :: cs))) node)
    | _ => Some node
    end.

Definition cleanBookmarks (bookmarks : list BookmarkNode) : list BookmarkNode :=
  omap cleanNode bookmarks.

End Platform.
End Cleaning.

(** ** services/cloudSync: the sync service over localStorage *)

Module CloudSync.
Import Json.

(** types/index.ts: User and SyncData *)
Record User := mkUser {
  user_id : string;
  email : string;
  username : string;
  avatar : option string;
  createdAt : Z;
  lastSyncTime : Z;
  syncEnabled : bool
}.

Record SyncData := mkSyncData {
  sync_userId : string;
  sync_bookmarks : list BookmarkNode;
  sync_timestamp : Z;
  sync_version : string
}.

(** [user.lastSyncTime = t] *)
Definition set_lastSyncTime (t : Z) (u : User) : User :=
  mkUser (user_id u) (email u) (username u) (avatar u) (createdAt u) t
         (syncEnabled u).

Definition user_to_json (u : User) : json :=
  JObj ([("id", JStr (user_id u)); ("email", JStr (email u));
         ("username", JStr (username u))]
        ++ opt_field "avatar" JStr (avatar u)
        ++ [("createdAt", JNum (createdAt u));
            ("lastSyncTime", JNum (lastSyncTime u));
            ("syncEnabled", JBool (syncEnabled u))]).

Definition dec_bool (j : json) : option bool :=
  match j with JBool b => Some b | _ => None end.

(** A parsed value read at the type User; [None]: not of that type. *)
Definition user_of_json (j : json) : option User :=
  match j with
  | JObj fields =>
      match jfind "id" dec_string fields, jfind "email" dec_string fields,
            jfind "username" dec_string fields,
            dec_opt (jfind "avatar" dec_string fields),
            jfind "createdAt" dec_number fields,
            jfind "lastSyncTime" dec_number fields,
            jfind "syncEnabled" dec_bool fields
      with
      | Some (Some i), Some (Some e), Some (Some n), Some a,
        Some (Some c), Some (Some l), Some (Some s) =>
          Some (mkUser i e n a c l s)
      | _, _, _, _, _, _, _ => None
      end
  | _ => None
  end.

Definition syncData_to_json (d : SyncData) : json :=
  JObj [("userId", JStr (sync_userId d));
        ("bookmarks", JArr (map node_to_json (sync_bookmarks d)));
        ("timestamp", JNum (sync_timestamp d));
        ("version", JStr (sync_version d))].

Definition dec_nodes (j : json) : option (list BookmarkNode) :=
  match j with JArr items => traverse node_of_json items | _ => None end.

Definition syncData_of_json (j : json) : option SyncData :=
  match j with
  | JObj fields =>
      match jfind "userId" dec_string fields, jfind "bookmarks" dec_nodes fields,
            jfind "timestamp" dec_number fields, jfind "version" dec_string fields
      with
      | Some (Some u), Some (Some b), Some (Some t), Some (Some v) =>
          Some (mkSyncData u b t v)
      | _, _, _, _ => None
      end
  | _ => None
  end.

Definition STORAGE_KEY_USER : string := "bookmark_user".
Definition STORAGE_KEY_SYNC_DATA : string := "bookmark_sync_data".

(** What a getter that is typed [T | null] finds in storage. *)
Inductive Stored (A : Type) :=
| Absent                (* null *)
| Present (a : A)
| IllTyped.             (* a value of another type; not considered by the sources *)
Arguments Absent {A}.
Arguments Present {A} a.
Arguments IllTyped {A}.

Inductive SyncError :=
| NotLoggedIn           (* new Error('用户未登录') *)
| ParseError.           (* the SyntaxError of JSON.parse *)

(** How an async operation of the service ends. *)
Inductive Outcome (A : Type) :=
| Done (a : A)
| Raised (e : SyncError)
| OutsideTypes.
Arguments Done {A} a.
Arguments Raised {A} e.
Arguments OutsideTypes {A}.

Section Platform.

(** [JSON.stringify(value)] and [JSON.parse(text)] ([None]: SyntaxError). *)
Variable JSON_stringify : json -> string.
Variable JSON_parse : string -> option json.

(** getCurrentUser() on the storage [st] (localStorage). *)
Definition getCurrentUser (st : gmap string string) : Stored User :=
  match st !! STORAGE_KEY_USER with
  | Some userData =>
      if truthy_string userData then
        match JSON_parse userData with
        | Some JNull => Absent
        | Some j => match user_of_json j with
                    | Some u => Present u
                    | None => IllTyped
                    end
        | None => Absent                       (* catch { return null } *)
        end
      else Absent
  | None => Absent
  end.

(** isLoggedIn() *)
Definition isLoggedIn (st : gmap string string) : bool :=
  match getCurrentUser st with Absent => false | _ => true end.

(** uploadBookmarks(bookmarks); [now1] and [now2] are the two readings of
    Date.now().  The storage after the call is returned with the outcome. *)
Definition uploadBookmarks (bookmarks : list BookmarkNode) (now1 now2 : Z)
    (st : gmap string string) : Outcome unit * gmap string string :=
  match getCurrentUser st with
  | Absent => (Raised NotLoggedIn, st)
  | IllTyped => (OutsideTypes, st)
  | Present user =>
      let syncData := mkSyncData (user_id user) bookmarks now1 "1.0.0" in
      let st1 := <[STORAGE_KEY_SYNC_DATA :=
                     JSON_stringify (syncData_to_json syncData)]> st in
      let user' := set_lastSyncTime now2 user in
      let st2 := <[STORAGE_KEY_USER := JSON_stringify (user_to_json user')]> st1 in
      (Done tt, st2)
  end.

(** downloadBookmarks(); it does not write to the storage. *)
Definition downloadBookmarks (st : gmap string string)
  : Outcome (list BookmarkNode) :=
  match getCurrentUser st with
  | Absent => Raised NotLoggedIn
  | IllTyped => OutsideTypes
  | Present user =>
      match st !! STORAGE_KEY_SYNC_DATA with
      | Some syncDataStr =>
          if truthy_string syncDataStr then
            match JSON_parse syncDataStr with
            | Some j => match syncData_of_json j with
                        | Some syncData => Done (sync_bookmarks syncData)
                        | None => OutsideTypes
                        end
            | None => Raised ParseError
            end
          else Done []
      | None => Done []
      end
  end.

(** syncBookmarks(localBookmarks) *)
Definition syncBookmarks (localBookmarks : list BookmarkNode) (now1 now2 : Z)
    (st : gmap string string)
  : Outcome (list BookmarkNode) * gmap string string :=
  match getCurrentUser st with
  | Absent => (Raised NotLoggedIn, st)
  | IllTyped => (OutsideTypes, st)
  | Present user =>
      match uploadBookmarks localBookmarks now1 now2 st with
      | (Done _, st') => (downloadBookmarks st', st')
      | (Raised e, st') => (Raised e, st')
      | (OutsideTypes, st') => (OutsideTypes, st')
      end
  end.

End Platform.
End CloudSync.

(** ** The sync operations on whatever the storage holds

    [localStorage] is shared with the rest of the page, and getCurrentUser
    returns what JSON.parse makes of the stored text without checking it.
    Here the three sync operations are followed on any stored value: a
    value is a [json], [JNull] is [null], and a property whose value is
    [undefined] is a missing property. *)

Module CloudSyncValues.
Import Json JsValue CloudSync.

(** [user.lastSyncTime = t] in strict code: it sets the property of an
    object, leaves no trace on an array (a property that JSON.stringify
    does not write), and throws a TypeError on a string, number or
    boolean; [None] is the TypeError. *)
Definition assign_lastSyncTime (t : Z) (user : json) : option json :=
  match user with
  | JObj fields => Some (JObj (set_prop "lastSyncTime" (JNum t) fields))
  | JArr items => Some (JArr items)
  | _ => None
  end.

Inductive Failure :=
| ENotLoggedIn          (* new Error('用户未登录') *)
| ESyntax               (* the SyntaxError of JSON.parse *)
| EType.                (* a TypeError *)

(** How an async operation of the service ends. *)
Inductive Ends (A : Type) :=
| Resolved (a : A)
| Thrown (e : Failure).
Arguments Resolved {A} a.
Arguments Thrown {A} e.

Section Platform.

Variable JSON_stringify : json -> string.
Variable JSON_parse : string -> option json.

(** getCurrentUser(): the parsed value, [JNull] for [null]. *)
Definition getCurrentUser (st : gmap string string) : json :=
  match st !! STORAGE_KEY_USER with
  | Some userData =>
      if truthy_string userData then
        match JSON_parse userData with
        | Some v => v
        | None => JNull                        (* catch { return null } *)
        end
      else JNull
  | None => JNull
  end.

(** isLoggedIn(): [user !== null] *)
Definition isLoggedIn (st : gmap string string) : bool :=
  match getCurrentUser st with JNull => false | _ => true end.

(** The object [{ userId: user.id, bookmarks, timestamp, version }]. *)
Definition syncData_value (user : json) (bookmarks : list BookmarkNode)
    (timestamp : Z) : json :=
  JObj (opt_field "userId" (fun v => v) (get_prop "id" user)
        ++ [("bookmarks", JArr (map node_to_json bookmarks));
            ("timestamp", JNum timestamp);
            ("version", JStr "1.0.0")]).

(** uploadBookmarks(bookmarks), with the storage after the call. *)
Definition uploadBookmarks (bookmarks : list BookmarkNode) (now1 now2 : Z)
    (st : gmap string string) : Ends unit * gmap string string :=
  let user := getCurrentUser st in
  if negb (truthy_value user) then (Thrown ENotLoggedIn, st)
  else
    let st1 := <[STORAGE_KEY_SYNC_DATA :=
                   JSON_stringify (syncData_value user bookmarks now1)]> st in
    match assign_lastSyncTime now2 user with
    | None => (Thrown EType, st1)
    | Some user' =>
        (Resolved tt, <[STORAGE_KEY_USER := JSON_stringify user']> st1)
    end.

(** downloadBookmarks(): the value of [syncData.bookmarks]. *)
Definition downloadBookmarks (st : gmap string string) : Ends (option json) :=
  let user := getCurrentUser st in
  if negb (truthy_value user) then Thrown ENotLoggedIn
  else
    match st !! STORAGE_KEY_SYNC_DATA with
    | Some syncDataStr =>
        if truthy_string syncDataStr then
          match JSON_parse syncDataStr with
          | Some JNull => Thrown EType
          | Some syncData => Resolved (get_prop "bookmarks" syncData)
          | None => Thrown ESyntax
          end
        else Resolved (Some (JArr []))
    | None => Resolved (Some (JArr []))
    end.

(** syncBookmarks(localBookmarks) *)
Definition syncBookmarks (localBookmarks : list BookmarkNode) (now1 now2 : Z)
    (st : gmap string string) : Ends (option json) * gmap string string :=
  let user := getCurrentUser st in
  if negb (truthy_value user) then (Thrown ENotLoggedIn, st)
  else
    match uploadBookmarks localBookmarks now1 now2 st with
    | (Resolved _, st') => (downloadBookmarks st', st')
    | (Thrown e, st') => (Thrown e, st')
    end.

End Platform.
End CloudSyncValues.

(** ** The account operations of the cloud sync service *)

Module CloudAccount.
Import Json CloudSync.

(** [user.syncEnabled = b] and [{ ...user, username: n }] *)
Definition set_syncEnabled (b : bool) (u : User) : User :=
  mkUser (user_id u) (email u) (username u) (avatar u) (createdAt u)
         (lastSyncTime u) b.
Definition set_username (n : string) (u : User) : User :=
  mkUser (user_id u) (email u) n (avatar u) (createdAt u)
         (lastSyncTime u) (syncEnabled u).

(** [s.split(c)[0]]: the part of [s] before the first [c]. *)
Fixpoint before_char (c : ascii) (s : string) : string :=
  match s with
  | EmptyString => EmptyString
  | String a s' => if Ascii.eqb a c then EmptyString else String a (before_char c s')
  end.

(** [`user_${Date.now()}`] *)
Definition fresh_id (now : Z) : string := "user_" +:+ pretty now.

Inductive LoginError :=
| InvalidEmail          (* new Error('请输入有效的邮箱地址') *)
| PasswordTooShort      (* new Error('密码长度至少为6位') *)
| WrongPassword.        (* new Error('密码错误') *)

(** How login ends. *)
Inductive LoginOutcome :=
| LoggedIn (user : User)
| Refused (e : LoginError)
| LoginOutsideTypes.

Section Platform.

Variable JSON_stringify : json -> string.
Variable JSON_parse : string -> option json.
(** [/^[^\s@]+@[^\s@]+\.[^\s@]+$/.test(email)] *)
Variable emailRegex_test : string -> bool.
(** [s.length], counted in UTF-16 code units. *)
Variable js_length : string -> nat.

Local Abbreviation getCurrentUser := (getCurrentUser JSON_parse).

Definition store_user (u : User) (st : gmap string string) : gmap string string :=
  <[STORAGE_KEY_USER := JSON_stringify (user_to_json u)]> st.

(** register(email, username, password); [now1] and [now2] are the two
    readings of Date.now(). *)
Definition register (email username password : string) (now1 now2 : Z)
    (st : gmap string string) : User * gmap string string :=
  let user := mkUser (fresh_id now1) email username None now2 0 true in
  (user, store_user user st).

(** login(email, password) *)
Definition login (email' password : string) (now1 now2 : Z)
    (st : gmap string string) : LoginOutcome * gmap string string :=
  if negb (emailRegex_test email') then (Refused InvalidEmail, st)
  else if (js_length password <? 6)%nat then (Refused PasswordTooShort, st)
  else
    let fresh :=
      let user := mkUser (fresh_id now1) email' (before_char "@" email') None
                         now2 0 true in
      (LoggedIn user, store_user user st) in
    match getCurrentUser st with
    | Present existingUser =>
        if String.eqb (email existingUser) email' then
          if (js_length password <? 6)%nat then (Refused WrongPassword, st)
          else (LoggedIn existingUser, st)
        else fresh
    | Absent => fresh
    | IllTyped => (LoginOutsideTypes, st)
    end.

(** logout() *)
Definition logout (st : gmap string string) : gmap string string :=
  delete STORAGE_KEY_SYNC_DATA (delete STORAGE_KEY_USER st).

(** setSyncEnabled(enabled); [None]: the stored user is outside the type. *)
Definition setSyncEnabled (enabled : bool) (st : gmap string string)
  : option (gmap string string) :=
  match getCurrentUser st with
  | Present user => Some (store_user (set_syncEnabled enabled user) st)
  | Absent => Some st
  | IllTyped => None
  end.

(** getSyncStatus(): the pair (enabled, lastSyncTime). *)
Definition getSyncStatus (st : gmap string string) : option (bool * Z) :=
  match getCurrentUser st with
  | Present user =>
      Some (syncEnabled user || false,
            if (lastSyncTime user =? 0)%Z then 0%Z else lastSyncTime user)
  | Absent => Some (false, 0%Z)
  | IllTyped => None
  end.

(** checkForUpdates() *)
Definition checkForUpdates (st : gmap string string) : Outcome bool :=
  match getCurrentUser st with
  | Absent => Done false
  | IllTyped => OutsideTypes
  | Present user =>
      match st !! STORAGE_KEY_SYNC_DATA with
      | Some syncDataStr =>
          if truthy_string syncDataStr then
            match JSON_parse syncDataStr with
            | Some j => match syncData_of_json j with
                        | Some syncData =>
                            Done (lastSyncTime user <? sync_timestamp syncData)%Z
                        | None => OutsideTypes
                        end
            | None => Raised ParseError
            end
          else Done false
      | None => Done false
      end
  end.

(** updateUsername(newUsername) *)
Definition updateUsername (newUsername : string) (st : gmap string string)
  : Outcome User * gmap string string :=
  match getCurrentUser st with
  | Absent => (Raised NotLoggedIn, st)
  | IllTyped => (OutsideTypes, st)
  | Present user =>
      let updatedUser := set_username newUsername user in
      (Done updatedUser, store_user updatedUser st)
  end.

(** updatePassword(newPassword) *)
Definition updatePassword (newPassword : string) (st : gmap string string)
  : Outcome unit * gmap string string :=
  match getCurrentUser st with
  | Absent => (Raised NotLoggedIn, st)
  | IllTyped => (OutsideTypes, st)
  | Present _ => (Done tt, st)
  end.

(** deleteAccount() *)
Definition deleteAccount (st : gmap string string)
  : Outcome unit * gmap string string :=
  match getCurrentUser st with
  | Absent => (Raised NotLoggedIn, st)
  | IllTyped => (OutsideTypes, st)
  | Present _ =>
      (Done tt, delete STORAGE_KEY_SYNC_DATA (delete STORAGE_KEY_USER st))
  end.

End Platform.
End CloudAccount.

(** ** services/bookmarkOrganizer: rule-based categorisation *)

Module Organizer.
Section Platform.

(** [String.prototype.toLowerCase]. *)
Variable toLowerCase : string -> string.

(** [new RegExp(pattern).test(s)]: [None] when the constructor throws
    (the pattern is not a valid regular expression). *)
Variable regex_test : string -> string -> option bool.

(** matchesRule(bookmark, rule) *)
Definition matchesRule (bookmark : BookmarkNode) (rule : CategoryRule) : bool :=
  let title := node_title bookmark in
  let url := node_url bookmark in
  let matchesKeyword :=
    if (0 <? length (keywords rule))%nat then
      let titleLower := toLowerCase title in
      let urlLower := toLowerCase (or_else url "") in
      existsb (fun keyword =>
                 includes titleLower (toLowerCase keyword)
                 || includes urlLower (toLowerCase keyword))
              (keywords rule)
    else false in
  if matchesKeyword then true
  else
    match urlPatterns rule, url with
    | Some patterns, Some u =>
        if (0 <? length patterns)%nat && truthy_string u then
          existsb (fun pattern =>
                     match regex_test pattern u with
                     | Some b => b
                     | None => false      (* catch { return false } *)
                     end) patterns
        else false
    | _, _ => false
    end.

(** [categorized.get(folder).push(node)], creating the entry first when
    the folder has none. *)
Definition push_to (folderName : string) (node : BookmarkNode)
    (categorized : gmap string (list BookmarkNode))
  : gmap string (list BookmarkNode) :=
  <[folderName := default [] (categorized !! folderName) ++ [node]]> categorized.

(** The loop [for (const rule of rules) { if (matches) { push; break } }]. *)
Fixpoint assign (node : BookmarkNode) (rules : list CategoryRule)
    (categorized : gmap string (list BookmarkNode))
  : gmap string (list BookmarkNode) :=
  match rules with
  | [] => categorized
  | rule :: rest =>
      if matchesRule node rule
      then push_to (targetFolder rule) node categorized
      else assign node rest categorized
  end.

(** The closure categorizeNode; the map it mutates is threaded. *)
Fixpoint categorizeNode (rules : list CategoryRule) (node : BookmarkNode)
    (categorized : gmap string (list BookmarkNode))
  : gmap string (list BookmarkNode) :=
  let forEachChild c :=
    match node_children node with
    | Some cs => fold_left (fun c child => categorizeNode rules child c) cs c
    | None => c
    end in
  if negb (has_url node) then forEachChild categorized
  else forEachChild (assign node rules categorized).

Definition categorizeBookmarks (bookmarks : list BookmarkNode)
    (rules : list CategoryRule) : gmap string (list BookmarkNode) :=
  fold_left (fun c node => categorizeNode rules node c) bookmarks ∅.

(** The bookmarks filed under a folder name ([[]] when the map has no
    such key). *)
Definition filed (categorized : gmap string (list BookmarkNode))
    (folderName : string) : list BookmarkNode :=
  default [] (categorized !! folderName).

(** *** The claim's vocabulary, following the words of the specification *)

(** "keyword case-insensitively appears in" a text: after lower-casing
    both, the keyword is a contiguous part of the text. *)
Definition appears_ci (keyword text : string) : Prop :=
  exists pre post, toLowerCase text = pre +:+ toLowerCase keyword +:+ post.

(** "any keyword case-insensitively appears in title or URL, or any
    regex pattern matches the URL". *)
Definition rule_matches (b : BookmarkNode) (r : CategoryRule) : Prop :=
  (exists k, In k (keywords r) /\
             (appears_ci k (node_title b) \/
              appears_ci k (or_else (node_url b) ""))) \/
  (exists p u, node_url b = Some u /\
               In p (default [] (urlPatterns r)) /\
               regex_test p u = Some true).

(** The target folder of the first rule, in list order, that the code
    finds matching; [None] when no rule matches. *)
Definition first_target (rules : list CategoryRule) (b : BookmarkNode)
  : option string :=
  targetFolder <$> List.find (matchesRule b) rules.

Definition goes_to (rules : list CategoryRule) (f : string) (b : BookmarkNode)
  : bool :=
  has_url b && bool_decide (first_target rules b = Some f).

End Platform.
End Organizer.

(** ** services/bookmarkOrganizer: duplicate detection *)

Module Duplicates.

(** The separator class of the regular expression [/[\/\?&#=]+/]. *)
Definition is_separator (c : ascii) : bool :=
  bool_decide (c = "/"%char) || bool_decide (c = "?"%char) ||
  bool_decide (c = "&"%char) || bool_decide (c = "#"%char) ||
  bool_decide (c = "="%char).

(** [s.split(/[\/\?&#=]+/)]: the pieces between maximal runs of
    separators; a leading or trailing run leaves an empty piece, and the
    empty string splits into one empty piece.  [cur] is the piece being
    read, [in_run] tells that the previous character was a separator. *)
Fixpoint split_go (cur : string) (in_run : bool) (s : string) : list string :=
  match s with
  | EmptyString => [cur]
  | String c s' =>
      if is_separator c then
        if in_run then split_go "" true s'
        else cur :: split_go "" true s'
      else split_go (cur +:+ String c "") false s'
  end.

Definition split_separators (s : string) : list string := split_go "" false s.

(** [normalized.split(...).filter(t => t.length > 2)]; the length is that of
    the [string], which is the JavaScript length for ASCII text. *)
Definition tokens (normalized : string) : list string :=
  List.filter (fun t => (2 <? String.length t)%nat) (split_separators normalized).

(** The insertion-ordered [Map<string, BookmarkNode[]>] of collectUrls:
    [urlMap.get(k).push(node)], with the key appended when it is new. *)
Fixpoint urlMap_push (k : string) (node : BookmarkNode)
    (m : list (string * list BookmarkNode)) : list (string * list BookmarkNode) :=
  match m with
  | [] => [(k, [node])]
  | (k', l) :: rest =>
      if String.eqb k k' then (k', l ++ [node]) :: rest
      else (k', l) :: urlMap_push k node rest
  end.

Section Platform.

Variable toLowerCase : string -> string.

(** [new URL(url)] followed by [hash = ''] and [toString()]; [None] when
    the constructor throws. *)
Variable URL_href_nohash : string -> option string.

(** normalizeUrl(url) of the organizer service *)
Definition normalizeUrl (url : string) : string :=
  match URL_href_nohash url with
  | Some href => toLowerCase href
  | None => toLowerCase url
  end.

(** calculateUrlSimilarity(url1, url2) *)
Definition calculateUrlSimilarity (url1 url2 : string) : Q :=
  let normalized1 := normalizeUrl url1 in
  let normalized2 := normalizeUrl url2 in
  if String.eqb normalized1 normalized2 then 1%Q
  else
    let tokens1 := tokens normalized1 in
    let tokens2 := tokens normalized2 in
    if (length tokens1 =? 0)%nat || (length tokens2 =? 0)%nat then 0%Q
    else
      let intersection :=
        List.filter (fun t => bool_decide (t ∈ tokens2)) tokens1 in
      let union : gset string := list_to_set (tokens1 ++ tokens2) in
      (inject_Z (Z.of_nat (length intersection))
       / inject_Z (Z.of_nat (size union)))%Q.

(** The closure collectUrls, threading the map it fills. *)
Fixpoint collectUrls (node : BookmarkNode)
    (urlMap : list (string * list BookmarkNode))
  : list (string * list BookmarkNode) :=
  let urlMap1 :=
    match node_url node with
    | Some u => if truthy_string u
                then urlMap_push (normalizeUrl u) node urlMap else urlMap
    | None => urlMap
    end in
  match node_children node with
  | Some cs => fold_left (fun m child => collectUrls child m) cs urlMap1
  | None => urlMap1
  end.

Definition collectAll (bookmarks : list BookmarkNode)
  : list (string * list BookmarkNode) :=
  fold_left (fun m node => collectUrls node m) bookmarks [].

(** The inner loop [for (j = i + 1; ...)] for a fixed [urls[i]]. *)
Definition similar_to (u1 : string) (l1 : list BookmarkNode)
    (rest : list (string * list BookmarkNode)) : list DuplicateInfo :=
  flat_map (fun '(u2, l2) =>
              let similarity := calculateUrlSimilarity u1 u2 in
              if Qlt_le_dec (8 # 10) similarity
              then [mkDuplicateInfo u1 (l1 ++ l2) similarity] else [])
           rest.

(** The outer loop [for (i = 0; ...)]. *)
Fixpoint similar_pairs (m : list (string * list BookmarkNode)) : list DuplicateInfo :=
  match m with
  | [] => []
  | (u1, l1) :: rest => similar_to u1 l1 rest ++ similar_pairs rest
  end.

Definition findSimilarDuplicates (bookmarks : list BookmarkNode) : list DuplicateInfo :=
  similar_pairs (collectAll bookmarks).

(** findDuplicates(bookmarks, options); of the options only [similarMatch]
    is read. *)
Definition findDuplicates (bookmarks : list BookmarkNode) (similarMatch : bool)
  : list DuplicateInfo :=
  let exact :=
    flat_map (fun '(url, bookmarkList) =>
                if (1 <? length bookmarkList)%nat
                then [mkDuplicateInfo url bookmarkList 1%Q] else [])
             (collectAll bookmarks) in
  if similarMatch then exact ++ findSimilarDuplicates bookmarks else exact.

End Platform.
End Duplicates.

(** ** services/bookmarkOrganizer: merging, grouping by folder, searching *)

Module Organizing.
Import Organizer Duplicates.

(** The [strategy] argument of mergeBookmarks. *)
Inductive Strategy := Replace | Merge | Skip.

(** The locals [merged] and [processed] of mergeBookmarks. *)
Record MergeState := mkMergeState {
  merged : list BookmarkNode;
  processed : gset string
}.

(** The [options] argument of searchBookmarks. *)
Record SearchOptions := mkSearchOptions {
  searchTitle : bool;
  searchUrl : bool;
  searchTags : bool
}.

(** The closure processNode(node, folderPath) of organizeByFolder. *)
Fixpoint organizeNode (node : BookmarkNode) (folderPath : string)
    (folderMap : gmap string (list BookmarkNode))
  : gmap string (list BookmarkNode) :=
  if has_url node then push_to folderPath node folderMap
  else
    match node_children node with
    | Some cs =>
        let newFolderPath := folderPath +:+ "/" +:+ node_title node in
        fold_left (fun m child => organizeNode child newFolderPath m) cs folderMap
    | None => folderMap
    end.

(** organizeByFolder(bookmarks); the default folder path is '根目录'. *)
Definition organizeByFolder (bookmarks : list BookmarkNode)
  : gmap string (list BookmarkNode) :=
  fold_left (fun m node => organizeNode node "根目录" m) bookmarks ∅.

Section Platform.

Variable toLowerCase : string -> string.
Variable URL_href_nohash : string -> option string.

Local Abbreviation normalizeUrl := (normalizeUrl toLowerCase URL_href_nohash).

(** The closure addToMap of mergeBookmarks. *)
Fixpoint addToMap (node : BookmarkNode) (targetMap : gmap string BookmarkNode)
  : gmap string BookmarkNode :=
  let targetMap1 :=
    match node_url node with
    | Some u => if truthy_string u
                then <[normalizeUrl u := node]> targetMap else targetMap
    | None => targetMap
    end in
  match node_children node with
  | Some cs => fold_left (fun m child => addToMap child m) cs targetMap1
  | None => targetMap1
  end.

(** The closure processSource of mergeBookmarks. *)
Fixpoint processSource (targetMap : gmap string BookmarkNode) (node : BookmarkNode)
    (st : MergeState) : MergeState :=
  let st1 :=
    match node_url node with
    | Some u =>
        if truthy_string u then
          let normalizedUrl := normalizeUrl u in
          if bool_decide (normalizedUrl ∈ processed st) then st
          else
            mkMergeState
              (match targetMap !! normalizedUrl with
               | Some _ => merged st
               | None => merged st ++ [node]
               end)
              ({[normalizedUrl]} ∪ processed st)
        else st
    | None => st
    end in
  match node_children node with
  | Some cs => fold_left (fun s child => processSource targetMap child s) cs st1
  | None => st1
  end.

(** mergeBookmarks(source, target, strategy) *)
Definition mergeBookmarks (source target : list BookmarkNode) (strategy : Strategy)
  : list BookmarkNode :=
  match strategy with
  | Replace => source
  | Skip => target
  | Merge =>
      let targetMap := fold_left (fun m node => addToMap node m) target ∅ in
      let st := fold_left (fun s node => processSource targetMap node s) source
                  (mkMergeState [] ∅) in
      merged st ++ target
  end.

(** The body of searchNode up to [results.push(node)]: does the node
    match? *)
Definition search_matches (lowerQuery : string) (options : SearchOptions)
    (node : BookmarkNode) : bool :=
  let matches := false in
  let matches :=
    if searchTitle options && includes (toLowerCase (node_title node)) lowerQuery
    then true else matches in
  let matches :=
    if negb matches && searchUrl options && has_url node
       && includes (toLowerCase (default "" (node_url node))) lowerQuery
    then true else matches in
  let matches :=
    if negb matches && searchTags options
       && match node_tags node with
          | Some tags => existsb (fun tag => includes (toLowerCase tag) lowerQuery) tags
          | None => false
          end
    then true else matches in
  matches.

(** The closure searchNode, threading the array [results]. *)
Fixpoint searchNode (lowerQuery : string) (options : SearchOptions)
    (node : BookmarkNode) (results : list BookmarkNode) : list BookmarkNode :=
  let results1 :=
    if search_matches lowerQuery options node then results ++ [node] else results in
  match node_children node with
  | Some cs => fold_left (fun r child => searchNode lowerQuery options child r) cs results1
  | None => results1
  end.

(** searchBookmarks(bookmarks, query, options) *)
Definition searchBookmarks (bookmarks : list BookmarkNode) (query : string)
    (options : SearchOptions) : list BookmarkNode :=
  let lowerQuery := toLowerCase query in
  fold_left (fun r node => searchNode lowerQuery options node r) bookmarks [].

End Platform.
End Organizing.

(* ===================================================================== *)
(** * Part II.  Theorems                                                  *)
(* ===================================================================== *)

(** ** Induction over bookmark trees *)

Section BookmarkNodeInd.
Variable P : BookmarkNode -> Prop.
Hypothesis Hnode :
  forall i t u d p cs st tg nt,
    Forall P (default [] cs) ->
    P (mkBookmarkNode i t u d p cs st tg nt).

Fixpoint BookmarkNode_ind (n : BookmarkNode) : P n :=
  match n with
  | mkBookmarkNode i t u d p cs st tg nt =>
      Hnode i t u d p cs st tg nt
        (match cs as o return Forall P (default [] o) with
         | None => @List.Forall_nil _ P
         | Some l =>
             (fix all (k : list BookmarkNode) : Forall P k :=
                match k with
                | [] => @List.Forall_nil _ P
                | x :: k' => @List.Forall_cons _ P x k' (BookmarkNode_ind x) (all k')
                end) l
         end)
  end.
End BookmarkNodeInd.

(** ** Substring search *)

Lemma append_cons a s t : String a s +:+ t = String a (s +:+ t).
Proof. reflexivity. Qed.

Lemma append_nil_l s : "" +:+ s = s.
Proof. reflexivity. Qed.

Lemma startsWith_spec s p :
  startsWith s p = true <-> exists post, s = p +:+ post.
Proof.
  revert s. induction p as [|a p IH]; intros s; cbn [startsWith].
  - split; [intros _; exists s; reflexivity | reflexivity].
  - destruct s as [|b s].
    + split; [discriminate | intros [post H]; discriminate].
    + destruct (decide (a = b)) as [->|Hne].
      * rewrite IH. split; intros [post H]; exists post;
          rewrite append_cons in *; congruence.
      * split; [discriminate | intros [post H]; rewrite append_cons in H; congruence].
Qed.

Lemma includes_spec s sub :
  includes s sub = true <-> exists pre post, s = pre +:+ sub +:+ post.
Proof.
  induction s as [|c s IH]; cbn [includes].
  - rewrite orb_false_r, startsWith_spec. split.
    + intros [post H]. exists "", post. exact H.
    + intros [pre [post H]]. destruct pre; [exists post; exact H | discriminate].
  - rewrite orb_true_iff, IH, startsWith_spec. split.
    + intros [[post H] | [pre [post H]]].
      * exists "", post. exact H.
      * exists (String c pre), post. rewrite append_cons. congruence.
    + intros [pre [post H]]. destruct pre as [|c' pre].
      * left. exists post. exact H.
      * right. exists pre, post. rewrite append_cons in H. congruence.
Qed.

(** ** removeDuplicates *)

Module ImportExportFacts.
Import ImportExport.

Lemma has_url_with_children c n : has_url (with_children c n) = has_url n.
Proof. reflexivity. Qed.

Lemma with_children_twice c c' n :
  with_children c (with_children c' n) = with_children c n.
Proof. reflexivity. Qed.

Lemma leaf_urls_eq n :
  leaf_urls n =
  if has_url n then [default "" (node_url n)]
  else match node_children n with
       | Some cs => flat_map leaf_urls cs
       | None => []
       end.
Proof. destruct n; reflexivity. Qed.

Lemma folders_only_eq n :
  folders_only n =
  if has_url n then None
  else Some (with_children
               (match node_children n with
                | Some cs => Some (omap folders_only cs)
                | None => None
                end) n).
Proof. destruct n; reflexivity. Qed.

Lemma processNode_eq node parentId s :
  processNode node parentId s =
  if has_url node then
    let url := default "" (node_url node) in
    if bool_decide (url ∈ seenUrls s) then (None, s)
    else
      let s1 := mkSeen ({[url]} ∪ seenUrls s) (seenTitles s) in
      let titleKey :=
        match parentId with
        | Some pid => if truthy_string pid
                      then pid +:+ ":" +:+ node_title node else node_title node
        | None => node_title node
        end in
      match seenTitles s1 !! titleKey with
      | Some _ => (None, s1)
      | None =>
          (Some node, mkSeen (seenUrls s1) (<[titleKey := node]> (seenTitles s1)))
      end
  else
    match node_children node with
    | Some (c :: cs) =>
        let '(cleanedChildren, s') :=
          map_filter (fun child => processNode child (Some (node_id node)))
                     (c :: cs) s in
        (Some (with_children (Some cleanedChildren) node), s')
    | _ => (Some node, s)
    end.
Proof. destruct node; reflexivity. Qed.

Lemma map_filter_cons {S A B : Type} (f : A -> S -> option B * S) x r s :
  map_filter f (x :: r) s =
  let '(o, s1) := f x s in
  let '(rest, s2) := map_filter f r s1 in
  (match o with Some y => y :: rest | None => rest end, s2).
Proof. reflexivity. Qed.

(** *** Each URL at most once *)

(** [fresh s us s']: going from [s] to [s'] the URLs [us], pairwise
    distinct and none of them seen before, have been recorded. *)
Definition fresh (s : Seen) (us : list string) (s' : Seen) : Prop :=
  (seenUrls s ⊆ seenUrls s') /\ NoDup us /\
  forall u, u ∈ us -> (u ∉ seenUrls s) /\ (u ∈ seenUrls s').

Lemma fresh_nil s : fresh s [] s.
Proof. split; [set_solver | split; [constructor | set_solver]]. Qed.

Lemma fresh_app s us1 s1 us2 s2 :
  fresh s us1 s1 -> fresh s1 us2 s2 -> fresh s (us1 ++ us2) s2.
Proof.
  intros (Hsub1 & Hnd1 & Hfr1) (Hsub2 & Hnd2 & Hfr2).
  split; [etransitivity; eassumption | split].
  - apply NoDup_app. split; [exact Hnd1 | split; [|exact Hnd2]].
    intros u Hu1 Hu2.
    destruct (Hfr1 u Hu1) as [_ Hin]. destruct (Hfr2 u Hu2) as [Hnot _].
    contradiction.
  - intros u Hu. apply elem_of_app in Hu as [Hu | Hu].
    + destruct (Hfr1 u Hu) as [Hold Hnew].
      split; [assumption | apply Hsub2; assumption].
    + destruct (Hfr2 u Hu) as [Hold Hnew].
      split; [|assumption]. intros Hs. apply Hold. apply Hsub1. exact Hs.
Qed.

Definition urls_of_result (o : option BookmarkNode) : list string :=
  match o with Some n => leaf_urls n | None => [] end.

Lemma map_filter_fresh (pid : option string) l :
  Forall (fun x => forall pid s o s',
            processNode x pid s = (o, s') -> fresh s (urls_of_result o) s') l ->
  forall s out s',
    map_filter (fun child => processNode child pid) l s = (out, s') ->
    fresh s (flat_map leaf_urls out) s'.
Proof.
  induction 1 as [|x r Hx _ IH]; intros s out s' E.
  - injection E as <- <-. apply fresh_nil.
  - rewrite map_filter_cons in E.
    destruct (processNode x pid s) as [o s1] eqn:E1.
    destruct (map_filter _ r s1) as [rest s2] eqn:E2.
    injection E as <- <-.
    specialize (Hx _ _ _ _ E1). specialize (IH _ _ _ E2).
    destruct o as [y|]; cbn [urls_of_result flat_map] in *.
    + eapply fresh_app; eassumption.
    + change (flat_map leaf_urls rest) with ([] ++ flat_map leaf_urls rest).
      eapply fresh_app; eassumption.
Qed.

Lemma processNode_fresh n :
  forall pid s o s',
    processNode n pid s = (o, s') -> fresh s (urls_of_result o) s'.
Proof.
  induction n as [i t u d p cs st tg nt IH] using BookmarkNode_ind.
  intros pid s o s'. rewrite processNode_eq.
  set (n := mkBookmarkNode i t u d p cs st tg nt).
  destruct (has_url n) eqn:Hurl.
  - cbv zeta. case_bool_decide as Hseen.
    { intros E. injection E as <- <-. apply fresh_nil. }
    match goal with |- context [seenTitles ?s1 !! ?k] =>
      destruct (seenTitles s1 !! k) end.
    + intros E. injection E as <- <-.
      split; [cbn; set_solver | split; [constructor | intros ? H; inversion H]].
    + intros E. injection E as <- <-. cbn [urls_of_result].
      rewrite leaf_urls_eq, Hurl.
      split; [cbn; set_solver | split].
      * apply NoDup_singleton.
      * intros v Hv. apply list_elem_of_singleton in Hv as ->. cbn. set_solver.
  - change (node_children n) with cs. change (node_id n) with i.
    destruct cs as [[|c cs]|].
    + intros E. injection E as <- <-. cbn [urls_of_result].
      rewrite leaf_urls_eq, Hurl. apply fresh_nil.
    + destruct (map_filter _ (c :: cs) s) as [cleaned s2] eqn:E2.
      intros E. injection E as <- <-. cbn [urls_of_result].
      rewrite leaf_urls_eq, has_url_with_children, Hurl.
      cbn [node_children with_children].
      eapply map_filter_fresh; [exact IH | exact E2].
    + intros E. injection E as <- <-. cbn [urls_of_result].
      rewrite leaf_urls_eq, Hurl. apply fresh_nil.
Qed.

(** *** Folders are kept *)

Lemma map_filter_folders (pid : option string) l :
  Forall (fun x => forall pid s,
            fst (processNode x pid s) ≫= folders_only = folders_only x) l ->
  forall s,
    omap folders_only (fst (map_filter (fun child => processNode child pid) l s))
    = omap folders_only l.
Proof.
  induction 1 as [|x r Hx _ IH]; intros s; [reflexivity|].
  rewrite map_filter_cons.
  specialize (Hx pid s). specialize (IH (snd (processNode x pid s))).
  destruct (processNode x pid s) as [o s1]. cbn [fst snd] in *.
  destruct (map_filter _ r s1) as [rest s2]. cbn [fst] in *.
  cbn [omap list_omap]. rewrite <- Hx, <- IH.
  destruct o as [y|]; reflexivity.
Qed.

Lemma processNode_folders n :
  forall pid s, fst (processNode n pid s) ≫= folders_only = folders_only n.
Proof.
  induction n as [i t u d p cs st tg nt IH] using BookmarkNode_ind.
  intros pid s. rewrite processNode_eq.
  set (n := mkBookmarkNode i t u d p cs st tg nt).
  rewrite (folders_only_eq n).
  destruct (has_url n) eqn:Hurl.
  - cbv zeta. case_bool_decide; [reflexivity|].
    match goal with |- context [seenTitles ?s1 !! ?k] =>
      destruct (seenTitles s1 !! k) end; [reflexivity|].
    cbn [fst mbind option_bind]. rewrite folders_only_eq, Hurl. reflexivity.
  - change (node_children n) with cs. change (node_id n) with i.
    destruct cs as [[|c cs]|].
    + cbn [fst mbind option_bind]. rewrite folders_only_eq, Hurl. reflexivity.
    + pose proof (map_filter_folders (Some i) (c :: cs) IH s) as Hcs.
      destruct (map_filter _ (c :: cs) s) as [cleaned s2].
      cbn [fst] in *. cbn [mbind option_bind].
      rewrite folders_only_eq, has_url_with_children, Hurl.
      cbn [node_children with_children]. rewrite Hcs. reflexivity.
    + cbn [fst mbind option_bind]. rewrite folders_only_eq, Hurl. reflexivity.
Qed.

(** *** The same, over all nodes of a forest that satisfies the invariant
    of the data model *)

Lemma omap_flat_map {A B C : Type} (f : B -> option C) (g : A -> list B) l :
  omap f (flat_map g l) = flat_map (fun x => omap f (g x)) l.
Proof.
  induction l as [|x l IH]; cbn; [reflexivity|].
  rewrite omap_app, IH. reflexivity.
Qed.

Lemma filter_flat_map {A B : Type} (p : B -> bool) (g : A -> list B) l :
  List.filter p (flat_map g l) = flat_map (fun x => List.filter p (g x)) l.
Proof.
  induction l as [|x l IH]; cbn; [reflexivity|].
  rewrite List.filter_app, IH. reflexivity.
Qed.

Lemma flat_map_ext_Forall {A B : Type} (f g : A -> list B) l :
  Forall (fun x => f x = g x) l -> flat_map f l = flat_map g l.
Proof. induction 1 as [|x l Hx _ IH]; cbn; congruence. Qed.

Lemma nodes_of_eq n :
  nodes_of n = n :: match node_children n with
                    | Some cs => flat_map nodes_of cs
                    | None => []
                    end.
Proof. destruct n; reflexivity. Qed.

Lemma Forall_flat_map {A B : Type} (P : B -> Prop) (f : A -> list B) l :
  Forall P (flat_map f l) <-> Forall (fun x => Forall P (f x)) l.
Proof.
  induction l as [|x l IH]; cbn.
  - split; constructor.
  - rewrite Forall_app, IH, Forall_cons. reflexivity.
Qed.

Definition url_if (n : BookmarkNode) : option string :=
  if has_url n then node_url n else None.

(** Under the invariant the leaves are all the nodes with a URL. *)
Lemma leaf_urls_all n :
  Forall leafy (nodes_of n) -> leaf_urls n = omap url_if (nodes_of n).
Proof.
  induction n as [i t u d p cs st tg nt IH] using BookmarkNode_ind.
  set (n := mkBookmarkNode i t u d p cs st tg nt).
  rewrite leaf_urls_eq, nodes_of_eq. change (node_children n) with cs.
  intros Hall. apply Forall_cons in Hall as [Hn Hkids].
  cbn [omap list_omap]. unfold url_if at 1.
  destruct (has_url n) eqn:Hurl.
  - specialize (Hn Hurl). change (node_children n) with cs in Hn.
    unfold has_url in Hurl. change (node_url n) with u in *.
    destruct u as [u|]; [|discriminate].
    destruct cs as [cs|]; cbn in Hn; [subst cs|]; reflexivity.
  - destruct cs as [cs|]; [|reflexivity]. cbn [default] in IH.
    rewrite omap_flat_map. apply flat_map_ext_Forall.
    apply Forall_flat_map in Hkids.
    rewrite Forall_forall in IH, Hkids. apply Forall_forall.
    intros x Hx. apply IH; [exact Hx | apply Hkids; exact Hx].
Qed.

Lemma leaf_urls_all_forest forest :
  leaf_invariant forest -> flat_map leaf_urls forest = all_urls forest.
Proof.
  unfold leaf_invariant, all_urls, forest_nodes. intros Hinv.
  rewrite omap_flat_map. apply flat_map_ext_Forall.
  apply Forall_flat_map in Hinv.
  eapply Forall_impl; [exact Hinv|]. intros x Hx. apply leaf_urls_all. exact Hx.
Qed.

Definition nodes_of_skeleton (o : option BookmarkNode) : list BookmarkNode :=
  match o with Some k => nodes_of k | None => [] end.

Lemma flat_map_omap {A B C : Type} (f : A -> option B) (g : B -> list C) l :
  flat_map g (omap f l) =
  flat_map (fun x => match f x with Some y => g y | None => [] end) l.
Proof.
  induction l as [|x l IH]; cbn; [reflexivity|].
  destruct (f x); cbn; rewrite IH; reflexivity.
Qed.

(** Under the invariant the folders are the nodes of the folder structure. *)
Lemma folders_via_skeleton n :
  Forall leafy (nodes_of n) ->
  map (with_children None) (List.filter (fun m => negb (has_url m)) (nodes_of n))
  = map (with_children None) (nodes_of_skeleton (folders_only n)).
Proof.
  induction n as [i t u d p cs st tg nt IH] using BookmarkNode_ind.
  set (n := mkBookmarkNode i t u d p cs st tg nt).
  rewrite folders_only_eq, nodes_of_eq. change (node_children n) with cs.
  intros Hall. apply Forall_cons in Hall as [Hn Hkids].
  cbn [List.filter]. destruct (has_url n) eqn:Hurl; cbn [negb nodes_of_skeleton].
  - specialize (Hn Hurl). change (node_children n) with cs in Hn.
    destruct cs as [cs|]; cbn in Hn; [subst cs|]; reflexivity.
  - rewrite nodes_of_eq. cbn [map node_children with_children].
    f_equal. destruct cs as [cs|]; [|reflexivity]. cbn [default] in IH.
    rewrite filter_flat_map, flat_map_omap, !flat_map_concat_map,
      !concat_map, !map_map. f_equal.
    apply map_ext_Forall. apply Forall_flat_map in Hkids.
    rewrite Forall_forall in IH, Hkids. apply Forall_forall.
    intros x Hx. apply IH; [exact Hx | apply Hkids; exact Hx].
Qed.

Lemma all_folders_skeleton forest :
  leaf_invariant forest ->
  all_folders forest
  = map (with_children None) (forest_nodes (omap folders_only forest)).
Proof.
  unfold leaf_invariant, all_folders, forest_nodes. intros Hinv.
  rewrite filter_flat_map, flat_map_omap, !flat_map_concat_map,
    !concat_map, !map_map. f_equal.
  apply map_ext_Forall. apply Forall_flat_map in Hinv.
  eapply Forall_impl; [exact Hinv|]. intros x Hx.
  apply folders_via_skeleton. exact Hx.
Qed.

(** removeDuplicates keeps the invariant. *)
Lemma map_filter_leafy (pid : option string) l :
  Forall (fun x => forall pid s n',
            fst (processNode x pid s) = Some n' ->
            Forall leafy (nodes_of x) -> Forall leafy (nodes_of n')) l ->
  forall s,
    Forall leafy (flat_map nodes_of l) ->
    Forall leafy
      (flat_map nodes_of (fst (map_filter (fun c => processNode c pid) l s))).
Proof.
  induction 1 as [|x r Hx _ IH]; intros s Hall; [constructor|].
  rewrite map_filter_cons. cbn [flat_map] in Hall.
  apply Forall_app in Hall as [Hhead Htail].
  specialize (Hx pid s). specialize (IH (snd (processNode x pid s)) Htail).
  destruct (processNode x pid s) as [o s1]. cbn [fst snd] in *.
  destruct (map_filter _ r s1) as [rest s2]. cbn [fst] in *.
  destruct o as [y|]; [|exact IH].
  cbn [flat_map]. apply Forall_app. split; [|exact IH].
  apply Hx; [reflexivity | exact Hhead].
Qed.

Lemma processNode_leafy n :
  forall pid s n',
    fst (processNode n pid s) = Some n' ->
    Forall leafy (nodes_of n) -> Forall leafy (nodes_of n').
Proof.
  induction n as [i t u d p cs st tg nt IH] using BookmarkNode_ind.
  intros pid s n'. rewrite processNode_eq.
  set (n := mkBookmarkNode i t u d p cs st tg nt).
  destruct (has_url n) eqn:Hurl.
  - cbv zeta. case_bool_decide; [discriminate|].
    match goal with |- context [seenTitles ?s1 !! ?k] =>
      destruct (seenTitles s1 !! k) end; [discriminate|].
    cbn [fst]. intros E. injection E as <-. exact (fun H => H).
  - change (node_children n) with cs. change (node_id n) with i.
    destruct cs as [[|c cs]|];
      try (cbn [fst]; intros E; injection E as <-; exact (fun H => H)).
    pose proof (map_filter_leafy (Some i) (c :: cs) IH s) as Hkids.
    destruct (map_filter _ (c :: cs) s) as [cleaned s2]. cbn [fst] in *.
    intros E. injection E as <-. intros Hall.
    rewrite nodes_of_eq in Hall. change (node_children n) with (Some (c :: cs)) in Hall.
    apply Forall_cons in Hall as [Hn Hrest].
    rewrite nodes_of_eq. cbn [node_children with_children].
    apply Forall_cons. split.
    + intros H. rewrite has_url_with_children, Hurl in H. discriminate.
    + apply Hkids. exact Hrest.
Qed.

Lemma removeDuplicates_leaf_invariant bookmarks :
  leaf_invariant bookmarks -> leaf_invariant (removeDuplicates bookmarks).
Proof.
  unfold leaf_invariant, forest_nodes, removeDuplicates.
  apply map_filter_leafy. apply Forall_forall. intros x _. apply processNode_leafy.
Qed.

(** C9.  In the forest returned by removeDuplicates no URL occurs twice
    among the bookmark leaves, and the folder structure of the input is
    intact: every folder is still there, at its place and with its own
    fields, also when all its bookmarks were dropped.  When the input
    satisfies the invariant of the data model (a node with a URL has no
    children) this reads: no URL occurs at two nodes of the output, and the
    folder nodes of the output are those of the input. *)
Theorem C9_removeDuplicates (bookmarks : list BookmarkNode) :
  NoDup (flat_map leaf_urls (removeDuplicates bookmarks)) /\
  omap folders_only (removeDuplicates bookmarks) = omap folders_only bookmarks /\
  (leaf_invariant bookmarks ->
   NoDup (all_urls (removeDuplicates bookmarks)) /\
   all_folders (removeDuplicates bookmarks) = all_folders bookmarks).
Proof.
  assert (Hurls : NoDup (flat_map leaf_urls (removeDuplicates bookmarks))).
  { unfold removeDuplicates.
    destruct (map_filter _ bookmarks no_seen) as [out s'] eqn:E. cbn [fst].
    apply (map_filter_fresh None bookmarks) in E.
    - destruct E as (_ & Hnd & _). exact Hnd.
    - apply Forall_forall. intros x _. apply processNode_fresh. }
  assert (Hfolders : omap folders_only (removeDuplicates bookmarks)
                     = omap folders_only bookmarks).
  { unfold removeDuplicates. apply map_filter_folders.
    apply Forall_forall. intros x _. apply processNode_folders. }
  split; [exact Hurls | split; [exact Hfolders |]].
  intros Hinv. pose proof (removeDuplicates_leaf_invariant bookmarks Hinv) as Hout.
  split.
  - rewrite <- leaf_urls_all_forest by exact Hout. exact Hurls.
  - rewrite !all_folders_skeleton by assumption. rewrite Hfolders. reflexivity.
Qed.

(** A forest with a repeated URL and a folder that only holds a duplicate. *)
Definition forest_with_duplicates : list BookmarkNode :=
  [ bookmark "1" "Home" "https://example.org/";
    folder "2" "Work"
      [ bookmark "3" "Home again" "https://example.org/" ];
    folder "4" "Play"
      [ bookmark "5" "Game" "https://game.example/";
        bookmark "6" "Game" "https://other.example/" ] ].

Lemma C9_witness :
  removeDuplicates forest_with_duplicates
  = [ bookmark "1" "Home" "https://example.org/";
      folder "2" "Work" [];
      folder "4" "Play" [ bookmark "5" "Game" "https://game.example/" ] ] /\
  NoDup (all_urls (removeDuplicates forest_with_duplicates)) /\
  all_folders (removeDuplicates forest_with_duplicates)
  = all_folders forest_with_duplicates.
Proof.
  split; [vm_compute; reflexivity|].
  apply (C9_removeDuplicates forest_with_duplicates).
  unfold leaf_invariant. cbn.
  repeat (constructor; [intros H; first [reflexivity | discriminate H] |]).
  constructor.
Defined.

(** *** JSON export and import *)

Import Json.

Lemma traverse_map {A B : Type} (f : A -> option B) (g : B -> A) l :
  Forall (fun y => f (g y) = Some y) l -> traverse f (map g l) = Some l.
Proof.
  induction 1 as [|y l Hy _ IH]; cbn; [reflexivity|].
  rewrite Hy, IH. reflexivity.
Qed.

Lemma status_of_to_string st : status_of_string (status_to_string st) = Some st.
Proof. destruct st; reflexivity. Qed.

Lemma dec_strings_map l : dec_strings (JArr (map JStr l)) = Some l.
Proof.
  unfold dec_strings. apply traverse_map. apply Forall_forall. reflexivity.
Qed.

Lemma node_to_json_eq n :
  node_to_json n =
  JObj ([("id", JStr (node_id n)); ("title", JStr (node_title n))]
        ++ opt_field "url" JStr (node_url n)
        ++ opt_field "dateAdded" JNum (node_dateAdded n)
        ++ opt_field "parentId" JStr (node_parentId n)
        ++ opt_field "children" (fun cs => JArr (map node_to_json cs))
             (node_children n)
        ++ opt_field "status" (fun st => JStr (status_to_string st)) (node_status n)
        ++ opt_field "tags" (fun l => JArr (map JStr l)) (node_tags n)
        ++ opt_field "notes" JStr (node_notes n)).
Proof. destruct n; reflexivity. Qed.

Lemma node_of_json_obj fields :
  node_of_json (JObj fields) =
  match jfind "id" dec_string fields, jfind "title" dec_string fields,
        dec_opt (jfind "url" dec_string fields),
        dec_opt (jfind "dateAdded" dec_number fields),
        dec_opt (jfind "parentId" dec_string fields),
        dec_opt (jfind "children"
                   (fun v => match v with
                             | JArr items => traverse node_of_json items
                             | _ => None
                             end) fields),
        dec_opt (jfind "status" dec_status fields),
        dec_opt (jfind "tags" dec_strings fields),
        dec_opt (jfind "notes" dec_string fields)
  with
  | Some (Some i), Some (Some t), Some u, Some d, Some p, Some cs,
    Some st, Some tg, Some nt =>
      Some (mkBookmarkNode i t u d p cs st tg nt)
  | _, _, _, _, _, _, _, _, _ => None
  end.
Proof. reflexivity. Qed.

(** Reading back the object written for a node gives the node. *)
Lemma node_of_to_json n : node_of_json (node_to_json n) = Some n.
Proof.
  induction n as [i t u d p cs st tg nt IH] using BookmarkNode_ind.
  rewrite node_to_json_eq, node_of_json_obj.
  cbn [node_id node_title node_url node_dateAdded node_parentId node_children
       node_status node_tags node_notes].
  assert (Hcs : forall l, cs = Some l ->
                  traverse node_of_json (map node_to_json l) = Some l).
  { intros l ->. apply traverse_map. exact IH. }
  clear IH.
  destruct u, d, p, st, tg as [tags|], nt, cs as [kids|];
    cbn [opt_field app jfind String.eqb Ascii.eqb Bool.eqb dec_opt
         dec_string dec_number dec_status];
    rewrite ?status_of_to_string, ?dec_strings_map;
    try rewrite (Hcs kids eq_refl);
    reflexivity.
Qed.

Lemma filter_map_list_id {A : Type} (p : A -> bool) (f : A -> A) l :
  Forall (fun x => p x = true /\ f x = x) l -> filter_map_list p f l = l.
Proof.
  induction 1 as [|x l [Hp Hf] _ IH]; cbn; [reflexivity|].
  rewrite Hp, Hf, IH. reflexivity.
Qed.

Lemma keep_all options n :
  selectedFolders options = None -> includeBroken options <> Some false ->
  keep options n = true.
Proof.
  intros Hsel Hbroken. unfold keep. rewrite Hsel.
  rewrite bool_decide_eq_false_2 by exact Hbroken. reflexivity.
Qed.

Lemma filterNode_eq options n :
  filterNode options n =
  with_children
    (match node_children n with
     | Some cs => Some (filter_map_list (keep options) (filterNode options) cs)
     | None => None
     end) n.
Proof. destruct n; reflexivity. Qed.

Lemma filterNode_id options n :
  selectedFolders options = None -> includeBroken options <> Some false ->
  filterNode options n = n.
Proof.
  intros Hsel Hbroken.
  induction n as [i t u d p cs st tg nt IH] using BookmarkNode_ind.
  rewrite filterNode_eq. cbn [node_children]. destruct cs as [cs|]; [|reflexivity].
  cbn [default] in IH. rewrite filter_map_list_id; [reflexivity|].
  eapply Forall_impl; [exact IH|]. intros x Hx. split; [|exact Hx].
  apply keep_all; assumption.
Qed.

Lemma filterTree_id options nodes :
  selectedFolders options = None -> includeBroken options <> Some false ->
  filterTree options nodes = nodes.
Proof.
  intros Hsel Hbroken. unfold filterTree. apply filter_map_list_id.
  apply Forall_forall. intros x _. split.
  - apply keep_all; assumption.
  - apply filterNode_id; assumption.
Qed.

Section Roundtrip.
Variable JSON_stringify : json -> string.
Variable JSON_parse : string -> option json.
Variable stamp : nat -> string.

Local Abbreviation addIds := (addIds stamp).
Local Abbreviation importFromJSON := (importFromJSON JSON_parse stamp).
Local Abbreviation exportToJSON := (exportToJSON JSON_stringify).

Definition has_id (n : BookmarkNode) : Prop := truthy_string (node_id n) = true.

Lemma addIds_eq node parentId k :
  addIds node parentId k =
  let '(id, k1) :=
    if truthy_string (node_id node) then (node_id node, k)
    else (generateId stamp k, S k) in
  let '(children, k2) :=
    match node_children node with
    | Some cs =>
        let '(cs', k') :=
          map_state (fun child => addIds child (Some (node_id node))) cs k1 in
        (Some cs', k')
    | None => (None, k1)
    end in
  (mkBookmarkNode id (node_title node) (node_url node) (node_dateAdded node)
     parentId children (node_status node) (node_tags node) (node_notes node),
   k2).
Proof. destruct node; reflexivity. Qed.

Lemma reparent_eq parentId n :
  reparent parentId n =
  mkBookmarkNode (node_id n) (node_title n) (node_url n) (node_dateAdded n)
    parentId
    (match node_children n with
     | Some cs => Some (map (reparent (Some (node_id n))) cs)
     | None => None
     end)
    (node_status n) (node_tags n) (node_notes n).
Proof. destruct n; reflexivity. Qed.

Lemma map_state_reparent pid cs :
  Forall (fun x => forall p k, addIds x p k = (reparent p x, k)) cs ->
  forall k, map_state (fun child => addIds child pid) cs k
            = (map (reparent pid) cs, k).
Proof.
  induction 1 as [|x l Hx _ IH]; intros k; cbn; [reflexivity|].
  rewrite Hx, IH. reflexivity.
Qed.

(** When every id of the tree is present, addIds never calls generateId
    and only rewrites the parentId fields. *)
Lemma addIds_reparent n :
  Forall has_id (nodes_of n) ->
  forall p k, addIds n p k = (reparent p n, k).
Proof.
  induction n as [i t u d q cs st tg nt IH] using BookmarkNode_ind.
  rewrite nodes_of_eq. cbn [node_children]. intros Hids p k.
  apply Forall_cons in Hids as [Hid Hkids]. unfold has_id in Hid. cbn in Hid.
  rewrite addIds_eq, reparent_eq. cbn [node_id node_children]. rewrite Hid.
  destruct cs as [cs|]; [|reflexivity].
  cbn [default] in IH. rewrite map_state_reparent; [reflexivity|].
  apply Forall_flat_map in Hkids.
  apply Forall_forall. intros x Hx.
  rewrite Forall_forall in IH, Hkids. apply IH; [exact Hx|]. apply Hkids. exact Hx.
Qed.

Lemma core_eq n :
  core n = mkCore (node_id n) (node_title n) (node_url n)
             (match node_children n with
              | Some cs => Some (map core cs)
              | None => None
              end).
Proof. destruct n; reflexivity. Qed.

Lemma core_reparent n : forall p, core (reparent p n) = core n.
Proof.
  induction n as [i t u d q cs st tg nt IH] using BookmarkNode_ind.
  intros p. rewrite reparent_eq, !core_eq. cbn [node_id node_title node_url node_children].
  destruct cs as [cs|]; [|reflexivity].
  cbn [default] in IH. f_equal. f_equal. rewrite map_map.
  apply map_ext_Forall. eapply Forall_impl; [exact IH|]. intros x Hx. apply Hx.
Qed.

(** C3 (as amended).  For every bookmark tree all of whose nodes carry a
    non-empty id: exporting with exportToJSON (no folder selection, broken
    links included) and importing the text with importFromJSON succeeds
    and returns a tree with the same id, title and url at every node and
    the same children structure; the import only rewrites the parentId
    fields.  JSON.stringify and JSON.parse are any pair of functions that
    reads back the exported document. *)
Theorem C3_json_roundtrip (exportDate : string) (tree : list BookmarkNode)
    (options : ExportOptions) :
  selectedFolders options = None ->
  includeBroken options <> Some false ->
  Forall has_id (forest_nodes tree) ->
  JSON_parse (JSON_stringify (export_document exportDate tree options))
    = Some (export_document exportDate tree options) ->
  importFromJSON (exportToJSON exportDate tree options)
    = Imported (map (reparent None) tree) /\
  map core (map (reparent None) tree) = map core tree.
Proof.
  intros Hsel Hbroken Hids Hjson. split.
  - unfold ImportExport.importFromJSON, ImportExport.exportToJSON.
    rewrite Hjson. unfold export_document.
    rewrite filterTree_id by assumption.
    cbn [jlookup String.eqb Ascii.eqb Bool.eqb].
    rewrite traverse_map by (apply Forall_forall; intros; apply node_of_to_json).
    rewrite map_state_reparent; [reflexivity|].
    apply Forall_flat_map in Hids.
    eapply Forall_impl; [exact Hids|]. intros x Hx. apply addIds_reparent. exact Hx.
  - rewrite map_map. apply map_ext. intros x. apply core_reparent.
Qed.

End Roundtrip.

(** The readings used in the evaluations below. *)
Definition stamp_ref (k : nat) : string := "1700000000000_r" +:+ pretty k.
Definition export_date : string := "2024-01-01T00:00:00.000Z".

Definition small_tree : list BookmarkNode :=
  [ folder "1" "Bookmarks bar"
      [ bookmark "5" "News" "https://example.org/news?id=1";
        folder "6" "Empty" [];
        mkBookmarkNode "7" "Docs" (Some "https://example.org/docs") (Some 1700000000000%Z)
          (Some "1") None (Some NSBroken) (Some ["work"; "read later"]) (Some "check") ] ].

Lemma C3_witness :
  importFromJSON json_parse stamp_ref
    (exportToJSON json_print export_date small_tree default_options)
  = Imported (map (reparent None) small_tree) /\
  map core (map (reparent None) small_tree) = map core small_tree.
Proof.
  apply (C3_json_roundtrip json_print json_parse stamp_ref export_date
           small_tree default_options).
  - reflexivity.
  - discriminate.
  - repeat constructor.
  - vm_compute. reflexivity.
Defined.

(** C3 (as stated) fails: a node whose id is the empty string comes back
    with a freshly generated id, although the exported text itself is read
    back exactly. *)
Lemma C3_counterexample :
  let tree := [ bookmark "" "Example" "https://example.com/" ] in
  let text := exportToJSON json_print export_date tree default_options in
  json_parse text = Some (export_document export_date tree default_options) /\
  importFromJSON json_parse stamp_ref text
  = Imported [ mkBookmarkNode "bk_1700000000000_r0" "Example"
                 (Some "https://example.com/") None None None None None None ] /\
  map node_id [ mkBookmarkNode "bk_1700000000000_r0" "Example"
                  (Some "https://example.com/") None None None None None None ]
  <> map node_id tree.
Proof.
  cbv zeta. split; [|split].
  - vm_compute. reflexivity.
  - vm_compute. reflexivity.
  - discriminate.
Qed.

End ImportExportFacts.

(** ** Cloud sync *)

Module CloudSyncFacts.
Import Json JsValue CloudSync CloudSyncValues.

Lemma user_of_to_json u : user_of_json (user_to_json u) = Some u.
Proof. destruct u as [i e n [a|] c l s]; reflexivity. Qed.

(** Setting the last sync time on the document of a user record gives the
    document of the updated record. *)
Lemma assign_lastSyncTime_user t u :
  assign_lastSyncTime t (user_to_json u) = Some (user_to_json (set_lastSyncTime t u)).
Proof. destruct u as [i e n [a|] c l s]; reflexivity. Qed.

Section Guard.
Variable JSON_stringify : json -> string.
Variable JSON_parse : string -> option json.

Local Abbreviation getCurrentUser := (getCurrentUser JSON_parse).
Local Abbreviation isLoggedIn := (isLoggedIn JSON_parse).
Local Abbreviation uploadBookmarks := (uploadBookmarks JSON_stringify JSON_parse).
Local Abbreviation downloadBookmarks := (downloadBookmarks JSON_parse).
Local Abbreviation syncBookmarks := (syncBookmarks JSON_stringify JSON_parse).

(** "There is no current user in storage": the key is not there, or its
    text is empty, does not parse, or is the text of [null]. *)
Definition no_current_user (st : gmap string string) : Prop :=
  match st !! STORAGE_KEY_USER with
  | None => True
  | Some text =>
      text = EmptyString \/ JSON_parse text = None \/ JSON_parse text = Some JNull
  end.

(** "The user [u] is logged in": the key holds the document of [u]. *)
Definition holds_user (st : gmap string string) (u : User) : Prop :=
  exists text, st !! STORAGE_KEY_USER = Some text /\
    truthy_string text = true /\ JSON_parse text = Some (user_to_json u).

(** The key holds [false], [0] or ['']: a value that is not [null] and
    that [if (user)] nevertheless takes for no user. *)
Definition holds_falsy (st : gmap string string) : Prop :=
  exists text v, st !! STORAGE_KEY_USER = Some text /\
    truthy_string text = true /\ JSON_parse text = Some v /\
    v <> JNull /\ truthy_value v = false.

(** The platform reads back the user record that uploadBookmarks writes. *)
Definition reads_back_user (now2 : Z) (st : gmap string string) : Prop :=
  forall u, holds_user st u ->
    let text := JSON_stringify (user_to_json (set_lastSyncTime now2 u)) in
    truthy_string text = true /\
    JSON_parse text = Some (user_to_json (set_lastSyncTime now2 u)).

Lemma no_current_user_null st : no_current_user st <-> getCurrentUser st = JNull.
Proof.
  unfold no_current_user, CloudSyncValues.getCurrentUser.
  destruct (st !! STORAGE_KEY_USER) as [text|]; [|tauto].
  destruct text as [|a s]; cbn [truthy_string]; [tauto|].
  destruct (JSON_parse (String a s)) as [v|].
  - split.
    + intros [H | [H | H]]; [discriminate | discriminate | congruence].
    + intros ->. auto.
  - tauto.
Qed.

Lemma isLoggedIn_spec st : isLoggedIn st = false <-> no_current_user st.
Proof.
  rewrite no_current_user_null. unfold CloudSyncValues.isLoggedIn.
  destruct (getCurrentUser st); split; intros H; try reflexivity; discriminate H.
Qed.

Lemma holds_user_value st u : holds_user st u -> getCurrentUser st = user_to_json u.
Proof.
  intros (text & H1 & H2 & H3). unfold CloudSyncValues.getCurrentUser.
  rewrite H1, H2, H3. reflexivity.
Qed.

Lemma holds_falsy_value st :
  holds_falsy st <-> getCurrentUser st <> JNull /\ truthy_value (getCurrentUser st) = false.
Proof.
  unfold holds_falsy, CloudSyncValues.getCurrentUser. split.
  - intros (text & v & H1 & H2 & H3 & H4 & H5). rewrite H1, H2, H3. auto.
  - destruct (st !! STORAGE_KEY_USER) as [text|]; [|intros [H _]; contradiction].
    destruct (truthy_string text) eqn:Ht; [|intros [H _]; contradiction].
    destruct (JSON_parse text) as [v|] eqn:Hp; [|intros [H _]; contradiction].
    intros [H1 H2]. exists text, v. auto.
Qed.

Lemma user_value_truthy u : truthy_value (user_to_json u) = true.
Proof. reflexivity. Qed.

(** The guard [if (!user)] of the three operations, on any storage. *)
Lemma upload_guard bookmarks now1 now2 st :
  fst (uploadBookmarks bookmarks now1 now2 st) = Thrown ENotLoggedIn
  <-> truthy_value (getCurrentUser st) = false.
Proof.
  unfold CloudSyncValues.uploadBookmarks.
  destruct (truthy_value (getCurrentUser st)); cbn [negb fst].
  - destruct (assign_lastSyncTime now2 (getCurrentUser st)); cbn [fst];
      split; intros H; discriminate H.
  - split; reflexivity.
Qed.

Lemma download_guard st :
  downloadBookmarks st = Thrown ENotLoggedIn
  <-> truthy_value (getCurrentUser st) = false.
Proof.
  unfold CloudSyncValues.downloadBookmarks.
  destruct (truthy_value (getCurrentUser st)); cbn [negb].
  - destruct (st !! STORAGE_KEY_SYNC_DATA) as [text|];
      [|split; intros H; discriminate H].
    destruct (truthy_string text); [|split; intros H; discriminate H].
    destruct (JSON_parse text) as [[]|]; split; intros H; discriminate H.
  - split; reflexivity.
Qed.

Lemma guard_unchanged bookmarks now1 now2 st :
  truthy_value (getCurrentUser st) = false ->
  uploadBookmarks bookmarks now1 now2 st = (Thrown ENotLoggedIn, st) /\
  downloadBookmarks st = Thrown ENotLoggedIn /\
  syncBookmarks bookmarks now1 now2 st = (Thrown ENotLoggedIn, st).
Proof.
  intros H. unfold CloudSyncValues.uploadBookmarks, CloudSyncValues.downloadBookmarks,
    CloudSyncValues.syncBookmarks. rewrite H. auto.
Qed.

Lemma falsy_cases st :
  truthy_value (getCurrentUser st) = false <-> no_current_user st \/ holds_falsy st.
Proof.
  rewrite no_current_user_null, holds_falsy_value.
  destruct (getCurrentUser st) as [|b|n|s|l|fs]; cbn [truthy_value];
    split; intros H;
    try reflexivity; try discriminate H; try (left; reflexivity);
    try (right; split; [discriminate | exact H]);
    destruct H as [H | [_ H]]; try discriminate H; exact H.
Qed.

(** With the user [u] logged in, upload succeeds, and the user that is
    read afterwards is [u] with the new sync time. *)
Lemma upload_logged_in bookmarks now1 now2 st u :
  holds_user st u -> reads_back_user now2 st ->
  fst (uploadBookmarks bookmarks now1 now2 st) = Resolved tt /\
  holds_user (snd (uploadBookmarks bookmarks now1 now2 st))
    (set_lastSyncTime now2 u).
Proof.
  intros Hu Hback. destruct (Hback u Hu) as [Ht Hp].
  unfold CloudSyncValues.uploadBookmarks.
  rewrite (holds_user_value st u Hu), user_value_truthy, assign_lastSyncTime_user.
  cbn [negb fst snd]. split; [reflexivity|].
  eexists. split; [apply lookup_insert_eq | split; [exact Ht | exact Hp]].
Qed.

(** C8.  On a storage whose user entry is what the service writes, that
    is, with no current user or with the document of a user record:
    uploadBookmarks, downloadBookmarks and syncBookmarks fail with the
    'not logged in' error exactly when there is no current user in
    storage (which is when isLoggedIn() is false); with a user logged in
    none of them raises it; and when it is raised the storage, the stored
    sync data included, is what it was before the call. *)
Theorem C8_not_logged_in_guard (bookmarks : list BookmarkNode) (now1 now2 : Z)
    (st : gmap string string) :
  no_current_user st \/ (exists u, holds_user st u) ->
  reads_back_user now2 st ->
  let up := uploadBookmarks bookmarks now1 now2 st in
  let sy := syncBookmarks bookmarks now1 now2 st in
  (fst up = Thrown ENotLoggedIn <-> no_current_user st) /\
  (downloadBookmarks st = Thrown ENotLoggedIn <-> no_current_user st) /\
  (fst sy = Thrown ENotLoggedIn <-> no_current_user st) /\
  (isLoggedIn st = false <-> no_current_user st) /\
  (no_current_user st -> snd up = st /\ snd sy = st) /\
  (forall u, holds_user st u ->
     fst up <> Thrown ENotLoggedIn /\
     downloadBookmarks st <> Thrown ENotLoggedIn /\
     fst sy <> Thrown ENotLoggedIn).
Proof.
  intros Hwf Hback up sy. subst up sy.
  assert (Hnone : no_current_user st ->
            uploadBookmarks bookmarks now1 now2 st = (Thrown ENotLoggedIn, st) /\
            downloadBookmarks st = Thrown ENotLoggedIn /\
            syncBookmarks bookmarks now1 now2 st = (Thrown ENotLoggedIn, st)).
  { intros H. apply guard_unchanged. apply falsy_cases. left. exact H. }
  assert (Huser : forall u, holds_user st u ->
            ~ no_current_user st /\
            fst (uploadBookmarks bookmarks now1 now2 st) <> Thrown ENotLoggedIn /\
            downloadBookmarks st <> Thrown ENotLoggedIn /\
            fst (syncBookmarks bookmarks now1 now2 st) <> Thrown ENotLoggedIn).
  { intros u Hu.
    pose proof (holds_user_value st u Hu) as Hv.
    assert (Htruthy : truthy_value (getCurrentUser st) = true)
      by (rewrite Hv; apply user_value_truthy).
    destruct (upload_logged_in bookmarks now1 now2 st u Hu Hback) as [Hup Hafter].
    split; [|split; [|split]].
    - intros Hn. apply no_current_user_null in Hn. rewrite Hn in Htruthy. discriminate.
    - rewrite Hup. discriminate.
    - intros H. apply download_guard in H. congruence.
    - unfold CloudSyncValues.syncBookmarks. rewrite Htruthy. cbn [negb].
      destruct (uploadBookmarks bookmarks now1 now2 st) as [o st'] eqn:E.
      cbn [fst snd] in Hup, Hafter. subst o. cbn [fst].
      intros H. apply download_guard in H.
      rewrite (holds_user_value st' _ Hafter), user_value_truthy in H. discriminate. }
  split; [|split; [|split; [|split; [apply isLoggedIn_spec | split]]]].
  - split; [|intros H; destruct (Hnone H) as [-> _]; reflexivity].
    intros H. destruct Hwf as [Hn | [u Hu]]; [exact Hn|].
    destruct (Huser u Hu) as (_ & Hno & _). contradiction.
  - split; [|intros H; destruct (Hnone H) as (_ & -> & _); reflexivity].
    intros H. destruct Hwf as [Hn | [u Hu]]; [exact Hn|].
    destruct (Huser u Hu) as (_ & _ & Hno & _). contradiction.
  - split; [|intros H; destruct (Hnone H) as (_ & _ & ->); reflexivity].
    intros H. destruct Hwf as [Hn | [u Hu]]; [exact Hn|].
    destruct (Huser u Hu) as (_ & _ & _ & Hno). contradiction.
  - intros H. destruct (Hnone H) as (-> & _ & ->). auto.
  - intros u Hu. destruct (Huser u Hu) as (_ & H1 & H2 & H3). auto.
Qed.

End Guard.

Definition alice : User :=
  mkUser "user_1700000000000" "alice@example.com" "alice" None
         1700000000000 0 true.

(** A storage with a logged-in user and nothing synced yet. *)
Definition storage_alice : gmap string string :=
  {[ STORAGE_KEY_USER := json_print (user_to_json alice) ]}.

Lemma C8_witness :
  let st := storage_alice in
  fst (uploadBookmarks json_print json_parse [] 1700000000500 1700000000501 st)
  <> Thrown ENotLoggedIn /\
  downloadBookmarks json_parse st <> Thrown ENotLoggedIn /\
  fst (syncBookmarks json_print json_parse [] 1700000000500 1700000000501 st)
  <> Thrown ENotLoggedIn.
Proof.
  cbv zeta.
  assert (Halice : holds_user json_parse storage_alice alice).
  { eexists. split; [reflexivity|]. split; vm_compute; reflexivity. }
  destruct (C8_not_logged_in_guard json_print json_parse [] 1700000000500
              1700000000501 storage_alice) as (_ & _ & _ & _ & _ & H).
  - right. exists alice. exact Halice.
  - intros u (text & H1 & H2 & H3).
    assert (E : text = json_print (user_to_json alice))
      by (vm_compute in H1; injection H1 as <-; reflexivity).
    subst text.
    assert (Hp : json_parse (json_print (user_to_json alice)) = Some (user_to_json alice))
      by (vm_compute; reflexivity).
    rewrite Hp in H3.
    assert (E : user_to_json alice = user_to_json u) by congruence.
    apply (f_equal user_of_json) in E. rewrite !user_of_to_json in E.
    injection E as <-. split; vm_compute; reflexivity.
  - exact (H alice Halice).
Defined.

(** C8 (as stated, for every storage) fails.  With the text [0] under the
    user key, getCurrentUser returns 0, which is not [null], so that
    isLoggedIn() is true and storage does hold a current value, and yet
    uploadBookmarks raises 'not logged in'.  With the text of an empty
    object under the key, storage holds no user record, and yet
    uploadBookmarks does not raise the error: it completes. *)
Lemma C8_counterexample :
  let zero : gmap string string := {[ STORAGE_KEY_USER := "0" ]} in
  let empty_object : gmap string string := {[ STORAGE_KEY_USER := "{}" ]} in
  (getCurrentUser json_parse zero = JNum 0 /\
   isLoggedIn json_parse zero = true /\
   ~ no_current_user json_parse zero /\
   uploadBookmarks json_print json_parse [] 1700000000500 1700000000501 zero
   = (Thrown ENotLoggedIn, zero)) /\
  (getCurrentUser json_parse empty_object = JObj [] /\
   user_of_json (JObj []) = None /\
   fst (uploadBookmarks json_print json_parse [] 1700000000500 1700000000501
          empty_object) = Resolved tt).
Proof.
  cbv zeta. split; [split; [|split; [|split]] | split; [|split]].
  - vm_compute. reflexivity.
  - vm_compute. reflexivity.
  - unfold no_current_user. rewrite lookup_singleton_eq.
    intros [H | [H | H]]; [discriminate H | vm_compute in H; discriminate H
                          | vm_compute in H; discriminate H].
  - vm_compute. reflexivity.
  - vm_compute. reflexivity.
  - reflexivity.
  - vm_compute. reflexivity.
Qed.

(** On the document of a user record the operations are those of the
    typed reading: the same sync data and the same user record are
    written. *)
Lemma typed_upload_agrees JSON_stringify JSON_parse bookmarks now1 now2 st u :
  holds_user JSON_parse st u ->
  CloudSync.getCurrentUser JSON_parse st = Present u /\
  snd (uploadBookmarks JSON_stringify JSON_parse bookmarks now1 now2 st)
  = snd (CloudSync.uploadBookmarks JSON_stringify JSON_parse bookmarks now1 now2 st).
Proof.
  intros Hu. pose proof (holds_user_value JSON_parse st u Hu) as Hv.
  destruct Hu as (text & H1 & H2 & H3).
  assert (Htyped : CloudSync.getCurrentUser JSON_parse st = Present u).
  { unfold CloudSync.getCurrentUser. rewrite H1, H2, H3, user_of_to_json.
    destruct u as [i e n [a|] c l s]; reflexivity. }
  split; [exact Htyped|].
  unfold uploadBookmarks, CloudSync.uploadBookmarks.
  rewrite Htyped, Hv, user_value_truthy, assign_lastSyncTime_user.
  cbn [negb snd]. destruct u as [i e n [a|] c l s]; reflexivity.
Qed.

End CloudSyncFacts.

(** ** Categorisation *)

Module OrganizerFacts.
Import Organizer.
Section Categorize.
Variable toLowerCase : string -> string.
Variable regex_test : string -> string -> option bool.

Local Abbreviation matchesRule := (matchesRule toLowerCase regex_test).
Local Abbreviation rule_matches := (rule_matches toLowerCase regex_test).
Local Abbreviation assign := (assign toLowerCase regex_test).
Local Abbreviation categorizeNode := (categorizeNode toLowerCase regex_test).
Local Abbreviation categorizeBookmarks := (categorizeBookmarks toLowerCase regex_test).
Local Abbreviation first_target := (first_target toLowerCase regex_test).
Local Abbreviation goes_to := (goes_to toLowerCase regex_test).

(** The boolean test of the code decides the relation of the claim. *)
Lemma matchesRule_spec b r :
  has_url b = true -> matchesRule b r = true <-> rule_matches b r.
Proof.
  intros Hurl. unfold Organizer.matchesRule, Organizer.rule_matches.
  set (kw := existsb _ (keywords r)).
  assert (Hkw : (if (0 <? length (keywords r))%nat then kw else false) = kw).
  { subst kw. destruct (keywords r); reflexivity. }
  rewrite Hkw. clear Hkw.
  assert (Hk : kw = true <->
               exists k, In k (keywords r) /\
                 (appears_ci toLowerCase k (node_title b) \/
                  appears_ci toLowerCase k (or_else (node_url b) ""))).
  { subst kw. rewrite existsb_exists. unfold appears_ci.
    split; intros [k [Hin H]]; exists k; split; try exact Hin.
    - apply orb_true_iff in H. rewrite !includes_spec in H. exact H.
    - apply orb_true_iff. rewrite !includes_spec. exact H. }
  unfold has_url in Hurl. destruct (node_url b) as [u|]; [|discriminate].
  cbn [truthy] in Hurl. destruct kw.
  { split; [intros _; left; apply Hk; reflexivity | reflexivity]. }
  assert (Hnk : ~ exists k, In k (keywords r) /\
                 (appears_ci toLowerCase k (node_title b) \/
                  appears_ci toLowerCase k (or_else (Some u) ""))).
  { intros H. apply Hk in H. discriminate. }
  destruct (urlPatterns r) as [ps|]; cbn [default].
  2:{ split; [discriminate|]. intros [H | (q & u' & _ & [] & _)]; tauto. }
  set (pt := existsb _ ps).
  assert (Hps : pt = true <-> exists p, In p ps /\ regex_test p u = Some true).
  { subst pt. rewrite existsb_exists.
    split; intros [q [Hin H]]; exists q; split; auto.
    - destruct (regex_test q u) as [[]|]; try discriminate; reflexivity.
    - rewrite H. reflexivity. }
  assert (Hlen : (if (0 <? length ps)%nat && truthy_string u then pt else false) = pt).
  { rewrite Hurl, andb_true_r. subst pt. destruct ps; reflexivity. }
  rewrite Hlen, Hps. split.
  - intros [q [Hin H]]. right. exists q, u. auto.
  - intros [H | (q & u' & Hu & Hin & Hq)]; [tauto|].
    injection Hu as <-. exists q. auto.
Qed.

Lemma filed_push folderName node cat f :
  filed (push_to folderName node cat) f =
  filed cat f ++ (if bool_decide (folderName = f) then [node] else []).
Proof.
  unfold filed, push_to. case_bool_decide as E.
  - subst. rewrite lookup_insert_eq. reflexivity.
  - rewrite lookup_insert_ne by exact E. rewrite app_nil_r. reflexivity.
Qed.

Lemma assign_filed node rules cat f :
  filed (assign node rules cat) f =
  filed cat f ++
  (if bool_decide (first_target rules node = Some f) then [node] else []).
Proof.
  unfold Organizer.first_target.
  induction rules as [|rule rest IH]; cbn [Organizer.assign List.find].
  - rewrite app_nil_r. reflexivity.
  - destruct (matchesRule node rule); [|exact IH].
    rewrite filed_push. cbn [fmap option_fmap option_map].
    repeat case_bool_decide; congruence.
Qed.

Lemma categorizeNode_eq rules node cat :
  categorizeNode rules node cat =
  let c1 := if has_url node then assign node rules cat else cat in
  match node_children node with
  | Some cs => fold_left (fun c child => categorizeNode rules child c) cs c1
  | None => c1
  end.
Proof.
  destruct node as [i t u d p [cs|] st tg nt];
    unfold has_url; cbn; unfold has_url; cbn [node_url];
    destruct (truthy u); reflexivity.
Qed.

Lemma forEach_filed rules cs :
  Forall (fun x => forall cat f,
            filed (categorizeNode rules x cat) f =
            filed cat f ++ List.filter (goes_to rules f) (nodes_of x)) cs ->
  forall cat f,
    filed (fold_left (fun c child => categorizeNode rules child c) cs cat) f =
    filed cat f ++ List.filter (goes_to rules f) (flat_map nodes_of cs).
Proof.
  induction 1 as [|x l Hx _ IH]; intros cat f; cbn [fold_left flat_map].
  - rewrite app_nil_r. reflexivity.
  - rewrite IH, Hx, List.filter_app, app_assoc. reflexivity.
Qed.

(** What categorizeNode adds under a folder name: the nodes of the tree,
    in visiting order, that have a URL and whose first matching rule
    targets that folder. *)
Lemma categorizeNode_filed rules n :
  forall cat f,
    filed (categorizeNode rules n cat) f =
    filed cat f ++ List.filter (goes_to rules f) (nodes_of n).
Proof.
  induction n as [i t u d p cs st tg nt IH] using BookmarkNode_ind.
  intros cat f. rewrite categorizeNode_eq.
  set (n := mkBookmarkNode i t u d p cs st tg nt).
  assert (Hhead :
    filed (if has_url n then assign n rules cat else cat) f =
    filed cat f ++ List.filter (goes_to rules f) [n]).
  { cbn [List.filter]. unfold Organizer.goes_to.
    destruct (has_url n); cbn [andb].
    - rewrite assign_filed. reflexivity.
    - rewrite app_nil_r. reflexivity. }
  cbv zeta. change (nodes_of n) with
    ([n] ++ match cs with Some cs0 => flat_map nodes_of cs0 | None => [] end).
  change (node_children n) with cs.
  rewrite List.filter_app, app_assoc, <- Hhead.
  destruct cs as [cs|]; cbn [default] in IH.
  - apply forEach_filed. exact IH.
  - cbn [List.filter]. rewrite app_nil_r. reflexivity.
Qed.

Lemma categorizeBookmarks_filed bookmarks rules f :
  filed (categorizeBookmarks bookmarks rules) f =
  List.filter (goes_to rules f) (forest_nodes bookmarks).
Proof.
  unfold Organizer.categorizeBookmarks, forest_nodes.
  rewrite forEach_filed.
  - unfold filed. rewrite lookup_empty. reflexivity.
  - apply Forall_forall. intros x _. apply categorizeNode_filed.
Qed.

(** [find] returns the rule at the least matching index. *)
Lemma find_least (f : CategoryRule -> bool) rules i r :
  rules !! i = Some r -> f r = true ->
  (forall j r', (j < i)%nat -> rules !! j = Some r' -> f r' = false) ->
  List.find f rules = Some r.
Proof.
  revert i. induction rules as [|x rest IH]; intros i Hi Hr Hlt.
  - discriminate.
  - cbn [List.find]. destruct i as [|i].
    + injection Hi as ->. rewrite Hr. reflexivity.
    + rewrite (Hlt 0%nat x) by (try lia; reflexivity).
      apply (IH i); [exact Hi | exact Hr |].
      intros j r' Hj Hr'. apply (Hlt (S j) r'); [lia | exact Hr'].
Qed.

Lemma find_none (f : CategoryRule -> bool) rules :
  (forall r, In r rules -> f r = false) -> List.find f rules = None.
Proof.
  induction rules as [|x rest IH]; intros H; cbn [List.find]; [reflexivity|].
  rewrite (H x) by (left; reflexivity). apply IH. intros r Hr. apply H. right. exact Hr.
Qed.

(** C1.  Every bookmark node of the forest that has a URL is filed under
    the target folder of the first rule, in list order, that matches it,
    and under no other folder: a matching rule at index [i] wins over every
    matching rule at a larger index.  A bookmark that no rule matches is
    filed under no folder.  A rule matches when a keyword occurs
    case-insensitively in the title or the URL, or a pattern of the rule
    matches the URL. *)
Theorem C1_first_matching_rule_wins
    (bookmarks : list BookmarkNode) (rules : list CategoryRule) (n : BookmarkNode) :
  In n (forest_nodes bookmarks) -> has_url n = true ->
  let categorized := categorizeBookmarks bookmarks rules in
  (forall i r,
      rules !! i = Some r -> rule_matches n r ->
      (forall j r', (j < i)%nat -> rules !! j = Some r' -> ~ rule_matches n r') ->
      forall f, In n (filed categorized f) <-> f = targetFolder r) /\
  ((forall r, In r rules -> ~ rule_matches n r) ->
   forall f, ~ In n (filed categorized f)).
Proof.
  intros Hin Hurl categorized. subst categorized.
  assert (Hfiled : forall f,
    In n (filed (categorizeBookmarks bookmarks rules) f) <->
    first_target rules n = Some f).
  { intros f. rewrite categorizeBookmarks_filed, List.filter_In.
    unfold Organizer.goes_to. rewrite Hurl. cbn [andb].
    rewrite bool_decide_eq_true. tauto. }
  split.
  - intros i r Hi Hm Hlt f. rewrite Hfiled. unfold Organizer.first_target.
    rewrite (find_least (matchesRule n) rules i r).
    + cbn. split; congruence.
    + exact Hi.
    + apply matchesRule_spec; assumption.
    + intros j r' Hj Hr'. specialize (Hlt j r' Hj Hr').
      rewrite <- matchesRule_spec in Hlt by exact Hurl.
      destruct (matchesRule n r'); [contradiction Hlt|]; reflexivity.
  - intros Hnone f. rewrite Hfiled. unfold Organizer.first_target.
    rewrite find_none; [discriminate|].
    intros r Hr. specialize (Hnone r Hr).
    rewrite <- matchesRule_spec in Hnone by exact Hurl.
    destruct (matchesRule n r); [contradiction Hnone|]; reflexivity.
Qed.

End Categorize.

(** A three-rule table and a bookmark that the second and third rules
    both match. *)
Definition demo_rules : list CategoryRule :=
  [ mkCategoryRule "search" "Search" ["google"; "bing"] None "Search";
    mkCategoryRule "dev" "Development" ["GIT"] None "Dev";
    mkCategoryRule "code" "Code" ["hub"] None "Code" ].

Definition demo_github : BookmarkNode :=
  bookmark "7" "GitHub" "https://github.com/".

Definition demo_forest : list BookmarkNode :=
  [ folder "1" "Bar" [ bookmark "5" "News" "https://example.org/"; demo_github ] ].

Lemma C1_witness :
  In demo_github (forest_nodes demo_forest) /\
  has_url demo_github = true /\
  forall f,
    In demo_github
       (filed (categorizeBookmarks toLowerCase_ascii regex_unused
                 demo_forest demo_rules) f)
    <-> f = "Dev".
Proof.
  assert (Hin : In demo_github (forest_nodes demo_forest)).
  { cbn. right. right. left. reflexivity. }
  assert (Hurl : has_url demo_github = true) by reflexivity.
  split; [exact Hin | split; [exact Hurl |]].
  pose proof (C1_first_matching_rule_wins toLowerCase_ascii regex_unused
                demo_forest demo_rules demo_github Hin Hurl) as [Hfirst _].
  apply (Hfirst 1%nat (mkCategoryRule "dev" "Development" ["GIT"] None "Dev")).
  - reflexivity.
  - apply matchesRule_spec; [exact Hurl | vm_compute; reflexivity].
  - intros j r' Hj Hr'. destruct j as [|j]; [|lia].
    injection Hr' as <-. rewrite <- matchesRule_spec by exact Hurl.
    vm_compute. discriminate.
Defined.

End OrganizerFacts.

(** ** Duplicate detection *)

Module DuplicatesFacts.
Import Duplicates.

Local Abbreviation similarity :=
  (calculateUrlSimilarity toLowerCase_ascii URL_href_nohash_ref).

Definition url_aab : string := "http://x.com/aaa/aaa".
Definition url_ab : string := "http://x.com/aaa/bbb".
Definition url_aaa : string := "http://x.com/aaa/aaa/aaa".
Definition url_a : string := "http://x.com/aaa".

(** The token lists that calculateUrlSimilarity works on. *)
Example tokens_url_aab : tokens url_aab = ["http:"; "x.com"; "aaa"; "aaa"].
Proof. reflexivity. Qed.

Example tokens_url_ab : tokens url_ab = ["http:"; "x.com"; "aaa"; "bbb"].
Proof. reflexivity. Qed.

(** C4 (evaluation at the failing input).  The "intersection" keeps the
    repeated tokens of its first argument while the "union" is a set, so
    the quotient depends on the order of the arguments: 4/4 one way round
    and 3/4 the other.  Through findDuplicates the difference is visible
    from outside: the two bookmarks are reported as similar in one order
    of the forest and not in the other. *)
Theorem C4_similarity_not_symmetric :
  (similarity url_aab url_ab == 1)%Q /\
  (similarity url_ab url_aab == 3 # 4)%Q /\
  ~ (similarity url_aab url_ab == similarity url_ab url_aab)%Q /\
  let a := bookmark "1" "A" url_aab in
  let b := bookmark "2" "B" url_ab in
  length (findDuplicates toLowerCase_ascii URL_href_nohash_ref [a; b] true) = 1%nat /\
  findDuplicates toLowerCase_ascii URL_href_nohash_ref [b; a] true = [].
Proof.
  split; [|split; [|split; [|split]]].
  - vm_compute. reflexivity.
  - vm_compute. reflexivity.
  - vm_compute. discriminate.
  - vm_compute. reflexivity.
  - vm_compute. reflexivity.
Qed.

(** C5 (evaluation at the failing input).  For two bookmarks whose URLs
    repeat a path segment, findDuplicates with similarMatch reports one
    similar group whose score is 5/3, above 1. *)
Theorem C5_similarity_exceeds_one :
  let a := bookmark "1" "A" url_aaa in
  let b := bookmark "2" "B" url_a in
  findDuplicates toLowerCase_ascii URL_href_nohash_ref [a; b] true
    = [mkDuplicateInfo url_aaa [a; b] (5 # 3)] /\
  (similarity url_aaa url_a == 5 # 3)%Q /\
  (1 < 5 # 3)%Q.
Proof.
  split; [|split].
  - vm_compute. reflexivity.
  - vm_compute. reflexivity.
  - reflexivity.
Qed.

End DuplicatesFacts.

Module LinkCheckerFacts.
Import LinkChecker.

Lemma processResponse_url now url r : lc_url (processResponse now url r) = url.
Proof.
  unfold processResponse.
  repeat (match goal with |- context [if ?b then _ else _] => destruct b end);
    try reflexivity; destruct (resp_location r) as [l|]; simpl; try reflexivity;
    destruct (truthy_string l); reflexivity.
Qed.

(** Case analysis on the integer tests of processResponse. *)
Ltac status_cases :=
  repeat match goal with
         | |- context [(?a =? ?b)%Z] => destruct (Z.eqb_spec a b)
         | |- context [(?a <=? ?b)%Z] => destruct (Z.leb_spec a b)
         | |- context [(?a <? ?b)%Z] => destruct (Z.ltb_spec a b)
         end;
  simpl; try reflexivity; try lia;
  try (match goal with
       | |- context [resp_location ?r] =>
           destruct (resp_location r) as [loc|]; simpl; try reflexivity;
           destruct (truthy_string loc); reflexivity
       end).

Lemma processResponse_ok now url r :
  resp_ok r = true -> lc_status (processResponse now url r) = SNormal.
Proof. intros H. unfold processResponse. rewrite H. reflexivity. Qed.

Lemma processResponse_redirected now url r :
  resp_ok r = false -> resp_redirected r = true ->
  lc_status (processResponse now url r) =
    if ((resp_status r =? 301) || (resp_status r =? 308))%Z
    then SNormal else SRedirect.
Proof.
  intros Hok Hred. unfold processResponse. rewrite Hok, Hred.
  status_cases.
Qed.

(** C2 (as amended).  The buckets of the claim hold for every response
    whose [redirected] flag is unset: 404 and 410 give 'broken'; 401, 403
    and 429 give 'error'; every other 4xx and every 5xx give 'error'; a 3xx
    gives 'redirect'.  A response that is not ok and has the [redirected]
    flag set is classified by the flag first, with the permanent and the
    temporary codes as distinct cases: 'normal' for 301 and 308, and
    'redirect' with the verification message for 302, 303 and 307. *)
Theorem C2_processResponse_buckets (now : Z) (url : string) (r : Response) :
  let st := resp_status r in
  let res := processResponse now url r in
  (resp_redirected r = false ->
     ((st = 404 \/ st = 410)%Z -> lc_status res = SBroken) /\
     ((st = 401 \/ st = 403 \/ st = 429)%Z -> lc_status res = SError) /\
     ((400 <= st < 600)%Z -> st <> 404%Z -> st <> 410%Z -> lc_status res = SError) /\
     ((300 <= st < 400)%Z -> lc_status res = SRedirect)) /\
  (resp_redirected r = true -> resp_ok r = false ->
     ((st = 301 \/ st = 308)%Z -> lc_status res = SNormal) /\
     ((st = 302 \/ st = 303 \/ st = 307)%Z ->
        lc_status res = SRedirect /\
        lc_error res = Some "临时重定向，请验证目标链接")).
Proof.
  intros st res; subst st res. split.
  - intros Hred.
    unfold processResponse, resp_ok. rewrite Hred.
    repeat split; intros; status_cases.
  - intros Hred Hok.
    unfold processResponse. rewrite Hok, Hred.
    repeat split; intros; status_cases.
Qed.

Definition gone_after_redirect : Response :=
  mkResponse 404 true "https://example.com/moved" None.
Definition moved_permanently : Response :=
  mkResponse 301 true "https://example.com/new" None.

Lemma C2_buckets_witness :
  let r := mkResponse 404 false "https://example.com/a" None in
  let res := processResponse 0 "https://example.com/a" r in
  lc_status res = SBroken /\
  lc_status (processResponse 0 "https://example.com/old" moved_permanently)
    = SNormal.
Proof.
  split.
  - apply (C2_processResponse_buckets 0 "https://example.com/a"
             (mkResponse 404 false "https://example.com/a" None));
      [reflexivity | left; reflexivity].
  - apply (C2_processResponse_buckets 0 "https://example.com/old"
             moved_permanently); [reflexivity | reflexivity | left; reflexivity].
Defined.

(** C2 (as stated) fails: a 404 that was reached through a redirect is
    reported as 'redirect', not 'broken', and a redirected 301 is reported
    as 'normal', not 'redirect'. *)
Lemma C2_counterexample :
  resp_status gone_after_redirect = 404%Z /\
  lc_status (processResponse 0 "https://example.com/old" gone_after_redirect)
    = SRedirect /\
  lc_status (processResponse 0 "https://example.com/old" gone_after_redirect)
    <> SBroken /\
  resp_status moved_permanently = 301%Z /\
  lc_status (processResponse 0 "https://example.com/old" moved_permanently)
    <> SRedirect.
Proof. repeat split; try reflexivity; vm_compute; discriminate. Qed.

(** *** checkUrl *)

Lemma performCheckWithNoCors_url strict start url o :
  lc_url (snd (performCheckWithNoCors strict start url o)) = url.
Proof.
  unfold performCheckWithNoCors.
  destruct (await_fetch o) as [d r | d m |]; cbn [snd]; try reflexivity;
    repeat (match goal with |- context [if ?b then _ else _] => destruct b end);
    reflexivity.
Qed.

Lemma performCheck_url strict start url net :
  lc_url (snd (performCheck strict start url net)) = url.
Proof.
  unfold performCheck.
  destruct (await_fetch (net_head net)) as [d r | d m |]; cbn [snd].
  - apply processResponse_url.
  - destruct (_ || _); [apply performCheckWithNoCors_url | reflexivity].
  - reflexivity.
Qed.

(** Whatever settles the race, checkUrl turns it into a result for [url]. *)
Lemma race_check_settles strict start url net :
  (exists t r, race_check strict start url net = Fulfilled t r /\ lc_url r = url) \/
  race_check strict start url net = Rejected (start + CHECK_TIMEOUT) "检测超时".
Proof.
  unfold race_check.
  pose proof (performCheck_url strict start url net) as Hurl.
  destruct (performCheck strict start url net) as [t r]. cbn [snd] in Hurl.
  destruct (t <? start + CHECK_TIMEOUT)%Z.
  - left. exists t, r. split; [reflexivity | exact Hurl].
  - right. reflexivity.
Qed.

Lemma checkUrl_unpaused released strict start url net :
  exists t result,
    checkUrl false released strict start url net = Resolves t result /\
    lc_url result = url.
Proof.
  unfold checkUrl.
  destruct (negb (truthy_string url) || negb (startsWith url "http")).
  - eexists _, _. split; reflexivity.
  - destruct (race_check_settles strict start url net)
      as [(t & r & E & Hurl) | E]; rewrite E.
    + exists t, r. split; [reflexivity | exact Hurl].
    + eexists _, _. split; reflexivity.
Qed.

(** C10.  With the pause flag unset, a call of checkUrl on any string and
    under any behaviour of the network resolves with a result (it neither
    throws nor stays pending), and the result carries the input string as
    its url. *)
Theorem C10_checkUrl_always_resolves
    (released : option Z) (strictMode : bool) (start : Z)
    (url : string) (net : Network) :
  exists t result,
    checkUrl false released strictMode start url net = Resolves t result /\
    lc_url result = url.
Proof. apply checkUrl_unpaused. Qed.

(** When the timeout promise wins the race, the rejection is caught by the
    general [catch] of checkUrl and reported with status 'error'. *)
Lemma checkUrl_timeout_wins strict start url net :
  negb (truthy_string url) || negb (startsWith url "http") = false ->
  race_check strict start url net = Rejected (start + CHECK_TIMEOUT) "检测超时" ->
  checkUrl false None strict start url net =
    Resolves (start + CHECK_TIMEOUT)
      (mkResult url SError (Some "检测超时") (start + CHECK_TIMEOUT)).
Proof. intros Hvalid E. unfold checkUrl. rewrite Hvalid, E. reflexivity. Qed.

(** A site whose HEAD request fails at once for CORS reasons and whose GET
    request then never answers. *)
Definition cors_then_silence : Network :=
  mkNetwork (FRejects 1000 "Failed to fetch") FHangs.

(** A site that never answers the HEAD request. *)
Definition silence : Network := mkNetwork FHangs FHangs.

(** C6 (evaluation at the failing input).  The GET fallback starts after
    one second, so its own abort timer is due after 5.5 seconds; the
    5-second timeout promise wins the race, and checkUrl reports status
    'error' with the message of the timeout, not status 'timeout'.  The
    abort path of performCheck, in contrast, reports 'timeout'. *)
Theorem C6_race_timeout_reports_error :
  let url := "https://example.com/" in
  race_check false 0 url cors_then_silence = Rejected 5000 "检测超时" /\
  checkUrl false None false 0 url cors_then_silence =
    Resolves 5000 (mkResult url SError (Some "检测超时") 5000) /\
  SError <> STimeout /\
  checkUrl false None false 0 url silence =
    Resolves 4500 (mkResult url STimeout (Some "请求超时") 4500).
Proof.
  cbv zeta. split; [|split; [|split]].
  - vm_compute. reflexivity.
  - apply (checkUrl_timeout_wins false 0 "https://example.com/" cors_then_silence);
      vm_compute; reflexivity.
  - discriminate.
  - vm_compute. reflexivity.
Qed.

(** *** checkAllUrls and cancel() *)

Lemma begun_app l l' : begun (l ++ l') = begun l ++ begun l'.
Proof. apply omap_app. Qed.

Lemma begun_snoc_began l u : begun (l ++ [Began u]) = begun l ++ [u].
Proof. apply begun_app. Qed.

Lemma begun_snoc_cancel l : begun (l ++ [CancelCalled]) = begun l.
Proof. rewrite begun_app. apply app_nil_r. Qed.

#[local] Arguments begun : simpl never.

(** What holds at the top of iteration [i]: [i] results have been pushed,
    they are the results for the first [i] URLs, and exactly those checks
    have been begun. *)
Definition at_iteration (i : nat) (m : Machine) : Prop :=
  length (results m) = i /\
  map lc_url (results m) = take i (urls m) /\
  begun (log m) = take i (urls m).

(** The invariant of the run, by control point. *)
Definition Inv (m : Machine) : Prop :=
  match pc m with
  | NotStarted => results m = [] /\ begun (log m) = []
  | AwaitPause i => (i < length (urls m))%nat /\ at_iteration i m
  | AwaitCheckPause i | AwaitCheck i =>
      (i < length (urls m))%nat /\
      length (results m) = i /\
      map lc_url (results m) = take i (urls m) /\
      begun (log m) = take (S i) (urls m)
  | AwaitDelay i => (S i < length (urls m))%nat /\ at_iteration (S i) m
  | Returned rs =>
      rs = results m /\
      map lc_url rs = begun (log m) /\
      begun (log m) = take (length rs) (urls m)
  end.

Lemma finish_inv i m : at_iteration i m -> Inv (finish m).
Proof.
  intros (Hlen & Hres & Hlog). unfold Inv, finish. cbn.
  rewrite Hlen. repeat split; congruence.
Qed.

Lemma begin_check_inv i url m :
  urls m !! i = Some url -> at_iteration i m -> Inv (begin_check i url m).
Proof.
  intros Hurl (Hlen & Hres & Hlog).
  assert (Hlt : (i < length (urls m))%nat) by (eapply lookup_lt_Some; exact Hurl).
  assert (Hbegun : begun (log m ++ [Began url]) = take (S i) (urls m)).
  { rewrite begun_snoc_began, Hlog. symmetry. apply take_S_r. exact Hurl. }
  unfold begin_check.
  destruct (negb (truthy_string url) || negb (startsWith url "http")).
  - unfold Inv. cbn. auto.
  - cbn [isPaused add_log]. destruct (isPaused m); unfold Inv; cbn; auto.
Qed.

Lemma loop_head_inv i m : at_iteration i m -> Inv (loop_head i m).
Proof.
  intros Hat. unfold loop_head.
  destruct (urls m !! i) as [url|] eqn:Hurl; [|eapply finish_inv; exact Hat].
  destruct (isCancelled m); [eapply finish_inv; exact Hat|].
  destruct (isPaused m); [|apply begin_check_inv; assumption].
  unfold Inv. cbn. split; [eapply lookup_lt_Some; exact Hurl | exact Hat].
Qed.

Lemma after_check_inv i url r m :
  urls m !! i = Some url -> lc_url r = url ->
  length (results m) = i ->
  map lc_url (results m) = take i (urls m) ->
  begun (log m) = take (S i) (urls m) ->
  Inv (after_check i r m).
Proof.
  intros Hurl Hr Hlen Hres Hlog.
  assert (Hat : at_iteration (S i) (push_result r m)).
  { unfold at_iteration. cbn. rewrite length_app, map_app, Hres, Hlen. cbn.
    rewrite Hr. repeat split; [lia | | exact Hlog].
    symmetry. apply take_S_r. exact Hurl. }
  unfold after_check. cbn [urls push_result].
  destruct (i <? length (urls m) - 1)%nat eqn:Hlast.
  - apply Nat.ltb_lt in Hlast. unfold Inv. cbn.
    split; [lia | exact Hat].
  - apply loop_head_inv. exact Hat.
Qed.

Lemma release_inv m : Inv m -> Inv (release (set_pauseResolver false m)).
Proof.
  intros HI. unfold release. cbn [pc set_pauseResolver urls].
  unfold Inv in HI. destruct (pc m) as [|i|i|i|i|rs] eqn:Hpc;
    try (unfold Inv; cbn; rewrite Hpc; exact HI).
  - destruct HI as [Hlt Hat].
    destruct (urls m !! i) as [url|] eqn:Hurl.
    + apply begin_check_inv; [exact Hurl | exact Hat].
    + apply lookup_ge_None in Hurl. lia.
  - destruct (urls m !! i) as [url|] eqn:Hurl.
    + unfold Inv. cbn. exact HI.
    + unfold Inv. cbn. rewrite Hpc. exact HI.
Qed.

(** The invariant only reads the control point, the URL list, the
    results and the begun checks. *)
Lemma inv_ext m m' :
  pc m' = pc m -> urls m' = urls m -> results m' = results m ->
  begun (log m') = begun (log m) -> Inv m -> Inv m'.
Proof.
  unfold Inv, at_iteration. intros -> -> -> ->. exact (fun H => H).
Qed.

Lemma cancel_inv m : Inv m -> Inv (cancel m).
Proof.
  intros HI. unfold cancel.
  set (m1 := set_isChecking false _).
  assert (HI1 : Inv m1).
  { apply (inv_ext m); try reflexivity; [|exact HI].
    subst m1. cbn. apply begun_snoc_cancel. }
  destruct (pauseResolver m1); [apply release_inv; exact HI1 | exact HI1].
Qed.

Lemma resume_inv m : Inv m -> Inv (resume m).
Proof.
  intros HI. unfold resume. cbn [pauseResolver set_isPaused].
  assert (HI1 : Inv (set_isPaused false m)).
  { apply (inv_ext m); try reflexivity. exact HI. }
  destruct (pauseResolver m); [apply release_inv; exact HI1 | exact HI1].
Qed.

Lemma checkUrl_result_url strict start url net t r :
  checkUrl false None strict start url net = Resolves t r -> lc_url r = url.
Proof.
  intros E. destruct (checkUrl_unpaused None strict start url net)
    as (t' & r' & E' & Hurl).
  rewrite E in E'. injection E' as -> ->. exact Hurl.
Qed.

Lemma step_inv m e m' : Inv m -> step m e = Some m' -> Inv m'.
Proof.
  intros HI Hstep. destruct e as [bookmarks | | | | start net |]; cbn in Hstep.
  - destruct (pc m) eqn:Hpc; try discriminate. injection Hstep as <-.
    unfold Inv in HI. rewrite Hpc in HI. destruct HI as [Hres Hlog].
    unfold checkAllUrls. destruct (isChecking m).
    + unfold Inv. cbn. rewrite Hlog. auto.
    + apply loop_head_inv. unfold at_iteration. cbn. rewrite Hres, Hlog.
      rewrite take_0. auto.
  - assert (m' = cancel m) as -> by (destruct (pc m); congruence).
    apply cancel_inv. exact HI.
  - assert (m' = pause m) as -> by (destruct (pc m); congruence).
    apply (inv_ext m); try reflexivity. exact HI.
  - assert (m' = resume m) as -> by (destruct (pc m); congruence).
    apply resume_inv. exact HI.
  - destruct (pc m) as [|i|i|i|i|rs] eqn:Hpc; try discriminate.
    unfold Inv in HI. rewrite Hpc in HI. destruct HI as (Hlt & Hlen & Hres & Hlog).
    destruct (urls m !! i) as [url|] eqn:Hurl; [|discriminate].
    destruct (checkUrl false None (strictMode m) start url net)
      as [t r | msg |] eqn:Hcheck; [| |discriminate]; injection Hstep as <-.
    + apply checkUrl_result_url in Hcheck.
      apply (after_check_inv i url); try assumption;
        case_bool_decide; assumption.
    + apply (after_check_inv i url); try assumption. reflexivity.
  - destruct (pc m) as [|i|i|i|i|rs] eqn:Hpc; try discriminate.
    injection Hstep as <-.
    unfold Inv in HI. rewrite Hpc in HI. destruct HI as [_ Hat].
    apply loop_head_inv. exact Hat.
Qed.

Lemma run_inv tr : forall m m', Inv m -> run tr m = Some m' -> Inv m'.
Proof.
  induction tr as [|e tr IH]; intros m m' HI Hrun; cbn in Hrun.
  - injection Hrun as <-. exact HI.
  - destruct (step m e) as [m1|] eqn:Hstep; [|discriminate].
    eapply IH; [eapply step_inv; eassumption | exact Hrun].
Qed.


(** The flag is polled at the top of the loop body: once it is set, the
    next iteration leaves the loop. *)
Lemma loop_head_cancelled i m :
  isCancelled m = true -> loop_head i m = finish m.
Proof.
  intros Hc. unfold loop_head. rewrite Hc. destruct (urls m !! i); reflexivity.
Qed.

Definition demo_bookmarks : list BookmarkNode :=
  [ bookmark "1" "A" "https://a.example/"; bookmark "2" "B" "https://b.example/" ].

(** A site that answers the HEAD request with 200 after 120 ms. *)
Definition answers_ok : Network :=
  mkNetwork (FResolves 120 (mkResponse 200 false "" None)) FHangs.

(** pause() arrives while the first check is in flight, the loop then
    waits at the top of the second iteration, and cancel() arrives. *)
Definition cancel_while_paused_before : list Event :=
  [CallCheckAllUrls demo_bookmarks; CallPause; CheckSettles 0 answers_ok;
   DelayElapsed].

(** C7 (evaluation at the failing input).  Two URLs are to be checked.
    pause() is called while the first check is in flight; the loop then
    waits for the pause to end at the top of the second iteration (the
    flag has been read, and is unset).  cancel() is called: it sets the
    flag and releases the wait, the loop does not read the flag again, and
    the check of the second URL is begun after the call of cancel(); its
    result is among the returned results. *)
Theorem C7_cancel_while_paused_begins_check :
  match run cancel_while_paused_before (init false) with
  | Some m1 =>
      pc m1 = AwaitPause 1 /\
      begun (log m1) = ["https://a.example/"] /\
      match run [CallCancel; CheckSettles 500 answers_ok] m1 with
      | Some m2 =>
          log m2 = [Began "https://a.example/"; CancelCalled;
                    Began "https://b.example/"] /\
          begun_after_cancel (log m2) = ["https://b.example/"] /\
          exists rs, pc m2 = Returned rs /\
                     map lc_url rs = ["https://a.example/"; "https://b.example/"]
      | None => False
      end
  | None => False
  end.
Proof. vm_compute. repeat split. eexists. split; reflexivity. Qed.

End LinkCheckerFacts.

(* ===================================================================== *)
(** * Part III.  Further properties of the services                       *)
(* ===================================================================== *)

(** ** Link checker *)

Module LinkCheckerMore.
Import LinkChecker LinkCheckerFacts.

Ltac response_cases :=
  repeat (match goal with
          | |- context [(?a =? ?b)%Z] => destruct (Z.eqb_spec a b)
          | |- context [(?a <=? ?b)%Z] => destruct (Z.leb_spec a b)
          | |- context [(?a <? ?b)%Z] => destruct (Z.ltb_spec a b)
          | |- context [resp_location ?r] => destruct (resp_location r) as [loc|]
          | |- context [truthy_string ?l] => destruct (truthy_string l)
          end; cbn [andb orb]; cbv iota);
  cbn.

Lemma processResponse_verdict now url r :
  (lc_status (processResponse now url r) = SBroken <->
     resp_redirected r = false /\ (resp_status r = 404 \/ resp_status r = 410)%Z) /\
  (lc_status (processResponse now url r) = SNormal <->
     resp_ok r = true \/
     (resp_redirected r = true /\ (resp_status r = 301 \/ resp_status r = 308)%Z)).
Proof.
  unfold processResponse, resp_ok.
  destruct (resp_redirected r); response_cases;
    (split; split; intros Hyp; try discriminate Hyp; try reflexivity;
     try (exfalso; lia); try tauto;
     try (destruct Hyp as [Hyp|Hyp]; try discriminate Hyp;
          try (exfalso; lia); destruct Hyp as [Hyp1 Hyp2];
          try discriminate Hyp1; exfalso; lia)).
Qed.

(** X1.  processResponse reports 'broken' exactly for a 404 or a 410 that
    was not reached through a redirect, and 'normal' exactly for an ok
    response or a redirected 301/308: no other status code, and no
    redirected response, is ever reported broken. *)
Theorem X1_processResponse_broken_normal (now : Z) (url : string) (r : Response) :
  let st := resp_status r in
  let res := processResponse now url r in
  (lc_status res = SBroken <->
     resp_redirected r = false /\ (st = 404 \/ st = 410)%Z) /\
  (lc_status res = SNormal <->
     resp_ok r = true \/
     (resp_redirected r = true /\ (st = 301 \/ st = 308)%Z)).
Proof. cbv zeta. apply processResponse_verdict. Qed.

(** The fallback with mode 'no-cors' sees no status code: it never reports
    'broken' or 'redirect', and in strict mode it never reports 'normal'. *)
Lemma performCheckWithNoCors_status strict start url o :
  let st := lc_status (snd (performCheckWithNoCors strict start url o)) in
  st <> SBroken /\ st <> SRedirect /\ (strict = true -> st <> SNormal).
Proof.
  cbv zeta. unfold performCheckWithNoCors.
  destruct (await_fetch o) as [d resp | d m |]; cbn [snd].
  - destruct (d <? 30)%Z; [cbn; repeat split; intros; discriminate|].
    destruct (4500 <? d)%Z; [cbn; repeat split; intros; discriminate|].
    destruct strict; cbn; repeat split; intros; discriminate.
  - destruct (_ || _); cbn; repeat split; intros; discriminate.
  - cbn; repeat split; intros; discriminate.
Qed.

(** What a verdict of performCheck rests on. *)
Lemma performCheck_status strict start url net :
  let st := lc_status (snd (performCheck strict start url net)) in
  (st = SBroken ->
     exists d resp, await_fetch (net_head net) = Got d resp /\
       resp_redirected resp = false /\
       (resp_status resp = 404 \/ resp_status resp = 410)%Z) /\
  (strict = true -> st = SNormal ->
     exists d resp, await_fetch (net_head net) = Got d resp /\
       (resp_ok resp = true \/
        (resp_redirected resp = true /\
         (resp_status resp = 301 \/ resp_status resp = 308)%Z))).
Proof.
  cbv zeta. unfold performCheck.
  destruct (await_fetch (net_head net)) as [d resp | d m |]; cbn [snd].
  - destruct (processResponse_verdict (start + d) url resp) as [Hb Hn].
    split.
    + intros H. exists d, resp. split; [reflexivity | apply Hb; exact H].
    + intros _ H. exists d, resp. split; [reflexivity | apply Hn; exact H].
  - destruct (_ || _).
    + destruct (performCheckWithNoCors_status strict (start + d) url (net_get net))
        as (Hb & _ & Hn).
      split; [intros H; contradiction | intros Hs H; exfalso; exact (Hn Hs H)].
    + cbn. split; intros; discriminate.
  - cbn. split; intros; discriminate.
Qed.

(** X2.  checkUrl reports a URL as 'broken' only when the server itself
    answered the HEAD request in time with a 404 or 410 that was not
    reached through a redirect; no network failure, CORS fallback or
    timeout is ever reported as broken.  In strict mode it reports
    'normal' only on an ok (or permanently redirected) answer to the HEAD
    request, never on the strength of the no-cors fallback. *)
Theorem X2_checkUrl_verdicts (released : option Z) (strict : bool) (start : Z)
    (url : string) (net : Network) (t : Z) (r : LinkCheckResult) :
  checkUrl false released strict start url net = Resolves t r ->
  (lc_status r = SBroken ->
     exists d resp, await_fetch (net_head net) = Got d resp /\
       resp_redirected resp = false /\
       (resp_status resp = 404 \/ resp_status resp = 410)%Z) /\
  (strict = true -> lc_status r = SNormal ->
     exists d resp, await_fetch (net_head net) = Got d resp /\
       (resp_ok resp = true \/
        (resp_redirected resp = true /\
         (resp_status resp = 301 \/ resp_status resp = 308)%Z))).
Proof.
  unfold checkUrl.
  destruct (negb (truthy_string url) || negb (startsWith url "http")).
  { intros E. injection E as <- <-. cbn. split; intros; discriminate. }
  unfold race_check.
  pose proof (performCheck_status strict start url net) as Hst.
  destruct (performCheck strict start url net) as [t0 r0]. cbn [snd] in Hst.
  destruct (t0 <? start + CHECK_TIMEOUT)%Z.
  - intros E. injection E as <- <-. exact Hst.
  - cbn. intros E. injection E as <- <-. cbn. split; intros; discriminate.
Qed.

(** A server that answers the HEAD request with 404 after 80 ms. *)
Definition answers_404 : Network :=
  mkNetwork (FResolves 80 (mkResponse 404 false "" None)) FHangs.

Lemma X2_witness :
  checkUrl false None true 0 "https://example.com/gone" answers_404
  = Resolves 80 (mkResult "https://example.com/gone" SBroken None 80) /\
  exists d resp, await_fetch (net_head answers_404) = Got d resp /\
    resp_redirected resp = false /\
    (resp_status resp = 404 \/ resp_status resp = 410)%Z.
Proof.
  assert (E : checkUrl false None true 0 "https://example.com/gone" answers_404
              = Resolves 80 (mkResult "https://example.com/gone" SBroken None 80))
    by (vm_compute; reflexivity).
  split; [exact E|].
  apply (X2_checkUrl_verdicts None true 0 "https://example.com/gone" answers_404
           80 (mkResult "https://example.com/gone" SBroken None 80) E).
  reflexivity.
Defined.

Lemma processResponse_checkTime now url r :
  lc_checkTime (processResponse now url r) = now.
Proof.
  unfold processResponse.
  repeat (match goal with |- context [if ?b then _ else _] => destruct b end);
    try reflexivity; destruct (resp_location r) as [l|]; simpl; try reflexivity;
    destruct (truthy_string l); reflexivity.
Qed.

Lemma checkUrl_deadline released strict start url net t r :
  checkUrl false released strict start url net = Resolves t r ->
  (t <= start + CHECK_TIMEOUT)%Z /\ lc_checkTime r = t.
Proof.
  unfold checkUrl.
  destruct (negb (truthy_string url) || negb (startsWith url "http")).
  { intros E. injection E as <- <-. cbn. unfold CHECK_TIMEOUT. lia. }
  unfold race_check, performCheck.
  destruct (await_fetch (net_head net)) as [d resp | d m |].
  - destruct (start + d <? start + CHECK_TIMEOUT)%Z eqn:Hlt; cbn;
      intros E; injection E as <- <-.
    + apply Z.ltb_lt in Hlt. split; [lia|].
      apply processResponse_checkTime.
    + split; [lia | reflexivity].
  - destruct (_ || _).
    + unfold performCheckWithNoCors.
      destruct (await_fetch (net_get net)) as [d' resp' | d' m' |];
        repeat match goal with
               | |- context [if ?b then _ else _] =>
                   lazymatch b with
                   | (_ <? _ + CHECK_TIMEOUT)%Z => fail
                   | _ => destruct b
                   end
               end;
        match goal with
        | |- context [(?x <? start + CHECK_TIMEOUT)%Z] =>
            destruct (Z.ltb_spec x (start + CHECK_TIMEOUT))
        end; cbn; intros E; injection E as <- <-; split; try lia; reflexivity.
    + destruct (start + d <? start + CHECK_TIMEOUT)%Z eqn:Hlt; cbn;
        intros E; injection E as <- <-.
      * apply Z.ltb_lt in Hlt. split; [lia | reflexivity].
      * split; [lia | reflexivity].
  - destruct (start + ABORT_AFTER <? start + CHECK_TIMEOUT)%Z eqn:Hlt; cbn;
      intros E; injection E as <- <-.
    + apply Z.ltb_lt in Hlt. split; [lia | reflexivity].
    + split; [lia | reflexivity].
Qed.

(** X3.  A call of checkUrl that is not held by a pause settles at most
    CHECK_TIMEOUT (5000 ms) after the call, whatever the network does, and
    the checkTime of its result is the moment it settled.  A string that is
    empty or does not start with "http" is answered at once with the
    'invalid URL' error, without any request and even while paused. *)
Theorem X3_checkUrl_deadline (released : option Z) (strict : bool) (start : Z)
    (url : string) (net : Network) (t : Z) (r : LinkCheckResult) :
  checkUrl false released strict start url net = Resolves t r ->
  (t <= start + 5000)%Z /\ lc_checkTime r = t /\
  (startsWith url "http" = false ->
   forall paused net',
     checkUrl paused released strict start url net'
     = Resolves start (mkResult url SError (Some "无效的URL") start)).
Proof.
  intros E. destruct (checkUrl_deadline _ _ _ _ _ _ _ E) as [Ht Hc].
  split; [exact Ht | split; [exact Hc|]].
  intros Hinv paused net'. unfold checkUrl. rewrite Hinv.
  rewrite orb_true_r. reflexivity.
Qed.

Lemma X3_witness :
  (80 <= 0 + 5000)%Z /\
  checkUrl true None false 0 "ftp://example.com/" answers_404
  = Resolves 0 (mkResult "ftp://example.com/" SError (Some "无效的URL") 0).
Proof.
  assert (E : checkUrl false None true 0 "https://example.com/gone" answers_404
              = Resolves 80 (mkResult "https://example.com/gone" SBroken None 80))
    by (vm_compute; reflexivity).
  destruct (X3_checkUrl_deadline None true 0 "https://example.com/gone"
              answers_404 80 _ E) as (Ht & _ & _).
  split; [exact Ht|].
  assert (E' : checkUrl false None false 0 "ftp://example.com/" answers_404
              = Resolves 0 (mkResult "ftp://example.com/" SError (Some "无效的URL") 0))
    by (vm_compute; reflexivity).
  destruct (X3_checkUrl_deadline None false 0 "ftp://example.com/"
              answers_404 0 _ E') as (_ & _ & H).
  apply H. reflexivity.
Defined.

Lemma checkUrls_from_spec strict net_of urls :
  forall i start results,
  exists t rs,
    checkUrls_from strict net_of i start urls results = BatchDone t (results ++ rs) /\
    map lc_url rs = urls /\
    (t <= start + Z.of_nat (length urls) * (CHECK_TIMEOUT + BATCH_DELAY))%Z.
Proof.
  induction urls as [|url rest IH]; intros i start results.
  - exists start, []. cbn. rewrite app_nil_r. split; [reflexivity|]. split; [reflexivity | lia].
  - cbn [checkUrls_from].
    destruct (checkUrl_unpaused None strict start url (net_of i)) as (t & r & E & Hurl).
    rewrite E.
    destruct (checkUrl_deadline _ _ _ _ _ _ _ E) as [Ht _].
    destruct (IH (S i) (t + BATCH_DELAY)%Z (results ++ [r])) as (t' & rs & E' & Hrs & Ht').
    exists t', (r :: rs). rewrite E'. rewrite <- app_assoc. cbn.
    split; [reflexivity|]. split; [congruence|].
    unfold CHECK_TIMEOUT, BATCH_DELAY in *. lia.
Qed.

(** X4.  checkUrls (with no pause in force) always completes: it returns
    exactly one result per URL of its argument, in the order of the
    argument, each result carrying its URL (nothing is filtered or
    deduplicated), and it returns no later than 5200 ms per URL after the
    call, whatever the network does. *)
Theorem X4_checkUrls_complete (strict : bool) (net_of : nat -> Network)
    (start : Z) (urls : list string) :
  exists t results,
    checkUrls strict net_of start urls = BatchDone t results /\
    map lc_url results = urls /\
    (t <= start + Z.of_nat (length urls) * 5200)%Z.
Proof.
  destruct (checkUrls_from_spec strict net_of urls 0 start []) as (t & rs & E & Hrs & Ht).
  exists t, rs. split; [exact E | split; [exact Hrs | exact Ht]].
Qed.

(** *** Runs of checkAllUrls without cancel() *)









Definition two_bookmarks : list BookmarkNode :=
  [ folder "10" "News"
      [ bookmark "11" "A" "https://a.example/"; bookmark "12" "F" "ftp://f.example/" ];
    bookmark "13" "B" "https://b.example/" ].



Definition state_after (tr : list Event) (m : Machine) : Machine :=
  default m (run tr m).


(** *** cancel() before the run *)

(** [idle m]: no run of checkAllUrls has been started. *)
Definition idle (m : Machine) : Prop :=
  pc m = NotStarted /\ pauseResolver m = false /\ isChecking m = false /\
  results m = [] /\ begun (log m) = [].

Definition is_control (e : Event) : Prop :=
  e = CallCancel \/ e = CallPause \/ e = CallResume.

Lemma idle_step m e :
  idle m -> is_control e ->
  exists m', step m e = Some m' /\ idle m' /\
    (isCancelled m = true \/ e = CallCancel -> isCancelled m' = true).
Proof.
  intros (Hpc & Hres & Hchk & Hrs & Hlog) [-> | [-> | ->]]; cbn [step]; rewrite ?Hpc.
  - exists (cancel m). split; [reflexivity|]. unfold cancel. cbn. rewrite Hres.
    unfold idle. cbn. rewrite begun_snoc_cancel. auto 10.
  - exists (pause m). split; [reflexivity|]. unfold idle. cbn.
    split; [auto 10|]. intros [H|H]; [exact H | discriminate].
  - exists (resume m). split; [reflexivity|]. unfold resume. cbn. rewrite Hres.
    unfold idle. cbn. split; [auto 10|]. intros [H|H]; [exact H | discriminate].
Qed.

Lemma idle_run bookmarks tr :
  forall m m', idle m -> Forall is_control tr ->
    isCancelled m = true \/ CallCancel ∈ tr ->
    run (tr ++ [CallCheckAllUrls bookmarks]) m = Some m' ->
    pc m' = Returned [] /\ begun (log m') = [] /\ isCancelled m' = false.
Proof.
  induction tr as [|e tr IH]; intros m m' Hidle Hctl Hc Hrun.
  - destruct Hc as [Hc | Hc]; [|apply elem_of_nil in Hc; contradiction].
    destruct Hidle as (Hpc & Hres & Hchk & Hrs & Hlog).
    cbn in Hrun. rewrite Hpc in Hrun. injection Hrun as <-.
    unfold checkAllUrls. rewrite Hchk.
    rewrite loop_head_cancelled by exact Hc.
    cbn. rewrite Hrs. auto.
  - apply Forall_cons in Hctl as [He Hctl].
    destruct (idle_step m e Hidle He) as (m1 & Hstep & Hidle1 & Hc1).
    cbn [app run] in Hrun. rewrite Hstep in Hrun.
    apply (IH m1 m' Hidle1 Hctl); [|exact Hrun].
    destruct Hc as [Hc | Hc]; [left; apply Hc1; left; exact Hc|].
    apply elem_of_cons in Hc as [<- | Hc]; [left; apply Hc1; right; reflexivity|].
    right. exact Hc.
Qed.

(** X7.  A call of cancel() made while no run is in progress is not
    forgotten: the flag stays set, and the next call of checkAllUrls
    returns an empty list at once without checking any URL, whatever the
    bookmarks are (pause() and resume() in between do not change this).
    Only that run resets the flag. *)
Theorem X7_cancel_before_run_empties_it (strict : bool) (tr : list Event)
    (bookmarks : list BookmarkNode) (m : Machine) :
  Forall is_control tr ->
  CallCancel ∈ tr ->
  run (tr ++ [CallCheckAllUrls bookmarks]) (init strict) = Some m ->
  pc m = Returned [] /\ begun (log m) = [] /\ isCancelled m = false.
Proof.
  intros Hctl Hc Hrun.
  apply (idle_run bookmarks tr (init strict) m); auto.
  unfold idle. cbn. auto.
Qed.

Lemma X7_witness :
  pc (state_after [CallCancel; CallResume; CallCheckAllUrls two_bookmarks] (init false))
  = Returned [].
Proof.
  refine (proj1 (X7_cancel_before_run_empties_it false [CallCancel; CallResume]
                   two_bookmarks
                   (state_after [CallCancel; CallResume; CallCheckAllUrls two_bookmarks]
                      (init false)) _ _ _)).
  - constructor; [left; reflexivity|].
    constructor; [right; right; reflexivity|]. constructor.
  - apply elem_of_cons. left. reflexivity.
  - vm_compute. reflexivity.
Defined.

(** *** A run that nobody interrupts returns *)







End LinkCheckerMore.

(** ** Link checker: several runs, and what the page may call between
    the end of a wait and the run going on *)

Module LinkCheckerRunsFacts.
Import LinkCheckerRuns.

Lemma begun_pairs_app l l' : begun (l ++ l') = begun l ++ begun l'.
Proof. unfold begun. apply omap_app. Qed.

Lemma begun_pairs_snoc_cancel l : begun (l ++ [CancelCalled]) = begun l.
Proof. rewrite begun_pairs_app. cbn. apply app_nil_r. Qed.

#[local] Arguments begun : simpl never.

(** What putting back the locals of a run does to the list of runs. *)
Lemma store_runs r p l run :
  runs (fst p) = l -> l !! r = Some run ->
  forall r' run0, l !! r' = Some run0 ->
    exists run', runs (store r p) !! r' = Some run' /\
                 (r' = r /\ run' = snd p \/ r' <> r /\ run' = run0).
Proof.
  intros <- Hr r' run0 Hr'. unfold store. cbn [runs set_runs].
  destruct (decide (r' = r)) as [->|Hne].
  - exists (snd p). split; [|left; auto].
    apply list_lookup_insert_eq. eapply lookup_lt_Some. exact Hr.
  - exists run0. split; [|right; auto].
    rewrite list_lookup_insert_ne by congruence. exact Hr'.
Qed.

Lemma store_runs_inv r p l :
  runs (fst p) = l ->
  forall r' run', runs (store r p) !! r' = Some run' ->
    r' = r /\ run' = snd p \/ r' <> r /\ l !! r' = Some run'.
Proof.
  intros <- r' run' H. unfold store in H. cbn [runs set_runs] in H.
  apply list_lookup_insert_Some in H as [(-> & <- & _) | [Hne H]]; auto.
Qed.

(** *** pause() *)

(** The service is paused and no run is between the end of its wait at
    the top of an iteration and the check that follows it. *)
Definition held (m : Service) : Prop :=
  isPaused m = true /\
  forall r run i, runs m !! r = Some run -> pc run <> Woken i.

(** The results of a run, counting one for a check that has been begun
    and has no result yet. *)
Definition weight (run : Run) : nat :=
  length (results run) +
  match pc run with
  | AtCheckPause _ | WokenCheck _ | InFlight _ => 1
  | _ => 0
  end.

Lemma loop_head_held r i run m :
  isPaused m = true ->
  let p := loop_head r i run m in
  isPaused (fst p) = true /\ log (fst p) = log m /\ runs (fst p) = runs m /\
  (forall j, pc (snd p) <> Woken j) /\ weight (snd p) = length (results run).
Proof.
  intros Hp. unfold loop_head.
  destruct (urls run !! i) as [url|]; [destruct (isCancelled m)|].
  - cbn. unfold weight. cbn. repeat split; try exact Hp; try discriminate; lia.
  - rewrite Hp. cbn. unfold weight. cbn.
    repeat split; try exact Hp; try discriminate; lia.
  - cbn. unfold weight. cbn. repeat split; try exact Hp; try discriminate; lia.
Qed.

Lemma after_check_held r i result run m :
  isPaused m = true ->
  let p := after_check r i result run m in
  isPaused (fst p) = true /\ log (fst p) = log m /\ runs (fst p) = runs m /\
  (forall j, pc (snd p) <> Woken j) /\ weight (snd p) = S (length (results run)).
Proof.
  intros Hp. unfold after_check. cbn [urls push_result].
  destruct (i <? length (urls run) - 1)%nat.
  - cbn. unfold weight. cbn. rewrite length_app. cbn.
    repeat split; try exact Hp; try discriminate; lia.
  - destruct (loop_head_held r (S i) (push_result result run) m Hp)
      as (H1 & H2 & H3 & H4 & H5).
    repeat split; try assumption.
    rewrite H5. cbn. rewrite length_app. cbn. lia.
Qed.

(** What a step may do to the runs that exist: nothing is begun, and no
    run gains weight. *)
Definition no_gain (m m' : Service) : Prop :=
  begun (log m') = begun (log m) /\
  forall r run, runs m !! r = Some run ->
    exists run', runs m' !! r = Some run' /\ (weight run' <= weight run)%nat.

Lemma no_gain_refl m : no_gain m m.
Proof. split; [reflexivity|]. intros r run H. exists run. split; [exact H | lia]. Qed.

Lemma no_gain_trans m1 m2 m3 : no_gain m1 m2 -> no_gain m2 m3 -> no_gain m1 m3.
Proof.
  intros [H1 H2] [H3 H4]. split; [congruence|].
  intros r run H. destruct (H2 r run H) as (run2 & E2 & L2).
  destruct (H4 r run2 E2) as (run3 & E3 & L3). exists run3. split; [exact E3 | lia].
Qed.

(** A step of run [r] that keeps the service held. *)
Lemma held_store r run p m :
  held m -> runs m !! r = Some run ->
  isPaused (fst p) = true -> log (fst p) = log m -> runs (fst p) = runs m ->
  (forall j, pc (snd p) <> Woken j) -> (weight (snd p) <= weight run)%nat ->
  held (store r p) /\ no_gain m (store r p).
Proof.
  intros [Hp Hw] Hr H1 H2 H3 H4 H5. split; [split|split].
  - exact H1.
  - intros r' run' i Hr'.
    destruct (store_runs_inv r p (runs m) H3 r' run' Hr') as [[-> ->] | [_ E]].
    + apply H4.
    + eapply Hw. exact E.
  - unfold store. cbn [log set_runs]. rewrite H2. reflexivity.
  - intros r' run0 Hr'.
    destruct (store_runs r p (runs m) run H3 Hr r' run0 Hr') as (run' & E & Hcase).
    exists run'. split; [exact E|]. destruct Hcase as [[-> ->] | [_ ->]]; [|lia].
    rewrite Hr in Hr'. injection Hr' as <-. exact H5.
Qed.

(** While the service is held, no event other than resume() and cancel()
    makes a run begin a check. *)
Lemma held_step m e m' :
  e <> CallResume -> e <> CallCancel ->
  held m -> step m e = Some m' -> held m' /\ no_gain m m'.
Proof.
  intros Hr Hc Hheld Hstep. pose proof Hheld as [Hp Hw].
  destruct e as [bookmarks | | | | | enabled | r | r start net | r];
    cbn [step] in Hstep; try contradiction.
  - injection Hstep as <-. unfold checkAllUrls.
    destruct (isChecking m); [split; [exact Hheld | apply no_gain_refl]|].
    set (m0 := set_isChecking true m).
    set (run0 := mkRun _ _ _).
    destruct (loop_head_held (length (runs m0)) 0 run0 m0 Hp)
      as (H1 & H2 & H3 & H4 & H5).
    destruct (loop_head (length (runs m0)) 0 run0 m0) as [m1 run1].
    cbn [fst snd] in *. split; [split|split].
    + exact H1.
    + intros r run i Hl. cbn [runs set_runs] in Hl. rewrite H3 in Hl.
      apply lookup_snoc_Some in Hl as [[_ Hl] | [_ <-]]; [|apply H4].
      eapply Hw. exact Hl.
    + cbn [log set_runs]. rewrite H2. reflexivity.
    + intros r run Hl. exists run. split; [|lia].
      cbn [runs set_runs]. rewrite H3. apply lookup_app_l_Some. exact Hl.
  - injection Hstep as <-. split; [split; [exact Hp | exact Hw] | exact (no_gain_refl m)].
  - injection Hstep as <-. split; [split; [reflexivity | exact Hw] | exact (no_gain_refl m)].
  - injection Hstep as <-. split; [split; [exact Hp | exact Hw] | exact (no_gain_refl m)].
  - destruct (runs m !! r) as [run|] eqn:Hrun; [|discriminate].
    destruct (pc run) as [i|i|i|i|i|i|rs] eqn:Hpc; try discriminate.
    + exfalso. eapply Hw; eassumption.
    + destruct (urls run !! i) as [url|]; [|discriminate]. injection Hstep as <-.
      apply (held_store r run); try assumption; try reflexivity.
      * intros j. discriminate.
      * unfold weight. rewrite Hpc. cbn. lia.
  - destruct (runs m !! r) as [run|] eqn:Hrun; [|discriminate].
    destruct (pc run) as [i|i|i|i|i|i|rs] eqn:Hpc; try discriminate.
    destruct (urls run !! i) as [url|]; [|discriminate].
    assert (Hweight : weight run = S (length (results run)))
      by (unfold weight; rewrite Hpc; lia).
    destruct (LinkChecker.checkUrl false None (strictMode m) start url net)
      as [t result | msg |]; [| |discriminate]; injection Hstep as <-.
    + match goal with |- context [after_check r i result run ?m0] =>
        destruct (after_check_held r i result run m0) as (H1 & H2 & H3 & H4 & H5);
          [case_bool_decide; exact Hp|];
        apply (held_store r run); try assumption;
          [rewrite H2 | rewrite H3 | lia]; case_bool_decide; reflexivity
      end.
    + match goal with |- context [after_check r i ?res run m] =>
        destruct (after_check_held r i res run m Hp) as (H1 & H2 & H3 & H4 & H5)
      end.
      apply (held_store r run); try assumption. lia.
  - destruct (runs m !! r) as [run|] eqn:Hrun; [|discriminate].
    destruct (pc run) as [i|i|i|i|i|i|rs] eqn:Hpc; try discriminate.
    injection Hstep as <-.
    destruct (loop_head_held r (S i) run m Hp) as (H1 & H2 & H3 & H4 & H5).
    apply (held_store r run); try assumption. unfold weight at 2. lia.
Qed.

Lemma held_run tr :
  forall m m', Forall (fun e => e <> CallResume /\ e <> CallCancel) tr ->
    held m -> run tr m = Some m' -> no_gain m m'.
Proof.
  induction tr as [|e tr IH]; intros m m' Hno Hheld Hrun; cbn in Hrun.
  - injection Hrun as <-. apply no_gain_refl.
  - destruct (step m e) as [m1|] eqn:Hstep; [|discriminate].
    apply Forall_cons in Hno as [[Hr Hc] Hno].
    destruct (held_step m e m1 Hr Hc Hheld Hstep) as [Hheld1 Hgain].
    eapply no_gain_trans; [exact Hgain|]. eapply IH; eassumption.
Qed.

(** X6.  Let pause() be called at a moment at which no run has been
    released from its wait at the top of an iteration without having gone
    on yet (as it is right after resume()).  Then until resume() or
    cancel() is called no run begins a further check, whatever else
    happens: checks in flight settling, delays elapsing, runs going on
    after the pause check of checkUrl, calls of pause(), resetCancel() and
    setStrictMode(), new calls of checkAllUrls; and every run gains at
    most one result, that of the check it had begun. *)
Theorem X6_pause_holds_the_runs (tr : list Event) (m1 m2 : Service) :
  (forall r run i, runs m1 !! r = Some run -> pc run <> Woken i) ->
  Forall (fun e => e <> CallResume /\ e <> CallCancel) tr ->
  run (CallPause :: tr) m1 = Some m2 ->
  begun (log m2) = begun (log m1) /\
  forall r run1, runs m1 !! r = Some run1 ->
    exists run2, runs m2 !! r = Some run2 /\
                 (length (results run2) <= length (results run1) + 1)%nat.
Proof.
  intros Hw Hno Hrun. cbn [run step] in Hrun.
  assert (Hheld : held (pause m1)) by (split; [reflexivity | exact Hw]).
  destruct (held_run tr (pause m1) m2 Hno Hheld Hrun) as [Hlog Hruns].
  split; [exact Hlog|].
  intros r run1 Hr. destruct (Hruns r run1 Hr) as (run2 & E & Hle).
  exists run2. split; [exact E|]. unfold weight in Hle.
  destruct (pc run1); destruct (pc run2); lia.
Qed.

(** *** cancel() *)

Definition stopped (run : Run) : Prop := exists rs, pc run = Done rs.

(** The flag is polled at the top of the loop body: once it is set, the
    next iteration leaves the loop. *)
Lemma loop_head_breaks r i run m :
  isCancelled m = true -> loop_head r i run m = finish run m.
Proof.
  intros Hc. unfold loop_head. rewrite Hc. destruct (urls run !! i); reflexivity.
Qed.

(** [quiet r0 m]: every run other than [r0] has returned, and [r0] has
    returned, or the flag is set and [r0] is not at the top of an
    iteration, where the flag has been read. *)
Definition quiet (r0 : nat) (m : Service) : Prop :=
  forall r run, runs m !! r = Some run ->
    stopped run \/
    (r = r0 /\ isCancelled m = true /\
     forall i, pc run <> AtPause i /\ pc run <> Woken i).

Lemma release_quiet r0 r m :
  quiet r0 m -> quiet r0 (release r m) /\ log (release r m) = log m.
Proof.
  intros Hq. unfold release.
  destruct (runs m !! r) as [run|] eqn:Hrun; [|auto].
  destruct (pc run) as [i|i|i|i|i|i|rs] eqn:Hpc; auto.
  - exfalso. destruct (Hq r run Hrun) as [[rs E] | (_ & _ & H)]; [congruence|].
    destruct (H i) as [H1 _]. apply H1. exact Hpc.
  - split; [|reflexivity]. intros r' run' Hr'.
    destruct (store_runs_inv r (m, at_pc (WokenCheck i) run) (runs m) eq_refl r' run' Hr')
      as [[-> ->] | [_ E]].
    + destruct (Hq r run Hrun) as [[rs E] | (-> & Hc & H)]; [congruence|].
      right. split; [reflexivity|]. split; [exact Hc|]. intros j. cbn. split; discriminate.
    + exact (Hq r' run' E).
Qed.

Lemma call_pauseResolver_quiet r0 m :
  (forall o, quiet r0 (set_pauseResolver o m)) ->
  quiet r0 (call_pauseResolver m) /\ log (call_pauseResolver m) = log m.
Proof.
  intros Hq. unfold call_pauseResolver. destruct (pauseResolver m) as [r|].
  - destruct (release_quiet r0 r _ (Hq None)) as [H1 H2]. split; [exact H1|].
    rewrite H2. reflexivity.
  - split; [exact (Hq (pauseResolver m)) | reflexivity].
Qed.

(** A step of run [r0] that keeps the service quiet. *)
Lemma quiet_store r0 run p m :
  quiet r0 m -> runs m !! r0 = Some run ->
  log (fst p) = log m -> runs (fst p) = runs m ->
  (stopped (snd p) \/
   isCancelled (fst p) = true /\ forall i, pc (snd p) <> AtPause i /\ pc (snd p) <> Woken i) ->
  (isCancelled (fst p) = true \/ stopped (snd p)) ->
  quiet r0 (store r0 p) /\ begun (log (store r0 p)) = begun (log m).
Proof.
  intros Hq Hr H2 H3 H4 H5. split.
  - intros r' run' Hr'.
    destruct (store_runs_inv r0 p (runs m) H3 r' run' Hr') as [[-> ->] | [Hne E]].
    + destruct H4 as [Hs | [Hc Hpc]]; [left; exact Hs|].
      right. split; [reflexivity|]. split; [exact Hc | exact Hpc].
    + destruct (Hq r' run' E) as [Hs | (-> & _)]; [left; exact Hs | contradiction].
  - unfold store. cbn [log set_runs]. rewrite H2. reflexivity.
Qed.

Lemma after_check_quiet r i result run m :
  isCancelled m = true ->
  let p := after_check r i result run m in
  log (fst p) = log m /\ runs (fst p) = runs m /\
  (stopped (snd p) \/
   isCancelled (fst p) = true /\ forall j, pc (snd p) <> AtPause j /\ pc (snd p) <> Woken j).
Proof.
  intros Hc. unfold after_check. cbn [urls push_result].
  destruct (i <? length (urls run) - 1)%nat.
  - cbn. split; [reflexivity|]. split; [reflexivity|]. right.
    split; [exact Hc|]. intros j. split; discriminate.
  - rewrite loop_head_breaks by exact Hc. cbn.
    split; [reflexivity|]. split; [reflexivity|]. left. eexists. reflexivity.
Qed.

(** In a quiet state no event other than resetCancel() and a new call of
    checkAllUrls makes a run begin a check. *)
Lemma quiet_step r0 m e m' :
  e <> CallResetCancel -> (forall bookmarks, e <> CallCheckAllUrls bookmarks) ->
  quiet r0 m -> step m e = Some m' ->
  quiet r0 m' /\ begun (log m') = begun (log m).
Proof.
  intros Hreset Hcall Hq Hstep.
  assert (Hrun0 : forall r run, runs m !! r = Some run ->
            (forall rs, pc run <> Done rs) ->
            r = r0 /\ isCancelled m = true /\
            forall i, pc run <> AtPause i /\ pc run <> Woken i).
  { intros r run Hr Hnd. destruct (Hq r run Hr) as [[rs E] | H]; [|exact H].
    exfalso. eapply Hnd. exact E. }
  destruct e as [bookmarks | | | | | enabled | r | r start net | r];
    cbn [step] in Hstep; try contradiction.
  - exfalso. eapply Hcall. reflexivity.
  - injection Hstep as <-. unfold cancel.
    match goal with |- context [call_pauseResolver ?m0] =>
      destruct (call_pauseResolver_quiet r0 m0) as [H1 H2] end.
    { intros o r run Hr. cbn in Hr. destruct (Hq r run Hr) as [Hs | (E & _ & Hpc)];
        [left; exact Hs | right]. split; [exact E|]. split; [reflexivity | exact Hpc]. }
    split; [exact H1|]. rewrite H2. cbn [log]. apply begun_pairs_snoc_cancel.
  - injection Hstep as <-. split; [exact Hq | reflexivity].
  - injection Hstep as <-. unfold resume.
    match goal with |- context [call_pauseResolver ?m0] =>
      destruct (call_pauseResolver_quiet r0 m0) as [H1 H2] end.
    { intros o. exact Hq. }
    split; [exact H1|]. rewrite H2. reflexivity.
  - injection Hstep as <-. split; [exact Hq | reflexivity].
  - destruct (runs m !! r) as [run|] eqn:Hrun; [|discriminate].
    destruct (pc run) as [i|i|i|i|i|i|rs] eqn:Hpc; try discriminate.
    + exfalso. destruct (Hrun0 r run Hrun) as (_ & _ & H); [congruence|].
      destruct (H i) as [_ H2]. apply H2. exact Hpc.
    + destruct (urls run !! i) as [url|]; [|discriminate]. injection Hstep as <-.
      destruct (Hrun0 r run Hrun) as (-> & Hc & _); [congruence|].
      apply (quiet_store r0 run); try assumption; try reflexivity.
      * right. split; [exact Hc|]. intros j. split; discriminate.
      * left. exact Hc.
  - destruct (runs m !! r) as [run|] eqn:Hrun; [|discriminate].
    destruct (pc run) as [i|i|i|i|i|i|rs] eqn:Hpc; try discriminate.
    destruct (urls run !! i) as [url|]; [|discriminate].
    destruct (Hrun0 r run Hrun) as (-> & Hc & _); [congruence|].
    destruct (LinkChecker.checkUrl false None (strictMode m) start url net)
      as [t result | msg |]; [| |discriminate]; injection Hstep as <-.
    + match goal with |- context [after_check r0 i result run ?m0] =>
        destruct (after_check_quiet r0 i result run m0) as (H1 & H2 & H3);
          [case_bool_decide; exact Hc|];
        apply (quiet_store r0 run); try assumption;
          [rewrite H1 | rewrite H2 | destruct H3 as [H3 | [H3 _]]; auto];
          case_bool_decide; reflexivity
      end.
    + match goal with |- context [after_check r0 i ?res run m] =>
        destruct (after_check_quiet r0 i res run m Hc) as (H1 & H2 & H3)
      end.
      apply (quiet_store r0 run); try assumption.
      destruct H3 as [H3 | [H3 _]]; auto.
  - destruct (runs m !! r) as [run|] eqn:Hrun; [|discriminate].
    destruct (pc run) as [i|i|i|i|i|i|rs] eqn:Hpc; try discriminate.
    injection Hstep as <-.
    destruct (Hrun0 r run Hrun) as (-> & Hc & _); [congruence|].
    rewrite loop_head_breaks by exact Hc.
    apply (quiet_store r0 run); try assumption; try reflexivity.
    + left. eexists. reflexivity.
    + right. eexists. reflexivity.
Qed.

Lemma quiet_run r0 tr :
  forall m m',
    Forall (fun e => e <> CallResetCancel /\
                     forall bookmarks, e <> CallCheckAllUrls bookmarks) tr ->
    quiet r0 m -> run tr m = Some m' -> begun (log m') = begun (log m).
Proof.
  induction tr as [|e tr IH]; intros m m' Hno Hq Hrun; cbn in Hrun.
  - injection Hrun as <-. reflexivity.
  - destruct (step m e) as [m1|] eqn:Hstep; [|discriminate].
    apply Forall_cons in Hno as [[Hr Hc] Hno].
    destruct (quiet_step r0 m e m1 Hr Hc Hq Hstep) as [Hq1 Hl].
    rewrite <- Hl. eapply IH; eassumption.
Qed.

(** *** What a run has begun and what it returns *)

Lemma begun_by_app r l l' : begun_by r (l ++ l') = begun_by r l ++ begun_by r l'.
Proof. unfold begun_by. apply omap_app. Qed.

(** The entries that run [r] adds to the log. *)
Definition by_run (r : nat) (extra : list Entry) : Prop :=
  Forall (fun e => exists u, e = Began r u) extra.

Lemma begun_by_other r r' extra :
  by_run r extra -> r' <> r -> begun_by r' extra = [].
Proof.
  intros H Hne. induction H as [|e extra [u ->] _ IH]; [reflexivity|].
  cbn. destruct (Nat.eqb_spec r r') as [E|_]; [congruence | exact IH].
Qed.

Lemma begun_by_snoc r l u : begun_by r (l ++ [Began r u]) = begun_by r l ++ [u].
Proof. rewrite begun_by_app. cbn. rewrite Nat.eqb_refl. reflexivity. Qed.

Lemma begun_by_snoc_cancel r l : begun_by r (l ++ [CancelCalled]) = begun_by r l.
Proof. rewrite begun_by_app. cbn. apply app_nil_r. Qed.

Lemma begun_by_none r l :
  Forall (fun e => match e with
                   | Began r' _ => r' <> r
                   | CancelCalled => True
                   end) l ->
  begun_by r l = [].
Proof.
  intros H. induction H as [|e l He _ IH]; [reflexivity|].
  cbn. destruct e as [r' u|]; [|exact IH].
  destruct (Nat.eqb_spec r' r) as [E|_]; [contradiction | exact IH].
Qed.

#[local] Arguments begun_by : simpl never.

(** The results of run [r] and the checks it has begun, at each point:
    [i] checks have a result, and the check of [urls[i]] has been begun or
    not. *)
Definition locals_ok (r : nat) (l : list Entry) (run : Run) : Prop :=
  let U := urls run in
  let R := map lc_url (results run) in
  let B := begun_by r l in
  match pc run with
  | AtPause i | Woken i => (i < length U)%nat /\ R = take i U /\ B = take i U
  | AtCheckPause i | WokenCheck i | InFlight i =>
      (i < length U)%nat /\ R = take i U /\ B = take (S i) U
  | Delay i => (S i < length U)%nat /\ R = take (S i) U /\ B = take (S i) U
  | Done rs => rs = results run /\ R = B /\ B = take (length rs) U
  end.

(** Every run satisfies it, and the log names only runs that exist. *)
Definition RunsInv (m : Service) : Prop :=
  (forall r run, runs m !! r = Some run -> locals_ok r (log m) run) /\
  Forall (fun e => match e with
                   | Began r _ => (r < length (runs m))%nat
                   | CancelCalled => True
                   end) (log m).

Lemma locals_ok_ext r l l' run :
  begun_by r l' = begun_by r l -> locals_ok r l run -> locals_ok r l' run.
Proof. unfold locals_ok. intros ->. exact (fun H => H). Qed.

(** The run is at the top of iteration [i]. *)
Definition at_top (i r : nat) (l : list Entry) (run : Run) : Prop :=
  (i <= length (urls run))%nat /\
  map lc_url (results run) = take i (urls run) /\
  begun_by r l = take i (urls run).

(** What the code of run [r] does between two suspensions: it adds
    entries of its own to the log, leaves the list of runs alone, and
    ends at a point at which its locals satisfy [locals_ok]. *)
Definition run_step (r : nat) (m : Service) (p : Service * Run) : Prop :=
  exists extra, log (fst p) = log m ++ extra /\ by_run r extra /\
                runs (fst p) = runs m /\ locals_ok r (log (fst p)) (snd p).

Lemma finish_run_step i r run m :
  at_top i r (log m) run -> run_step r m (finish run m).
Proof.
  intros (Hle & HR & HB). exists []. cbn. rewrite app_nil_r.
  split; [reflexivity|]. split; [constructor|]. split; [reflexivity|].
  unfold locals_ok. cbn. split; [reflexivity|]. split; [congruence|].
  rewrite HB. f_equal.
  rewrite <- (length_map lc_url), HR, length_take. lia.
Qed.

Lemma begin_check_run_step i r url run m :
  at_top i r (log m) run -> urls run !! i = Some url ->
  run_step r m (begin_check r i url run m).
Proof.
  intros (Hle & HR & HB) Hurl. exists [Began r url].
  assert (Hlt : (i < length (urls run))%nat) by (eapply lookup_lt_Some; exact Hurl).
  assert (HB' : begun_by r (log m ++ [Began r url]) = take (S i) (urls run)).
  { rewrite begun_by_snoc, HB, (take_S_r _ _ _ Hurl). reflexivity. }
  assert (Hby : by_run r [Began r url]) by (constructor; [eauto | constructor]).
  unfold begin_check. cbn [isPaused add_log].
  destruct (negb (truthy_string url) || negb (startsWith url "http"));
    [|destruct (isPaused m)]; cbn;
    (split; [reflexivity|]); (split; [exact Hby|]); (split; [reflexivity|]);
    unfold locals_ok; cbn; auto.
Qed.

Lemma loop_head_run_step i r run m :
  at_top i r (log m) run -> run_step r m (loop_head r i run m).
Proof.
  intros Hat. unfold loop_head.
  destruct (urls run !! i) as [url|] eqn:Hurl; [|eapply finish_run_step; exact Hat].
  destruct (isCancelled m); [eapply finish_run_step; exact Hat|].
  destruct (isPaused m); [|apply begin_check_run_step; assumption].
  exists []. cbn. rewrite app_nil_r.
  split; [reflexivity|]. split; [constructor|]. split; [reflexivity|].
  destruct Hat as (Hle & HR & HB). unfold locals_ok. cbn.
  split; [eapply lookup_lt_Some; exact Hurl | auto].
Qed.

Lemma after_check_run_step i r url result run m :
  locals_ok r (log m) run -> pc run = InFlight i -> urls run !! i = Some url ->
  lc_url result = url ->
  run_step r m (after_check r i result run m).
Proof.
  unfold locals_ok. intros HI Hpc Hurl Hres. rewrite Hpc in HI.
  destruct HI as (Hlt & HR & HB).
  assert (Hat : at_top (S i) r (log m) (push_result result run)).
  { split; [cbn; lia|]. split; [|exact HB].
    cbn. rewrite List.map_app, HR, (take_S_r _ _ _ Hurl). cbn. rewrite Hres.
    reflexivity. }
  unfold after_check. cbn [urls push_result].
  destruct (Nat.ltb_spec i (length (urls run) - 1)) as [Hi|_];
    [|apply loop_head_run_step; exact Hat].
  exists []. cbn. rewrite app_nil_r.
  split; [reflexivity|]. split; [constructor|]. split; [reflexivity|].
  destruct Hat as (_ & HR' & HB'). unfold locals_ok. cbn.
  split; [lia | split; [exact HR' | exact HB']].
Qed.

Lemma store_keeps_inv r run p m :
  RunsInv m -> runs m !! r = Some run -> run_step r m p -> RunsInv (store r p).
Proof.
  intros [Hruns Hlog] Hr (extra & Hl & Hby & Hrs & Hinv). split.
  - intros r' run' Hr'.
    destruct (store_runs_inv r p (runs m) Hrs r' run' Hr') as [[-> ->] | [Hne E]].
    + exact Hinv.
    + apply (locals_ok_ext r' (log m)); [|apply Hruns; exact E].
      unfold store. cbn [log set_runs]. rewrite Hl, begun_by_app.
      rewrite (begun_by_other r r' extra Hby Hne). apply app_nil_r.
  - unfold store. cbn [log runs set_runs]. rewrite Hl, length_insert, Hrs.
    apply Forall_app. split; [exact Hlog|].
    eapply Forall_impl; [exact Hby|]. intros e [u ->].
    eapply lookup_lt_Some. exact Hr.
Qed.

Lemma fields_keep_inv m m' :
  runs m' = runs m -> (forall r, begun_by r (log m') = begun_by r (log m)) ->
  Forall (fun e => match e with
                   | Began r _ => (r < length (runs m))%nat
                   | CancelCalled => True
                   end) (log m') ->
  RunsInv m -> RunsInv m'.
Proof.
  intros Hr Hb Hl [Hruns _]. split.
  - intros r run E. rewrite Hr in E. eapply locals_ok_ext; [apply Hb | apply Hruns; exact E].
  - rewrite Hr. exact Hl.
Qed.

Lemma release_keeps_inv r m : RunsInv m -> RunsInv (release r m).
Proof.
  intros HI. unfold release.
  destruct (runs m !! r) as [run|] eqn:Hrun; [|exact HI].
  pose proof (proj1 HI r run Hrun) as Hinv. unfold locals_ok in Hinv.
  destruct (pc run) as [i|i|i|i|i|i|rs] eqn:Hpc; try exact HI.
  - apply (store_keeps_inv r run _ m HI Hrun). exists []. cbn. rewrite app_nil_r.
    split; [reflexivity|]. split; [constructor|]. split; [reflexivity|].
    unfold locals_ok. cbn. exact Hinv.
  - apply (store_keeps_inv r run _ m HI Hrun). exists []. cbn. rewrite app_nil_r.
    split; [reflexivity|]. split; [constructor|]. split; [reflexivity|].
    unfold locals_ok. cbn. exact Hinv.
Qed.

Lemma call_pauseResolver_keeps_inv m : RunsInv m -> RunsInv (call_pauseResolver m).
Proof.
  intros HI. unfold call_pauseResolver. destruct (pauseResolver m) as [r|]; [|exact HI].
  apply release_keeps_inv. exact HI.
Qed.

Lemma begun_by_fresh r m :
  RunsInv m -> (length (runs m) <= r)%nat -> begun_by r (log m) = [].
Proof.
  intros [_ Hlog] Hle. apply begun_by_none.
  eapply Forall_impl; [exact Hlog|]. intros [r' u|]; [lia | auto].
Qed.

Lemma step_keeps_inv m e m' : RunsInv m -> step m e = Some m' -> RunsInv m'.
Proof.
  intros HI Hstep.
  destruct e as [bookmarks | | | | | enabled | r | r start net | r];
    cbn [step] in Hstep.
  - injection Hstep as <-. unfold checkAllUrls.
    destruct (isChecking m); [exact HI|].
    set (m0 := set_isChecking true m).
    set (run0 := mkRun _ _ _).
    assert (Hat : at_top 0 (length (runs m0)) (log m0) run0).
    { split; [lia|]. split; [reflexivity|].
      rewrite take_0. apply (begun_by_fresh _ m HI). reflexivity. }
    destruct (loop_head_run_step 0 (length (runs m0)) run0 m0 Hat)
      as (extra & Hl & Hby & Hrs & Hinv).
    destruct (loop_head (length (runs m0)) 0 run0 m0) as [m1 run1].
    cbn [fst snd] in *. destruct HI as [Hruns Hlog]. split.
    + intros r run Hr. cbn [runs log set_runs] in *. rewrite Hrs in Hr.
      apply lookup_snoc_Some in Hr as [[Hlt Hr] | [-> <-]]; [|exact Hinv].
      apply (locals_ok_ext r (log m)); [|apply Hruns; exact Hr].
      rewrite Hl, begun_by_app, (begun_by_other _ r extra Hby); [apply app_nil_r|].
      subst m0. cbn in Hlt |- *. lia.
    + cbn [runs log set_runs]. rewrite Hl, Hrs, length_app. cbn.
      apply Forall_app. split.
      * eapply Forall_impl; [exact Hlog|]. intros [r u|]; cbn; [lia | auto].
      * eapply Forall_impl; [exact Hby|]. intros e [u ->]. subst m0. cbn. lia.
  - injection Hstep as <-. unfold cancel. apply call_pauseResolver_keeps_inv.
    apply (fields_keep_inv m); [reflexivity | | | exact HI].
    + intros r. cbn. apply begun_by_snoc_cancel.
    + cbn. apply Forall_app. split; [exact (proj2 HI) | repeat constructor].
  - injection Hstep as <-. exact HI.
  - injection Hstep as <-. exact HI.
  - injection Hstep as <-. unfold resume. apply call_pauseResolver_keeps_inv. exact HI.
  - injection Hstep as <-. exact HI.
  - destruct (runs m !! r) as [run|] eqn:Hrun; [|discriminate].
    pose proof (proj1 HI r run Hrun) as Hinv. unfold locals_ok in Hinv.
    destruct (pc run) as [i|i|i|i|i|i|rs] eqn:Hpc; try discriminate.
    + destruct (urls run !! i) as [url|] eqn:Hurl; [|discriminate].
      injection Hstep as <-. apply (store_keeps_inv r run _ m HI Hrun).
      apply begin_check_run_step; [|exact Hurl].
      destruct Hinv as (Hlt & HR & HB). split; [lia | auto].
    + destruct (urls run !! i) as [url|] eqn:Hurl; [|discriminate].
      injection Hstep as <-. apply (store_keeps_inv r run _ m HI Hrun).
      exists []. cbn. rewrite app_nil_r.
      split; [reflexivity|]. split; [constructor|]. split; [reflexivity|].
      unfold locals_ok. cbn. exact Hinv.
  - destruct (runs m !! r) as [run|] eqn:Hrun; [|discriminate].
    pose proof (proj1 HI r run Hrun) as Hinv.
    destruct (pc run) as [i|i|i|i|i|i|rs] eqn:Hpc; try discriminate.
    destruct (urls run !! i) as [url|] eqn:Hurl; [|discriminate].
    destruct (LinkChecker.checkUrl false None (strictMode m) start url net)
      as [t result | msg |] eqn:Hcheck; [| |discriminate]; injection Hstep as <-.
    + match goal with |- RunsInv (store r (after_check r i result run ?m0)) =>
        apply (store_keeps_inv r run _ m0);
          [case_bool_decide; exact HI | case_bool_decide; exact Hrun |];
        apply (after_check_run_step i r url);
          [case_bool_decide; exact Hinv | exact Hpc | exact Hurl |]
      end.
      eapply LinkCheckerFacts.checkUrl_result_url. exact Hcheck.
    + apply (store_keeps_inv r run _ m HI Hrun).
      apply (after_check_run_step i r url); auto.
  - destruct (runs m !! r) as [run|] eqn:Hrun; [|discriminate].
    pose proof (proj1 HI r run Hrun) as Hinv. unfold locals_ok in Hinv.
    destruct (pc run) as [i|i|i|i|i|i|rs] eqn:Hpc; try discriminate.
    injection Hstep as <-. apply (store_keeps_inv r run _ m HI Hrun).
    apply loop_head_run_step. destruct Hinv as (Hlt & HR & HB). split; [lia | auto].
Qed.

Lemma run_keeps_inv tr : forall m m', RunsInv m -> run tr m = Some m' -> RunsInv m'.
Proof.
  induction tr as [|e tr IH]; intros m m' HI Hrun; cbn in Hrun.
  - injection Hrun as <-. exact HI.
  - destruct (step m e) as [m1|] eqn:Hstep; [|discriminate].
    eapply IH; [|exact Hrun]. eapply step_keeps_inv; eassumption.
Qed.

Lemma init_has_inv strict : RunsInv (init strict).
Proof. split; [intros r run H; discriminate H | constructor]. Qed.

(** X27.  The flag is polled at the top of each iteration.  Let cancel()
    be called when at most one run has not returned, and that run is not
    between the top of an iteration, where the flag has been read, and
    the check of that iteration (it is not waiting there for a pause to
    end, nor released from that wait without having gone on).  Then, as
    long as neither resetCancel() nor checkAllUrls is called, no further
    check is begun, whatever else happens.  (Until cancel() is called for
    the first time at most one run has not returned: lemma
    [one_run_until_cancel].)  In every history, the results
    that a run returns are the results of exactly the checks that it has
    begun, and their URLs are an initial part of its URL list. *)
Theorem X27_cancel_is_polled (strict : bool) (r0 : nat) (tr1 tr2 : list Event)
    (m1 m2 : Service) :
  run tr1 (init strict) = Some m1 ->
  run (CallCancel :: tr2) m1 = Some m2 ->
  ((forall r run, runs m1 !! r = Some run -> r <> r0 -> stopped run) ->
   (forall run i, runs m1 !! r0 = Some run ->
                  pc run <> AtPause i /\ pc run <> Woken i) ->
   Forall (fun e => e <> CallResetCancel /\
                    forall bookmarks, e <> CallCheckAllUrls bookmarks) tr2 ->
   begun (log m2) = begun (log m1)) /\
  (forall r run rs, runs m2 !! r = Some run -> pc run = Done rs ->
     map lc_url rs = begun_by r (log m2) /\
     begun_by r (log m2) = take (length rs) (urls run)).
Proof.
  intros Hrun1 Hrun2. split.
  - intros Hothers Hr0 Hno. cbn [run step] in Hrun2.
    assert (Hq : quiet r0 (cancel m1) /\ begun (log (cancel m1)) = begun (log m1)).
    { unfold cancel.
      match goal with |- context [call_pauseResolver ?m0] =>
        destruct (call_pauseResolver_quiet r0 m0) as [H1 H2] end.
      { intros o r run Hr. cbn in Hr. destruct (decide (r = r0)) as [->|Hne].
        - right. split; [reflexivity|]. split; [reflexivity|].
          intros i. apply Hr0. exact Hr.
        - left. eapply Hothers; eassumption. }
      split; [exact H1|]. rewrite H2. cbn [log]. apply begun_pairs_snoc_cancel. }
    destruct Hq as [Hq Hl]. rewrite <- Hl. eapply quiet_run; eassumption.
  - intros r run rs Hr Hpc.
    assert (HI : RunsInv m2).
    { eapply run_keeps_inv; [|exact Hrun2].
      eapply run_keeps_inv; [apply init_has_inv | exact Hrun1]. }
    pose proof (proj1 HI r run Hr) as Hinv. unfold locals_ok in Hinv.
    rewrite Hpc in Hinv. destruct Hinv as (-> & H1 & H2). auto.
Qed.

(** *** One run at a time, until cancel()

    [isChecking] guards checkAllUrls, and only cancel() unsets it while a
    run is under way: in a history without cancel() every run but the last
    has returned, and the last has returned unless [isChecking] is set. *)
Definition one_at_a_time (m : Service) : Prop :=
  forall r run, runs m !! r = Some run ->
    stopped run \/ (isChecking m = true /\ S r = length (runs m)).

(** The code of a run between two suspensions leaves [isChecking] alone
    unless the run returns. *)
Definition keeps_guard (m : Service) (p : Service * Run) : Prop :=
  runs (fst p) = runs m /\ (stopped (snd p) \/ isChecking (fst p) = isChecking m).

Lemma finish_keeps_guard run m : keeps_guard m (finish run m).
Proof. split; [reflexivity|]. left. eexists. reflexivity. Qed.

Lemma begin_check_keeps_guard r i url run m : keeps_guard m (begin_check r i url run m).
Proof.
  unfold begin_check. cbn [isPaused add_log].
  destruct (negb (truthy_string url) || negb (startsWith url "http"));
    [|destruct (isPaused m)]; (split; [reflexivity | right; reflexivity]).
Qed.

Lemma loop_head_keeps_guard r i run m : keeps_guard m (loop_head r i run m).
Proof.
  unfold loop_head. destruct (urls run !! i); [|apply finish_keeps_guard].
  destruct (isCancelled m); [apply finish_keeps_guard|].
  destruct (isPaused m); [|apply begin_check_keeps_guard].
  split; [reflexivity | right; reflexivity].
Qed.

Lemma after_check_keeps_guard r i result run m :
  keeps_guard m (after_check r i result run m).
Proof.
  unfold after_check. cbn [urls push_result].
  destruct (i <? length (urls run) - 1)%nat; [|apply loop_head_keeps_guard].
  split; [reflexivity | right; reflexivity].
Qed.

Lemma one_at_a_time_store r run p m :
  one_at_a_time m -> runs m !! r = Some run -> ~ stopped run ->
  keeps_guard m p -> one_at_a_time (store r p).
Proof.
  intros H1 Hr Hactive [Hrs Hguard] r' run' Hr'.
  destruct (H1 r run Hr) as [Hs | [Hc Hlast]]; [contradiction|].
  assert (Hlen : length (runs (store r p)) = length (runs m))
    by (unfold store; cbn [runs set_runs]; rewrite length_insert, Hrs; reflexivity).
  destruct (store_runs_inv r p (runs m) Hrs r' run' Hr') as [[-> ->] | [Hne E]].
  - destruct Hguard as [Hs | Hsame]; [left; exact Hs | right].
    split; [change (isChecking (fst p) = true); congruence | congruence].
  - destruct (H1 r' run' E) as [Hs | [_ Hlast']]; [left; exact Hs | lia].
Qed.

Lemma release_one r m : one_at_a_time m -> one_at_a_time (release r m).
Proof.
  intros H1. unfold release.
  destruct (runs m !! r) as [run|] eqn:Hrun; [|exact H1].
  destruct (pc run) as [i|i|i|i|i|i|rs] eqn:Hpc; try exact H1;
    (apply (one_at_a_time_store r run _ m);
       [exact H1 | exact Hrun | intros [rs E]; congruence
       | split; [reflexivity | right; reflexivity]]).
Qed.

Lemma call_pauseResolver_one m :
  one_at_a_time m -> one_at_a_time (call_pauseResolver m).
Proof.
  intros H1. unfold call_pauseResolver. destruct (pauseResolver m) as [r|]; [|exact H1].
  apply release_one. exact H1.
Qed.

Lemma one_at_a_time_step m e m' :
  e <> CallCancel -> one_at_a_time m -> step m e = Some m' -> one_at_a_time m'.
Proof.
  intros Hc H1 Hstep.
  destruct e as [bookmarks | | | | | enabled | r | r start net | r];
    cbn [step] in Hstep; try contradiction.
  - injection Hstep as <-. unfold checkAllUrls.
    destruct (isChecking m) eqn:Hchecking; [exact H1|].
    set (m0 := set_isChecking true m).
    set (run0 := mkRun _ _ _).
    destruct (loop_head_keeps_guard (length (runs m0)) 0 run0 m0) as [Hrs Hguard].
    destruct (loop_head (length (runs m0)) 0 run0 m0) as [m1 run1].
    cbn [fst snd] in *. intros r run Hr. cbn [runs isChecking set_runs] in *.
    rewrite Hrs in Hr. rewrite Hrs, length_app. cbn [length].
    apply lookup_snoc_Some in Hr as [[_ Hr] | [-> <-]].
    + destruct (H1 r run Hr) as [Hs | [Hc' _]]; [left; exact Hs | congruence].
    + destruct Hguard as [Hs | Hsame]; [left; exact Hs | right].
      split; [rewrite Hsame; reflexivity | subst m0; cbn; lia].
  - injection Hstep as <-. exact H1.
  - injection Hstep as <-. exact H1.
  - injection Hstep as <-. unfold resume. apply call_pauseResolver_one. exact H1.
  - injection Hstep as <-. exact H1.
  - destruct (runs m !! r) as [run|] eqn:Hrun; [|discriminate].
    destruct (pc run) as [i|i|i|i|i|i|rs] eqn:Hpc; try discriminate;
      (destruct (urls run !! i) as [url|]; [|discriminate]); injection Hstep as <-;
      (apply (one_at_a_time_store r run _ m);
         [exact H1 | exact Hrun | intros [rs E]; congruence |]).
    + apply begin_check_keeps_guard.
    + split; [reflexivity | right; reflexivity].
  - destruct (runs m !! r) as [run|] eqn:Hrun; [|discriminate].
    destruct (pc run) as [i|i|i|i|i|i|rs] eqn:Hpc; try discriminate.
    destruct (urls run !! i) as [url|]; [|discriminate].
    destruct (LinkChecker.checkUrl false None (strictMode m) start url net)
      as [t result | msg |]; [| |discriminate]; injection Hstep as <-.
    + match goal with |- context [after_check r i result run ?m0] =>
        apply (one_at_a_time_store r run _ m0);
          [case_bool_decide; exact H1 | case_bool_decide; exact Hrun
          | intros [rs E]; congruence | apply after_check_keeps_guard]
      end.
    + apply (one_at_a_time_store r run _ m);
        [exact H1 | exact Hrun | intros [rs E]; congruence
        | apply after_check_keeps_guard].
  - destruct (runs m !! r) as [run|] eqn:Hrun; [|discriminate].
    destruct (pc run) as [i|i|i|i|i|i|rs] eqn:Hpc; try discriminate.
    injection Hstep as <-.
    apply (one_at_a_time_store r run _ m);
      [exact H1 | exact Hrun | intros [rs E]; congruence | apply loop_head_keeps_guard].
Qed.

(** Until cancel() is called for the first time, at most one run has not
    returned: the last one. *)
Lemma one_run_until_cancel strict tr :
  forall m, Forall (fun e => e <> CallCancel) tr ->
    run tr (init strict) = Some m ->
    forall r run, runs m !! r = Some run -> S r <> length (runs m) -> stopped run.
Proof.
  assert (H : forall m0 m, one_at_a_time m0 ->
                Forall (fun e => e <> CallCancel) tr ->
                run tr m0 = Some m -> one_at_a_time m).
  { induction tr as [|e tr IH]; intros m0 m H0 Hno Hrun; cbn in Hrun.
    - injection Hrun as <-. exact H0.
    - destruct (step m0 e) as [m1|] eqn:Hstep; [|discriminate].
      apply Forall_cons in Hno as [Hc Hno].
      eapply IH; [|exact Hno | exact Hrun].
      eapply one_at_a_time_step; eassumption. }
  intros m Hno Hrun r run Hr Hlast.
  destruct (H (init strict) m) with (r := r) (run := run) as [Hs | [_ E]];
    try assumption; [intros r' run' E; discriminate E | contradiction].
Qed.

(** *** Evaluation on two bookmarks *)

Definition service_after (tr : list Event) (m : Service) : Service :=
  default m (run tr m).

(** The first check is in flight. *)
Definition first_in_flight : list Event :=
  [CallCheckAllUrls LinkCheckerFacts.demo_bookmarks; Continue 0].

(** pause() arrives while the first check is in flight; the check
    settles, the delay elapses, and the run waits at the top of the second
    iteration. *)
Definition paused_at_second : list Event :=
  first_in_flight ++
  [CallPause; CheckSettles 0 0 LinkCheckerFacts.answers_ok; DelayElapsed 0].

Lemma X6_witness :
  begun (log (service_after paused_at_second (init false)))
  = [(0%nat, "https://a.example/")].
Proof.
  refine (eq_trans
            (proj1 (X6_pause_holds_the_runs
                      [CheckSettles 0 0 LinkCheckerFacts.answers_ok; DelayElapsed 0]
                      (service_after first_in_flight (init false))
                      (service_after paused_at_second (init false))
                      _ _ _)) _).
  - intros r run i H. vm_compute in H.
    destruct r; [injection H as <-; discriminate | discriminate H].
  - repeat constructor; discriminate.
  - vm_compute. reflexivity.
  - vm_compute. reflexivity.
Defined.

(** resume() and pause() in one task: the run that resume() has released
    goes on after the call of pause(), and calls checkUrl for the second
    URL while the service is paused; the check then waits in checkUrl. *)
Example resume_then_pause :
  let m1 := service_after (paused_at_second ++ [CallResume]) (init false) in
  let m2 := service_after [CallPause; Continue 0] m1 in
  pc <$> runs m1 !! 0%nat = Some (Woken 1) /\
  begun (log m1) = [(0%nat, "https://a.example/")] /\
  isPaused m2 = true /\
  pc <$> runs m2 !! 0%nat = Some (AtCheckPause 1) /\
  begun (log m2) = [(0%nat, "https://a.example/"); (0%nat, "https://b.example/")].
Proof. vm_compute. repeat split. Qed.

Lemma X27_witness :
  let m1 := service_after first_in_flight (init false) in
  let m2 := service_after
              [CallCancel; CheckSettles 0 0 LinkCheckerFacts.answers_ok; DelayElapsed 0]
              m1 in
  begun (log m2) = begun (log m1) /\
  begun_by 0 (log m2) = ["https://a.example/"] /\
  (map lc_url <$> (results <$> runs m2 !! 0%nat)) = Some ["https://a.example/"].
Proof.
  cbv zeta.
  pose proof (X27_cancel_is_polled false 0 first_in_flight
                [CheckSettles 0 0 LinkCheckerFacts.answers_ok; DelayElapsed 0]
                (service_after first_in_flight (init false))
                (service_after
                   [CallCancel; CheckSettles 0 0 LinkCheckerFacts.answers_ok;
                    DelayElapsed 0]
                   (service_after first_in_flight (init false)))) as H.
  destruct H as [Hno Hret]; [vm_compute; reflexivity | vm_compute; reflexivity |].
  split; [|split].
  - apply Hno.
    + intros r run H Hne. vm_compute in H.
      destruct r; [contradiction | discriminate H].
    + intros run i H. vm_compute in H. injection H as <-. split; discriminate.
    + repeat constructor; discriminate.
  - vm_compute. reflexivity.
  - vm_compute. reflexivity.
Defined.

(** cancel() and then checkAllUrls: cancel() has unset [isChecking], so
    that the new call is accepted; it finds the flag set, leaves its loop
    at once, and its [finally] block unsets the flag.  The cancelled run
    then finds the flag unset at the top of its next iteration and checks
    the second URL. *)
Example cancel_then_checkAllUrls :
  let m1 := service_after (first_in_flight ++ [CallCancel]) (init false) in
  let m2 := service_after [CallCheckAllUrls LinkCheckerFacts.demo_bookmarks] m1 in
  let m3 := service_after
              [CheckSettles 0 0 LinkCheckerFacts.answers_ok; DelayElapsed 0] m2 in
  isCancelled m1 = true /\ isChecking m1 = false /\
  pc <$> runs m2 !! 1%nat = Some (Done []) /\ isCancelled m2 = false /\
  begun (log m3) = [(0%nat, "https://a.example/"); (0%nat, "https://b.example/")].
Proof. vm_compute. repeat split. Qed.

(** cancel() while the run waits for a pause to end at the top of the
    second iteration: the run is released, does not read the flag again,
    and checks the second URL. *)
Example cancel_at_pause :
  let m1 := service_after paused_at_second (init false) in
  let m2 := service_after [CallCancel; Continue 0] m1 in
  pc <$> runs m1 !! 0%nat = Some (AtPause 1) /\
  log m2 = [Began 0 "https://a.example/"; CancelCalled; Began 0 "https://b.example/"].
Proof. vm_compute. repeat split. Qed.

End LinkCheckerRunsFacts.

Module CloudAccountFacts.
Import Json CloudSync CloudAccount.

Lemma syncData_of_to_json d : syncData_of_json (syncData_to_json d) = Some d.
Proof.
  destruct d as [u b t v]. unfold syncData_of_json, syncData_to_json. cbn.
  rewrite (ImportExportFacts.traverse_map node_of_json node_to_json b).
  - reflexivity.
  - apply Forall_forall. intros n _. apply ImportExportFacts.node_of_to_json.
Qed.

Lemma keys_differ : STORAGE_KEY_USER <> STORAGE_KEY_SYNC_DATA.
Proof. discriminate. Qed.

Section Account.
Variable JSON_stringify : json -> string.
Variable JSON_parse : string -> option json.
Variable emailRegex_test : string -> bool.
Variable js_length : string -> nat.

Local Abbreviation getCurrentUser := (getCurrentUser JSON_parse).
Local Abbreviation isLoggedIn := (isLoggedIn JSON_parse).
Local Abbreviation uploadBookmarks := (uploadBookmarks JSON_stringify JSON_parse).
Local Abbreviation downloadBookmarks := (downloadBookmarks JSON_parse).
Local Abbreviation syncBookmarks := (syncBookmarks JSON_stringify JSON_parse).
Local Abbreviation store_user := (store_user JSON_stringify).
Local Abbreviation register := (register JSON_stringify).
Local Abbreviation login := (login JSON_stringify JSON_parse emailRegex_test js_length).
Local Abbreviation setSyncEnabled := (setSyncEnabled JSON_stringify JSON_parse).
Local Abbreviation getSyncStatus := (getSyncStatus JSON_parse).
Local Abbreviation checkForUpdates := (checkForUpdates JSON_parse).
Local Abbreviation updateUsername := (updateUsername JSON_stringify JSON_parse).
Local Abbreviation updatePassword := (updatePassword JSON_parse).
Local Abbreviation deleteAccount := (deleteAccount JSON_parse).

(** The platform reads back the document it writes for the value [j]:
    JSON.parse(JSON.stringify(j)) is [j], and the text is not empty. *)
Definition reads_back (j : json) : Prop :=
  truthy_string (JSON_stringify j) = true /\
  JSON_parse (JSON_stringify j) = Some j.

(** The stored sync data is the document of [d]. *)
Definition holds_sync_data (st : gmap string string) (d : SyncData) : Prop :=
  exists text, st !! STORAGE_KEY_SYNC_DATA = Some text /\
    truthy_string text = true /\ JSON_parse text = Some (syncData_to_json d).

Lemma current_user_stored u st :
  reads_back (user_to_json u) -> getCurrentUser (store_user u st) = Present u.
Proof.
  intros [Ht Hp]. unfold CloudSync.getCurrentUser, CloudAccount.store_user.
  rewrite lookup_insert_eq, Ht, Hp, CloudSyncFacts.user_of_to_json. reflexivity.
Qed.

Lemma sync_data_after_store u st :
  store_user u st !! STORAGE_KEY_SYNC_DATA = st !! STORAGE_KEY_SYNC_DATA.
Proof. apply lookup_insert_ne. exact keys_differ. Qed.

Lemma holds_sync_data_store u st d :
  holds_sync_data st d -> holds_sync_data (store_user u st) d.
Proof.
  intros (text & H1 & H2 & H3). exists text.
  rewrite sync_data_after_store. auto.
Qed.

Lemma download_stored st u d :
  getCurrentUser st = Present u -> holds_sync_data st d ->
  downloadBookmarks st = Done (sync_bookmarks d).
Proof.
  intros Hu (text & H1 & H2 & H3). unfold CloudSync.downloadBookmarks.
  rewrite Hu, H1, H2, H3, syncData_of_to_json. reflexivity.
Qed.

Lemma updates_stored st u d :
  getCurrentUser st = Present u -> holds_sync_data st d ->
  checkForUpdates st = Done (lastSyncTime u <? sync_timestamp d)%Z.
Proof.
  intros Hu (text & H1 & H2 & H3). unfold CloudAccount.checkForUpdates.
  rewrite Hu, H1, H2, H3, syncData_of_to_json. reflexivity.
Qed.

Lemma status_of_user st u :
  getCurrentUser st = Present u ->
  getSyncStatus st = Some (syncEnabled u, lastSyncTime u).
Proof.
  intros Hu. unfold CloudAccount.getSyncStatus. rewrite Hu, orb_false_r.
  destruct (Z.eqb_spec (lastSyncTime u) 0) as [->|]; reflexivity.
Qed.

Lemma upload_state bookmarks now1 now2 st u :
  getCurrentUser st = Present u ->
  reads_back (user_to_json (set_lastSyncTime now2 u)) ->
  reads_back (syncData_to_json (mkSyncData (user_id u) bookmarks now1 "1.0.0")) ->
  let st' := snd (uploadBookmarks bookmarks now1 now2 st) in
  fst (uploadBookmarks bookmarks now1 now2 st) = Done tt /\
  getCurrentUser st' = Present (set_lastSyncTime now2 u) /\
  holds_sync_data st' (mkSyncData (user_id u) bookmarks now1 "1.0.0").
Proof.
  intros Hu Hback [Ht Hp]. cbv zeta.
  unfold CloudSync.uploadBookmarks. rewrite Hu. cbn [fst snd].
  split; [reflexivity|]. split.
  - apply (current_user_stored (set_lastSyncTime now2 u)). exact Hback.
  - eexists. split; [|split; [exact Ht | exact Hp]].
    rewrite lookup_insert_ne by exact keys_differ. apply lookup_insert_eq.
Qed.

(** X8.  With a user logged in, what uploadBookmarks stores is what
    downloadBookmarks returns; syncBookmarks therefore returns exactly the
    local bookmarks it was given (whatever sync data was stored before is
    overwritten, nothing is merged); afterwards getSyncStatus shows the
    time of the upload, and checkForUpdates reports no update. *)
Theorem X8_sync_returns_local (bookmarks : list BookmarkNode) (now1 now2 : Z)
    (st : gmap string string) (u : User) :
  getCurrentUser st = Present u ->
  reads_back (user_to_json (set_lastSyncTime now2 u)) ->
  reads_back (syncData_to_json (mkSyncData (user_id u) bookmarks now1 "1.0.0")) ->
  (now1 <= now2)%Z ->
  let st' := snd (uploadBookmarks bookmarks now1 now2 st) in
  downloadBookmarks st' = Done bookmarks /\
  syncBookmarks bookmarks now1 now2 st = (Done bookmarks, st') /\
  getSyncStatus st' = Some (syncEnabled u, now2) /\
  checkForUpdates st' = Done false.
Proof.
  intros Hu Hbu Hbd Hle.
  destruct (upload_state bookmarks now1 now2 st u Hu Hbu Hbd) as (Hup & Hu' & Hd').
  cbv zeta.
  pose proof (download_stored _ _ _ Hu' Hd') as Hdown. cbn [sync_bookmarks] in Hdown.
  split; [exact Hdown|]. split; [|split].
  - unfold CloudSync.syncBookmarks. rewrite Hu.
    destruct (uploadBookmarks bookmarks now1 now2 st) as [o st1] eqn:E.
    cbn [fst snd] in *. subst o. rewrite Hdown. reflexivity.
  - rewrite (status_of_user _ _ Hu'). reflexivity.
  - rewrite (updates_stored _ _ _ Hu' Hd'). cbn.
    f_equal. apply Z.ltb_ge. exact Hle.
Qed.

(** X9.  logout removes the user and the sync data and nothing else: after
    it nobody is logged in, upload and download raise 'not logged in',
    checkForUpdates answers false and getSyncStatus answers (false, 0).
    deleteAccount does the same when a user is logged in, and raises 'not
    logged in' and leaves the storage alone when none is. *)
Theorem X9_logout_clears_account (st : gmap string string) :
  let st' := logout st in
  isLoggedIn st' = false /\
  downloadBookmarks st' = Raised NotLoggedIn /\
  (forall b n1 n2, uploadBookmarks b n1 n2 st' = (Raised NotLoggedIn, st')) /\
  checkForUpdates st' = Done false /\
  getSyncStatus st' = Some (false, 0%Z) /\
  st' !! STORAGE_KEY_SYNC_DATA = None /\
  (forall k, k <> STORAGE_KEY_USER -> k <> STORAGE_KEY_SYNC_DATA ->
             st' !! k = st !! k) /\
  (forall u, getCurrentUser st = Present u -> deleteAccount st = (Done tt, st')) /\
  (getCurrentUser st = Absent -> deleteAccount st = (Raised NotLoggedIn, st)).
Proof.
  cbv zeta.
  assert (Hnone : getCurrentUser (logout st) = Absent).
  { unfold CloudSync.getCurrentUser, logout.
    rewrite lookup_delete_ne by (symmetry; exact keys_differ).
    rewrite lookup_delete_eq. reflexivity. }
  unfold CloudSync.isLoggedIn, CloudSync.downloadBookmarks,
    CloudSync.uploadBookmarks, CloudAccount.checkForUpdates,
    CloudAccount.getSyncStatus, CloudAccount.deleteAccount.
  rewrite Hnone.
  repeat split.
  - unfold logout. apply lookup_delete_eq.
  - intros k H1 H2. unfold logout.
    rewrite lookup_delete_ne by (intros E; apply H2; symmetry; exact E).
    apply lookup_delete_ne. intros E; apply H1; symmetry; exact E.
  - intros u ->. reflexivity.
  - intros ->. reflexivity.
Qed.

(** X10.  updateUsername changes the username of the stored user and no
    other field, returns the updated user, and leaves the sync data alone
    (downloadBookmarks answers as before); updatePassword changes nothing
    at all; with nobody logged in both raise 'not logged in' and leave the
    storage alone. *)
Theorem X10_updateUsername (newUsername : string) (st : gmap string string) :
  (forall u, getCurrentUser st = Present u ->
     reads_back (user_to_json (set_username newUsername u)) ->
     let st' := snd (updateUsername newUsername st) in
     fst (updateUsername newUsername st) = Done (set_username newUsername u) /\
     getCurrentUser st' = Present (set_username newUsername u) /\
     st' !! STORAGE_KEY_SYNC_DATA = st !! STORAGE_KEY_SYNC_DATA /\
     downloadBookmarks st' = downloadBookmarks st /\
     updatePassword newUsername st = (Done tt, st)) /\
  (getCurrentUser st = Absent ->
     updateUsername newUsername st = (Raised NotLoggedIn, st) /\
     updatePassword newUsername st = (Raised NotLoggedIn, st)).
Proof.
  split.
  - intros u Hu Hback. cbv zeta.
    unfold CloudAccount.updateUsername, CloudAccount.updatePassword.
    rewrite Hu. cbn [fst snd].
    pose proof (current_user_stored _ st Hback) as Hu'.
    split; [reflexivity|]. split; [exact Hu'|].
    split; [apply sync_data_after_store|]. split; [|reflexivity].
    unfold CloudSync.downloadBookmarks. rewrite Hu, Hu', sync_data_after_store.
    reflexivity.
  - intros Hu. unfold CloudAccount.updateUsername, CloudAccount.updatePassword.
    rewrite Hu. auto.
Qed.

(** X11.  setSyncEnabled followed by getSyncStatus: with a user logged in
    the status shows the flag just set and the user's last sync time, and
    the sync data is left alone; with nobody logged in setSyncEnabled does
    nothing and the status is (false, 0). *)
Theorem X11_setSyncEnabled_status (enabled : bool) (st : gmap string string) :
  (forall u, getCurrentUser st = Present u ->
     reads_back (user_to_json (set_syncEnabled enabled u)) ->
     exists st', setSyncEnabled enabled st = Some st' /\
       getSyncStatus st' = Some (enabled, lastSyncTime u) /\
       getCurrentUser st' = Present (set_syncEnabled enabled u) /\
       st' !! STORAGE_KEY_SYNC_DATA = st !! STORAGE_KEY_SYNC_DATA) /\
  (getCurrentUser st = Absent ->
     setSyncEnabled enabled st = Some st /\ getSyncStatus st = Some (false, 0%Z)).
Proof.
  split.
  - intros u Hu Hback. unfold CloudAccount.setSyncEnabled. rewrite Hu.
    eexists. split; [reflexivity|].
    pose proof (current_user_stored _ st Hback) as Hu'.
    split; [|split; [exact Hu' | apply sync_data_after_store]].
    rewrite (status_of_user _ _ Hu'). reflexivity.
  - intros Hu. unfold CloudAccount.setSyncEnabled, CloudAccount.getSyncStatus.
    rewrite Hu. auto.
Qed.

(** X12.  login refuses exactly an e-mail address that fails the pattern,
    and otherwise exactly a password shorter than 6; a refusal leaves the
    storage alone.  The 'wrong password' error is never raised: when the
    stored user has the given e-mail address, every password of length 6
    or more logs in as that user, and the storage is not written. *)
Theorem X12_login_refusals (email' password : string) (now1 now2 : Z)
    (st : gmap string string) :
  let r := login email' password now1 now2 st in
  (fst r = Refused InvalidEmail <-> emailRegex_test email' = false) /\
  (fst r = Refused PasswordTooShort <->
     emailRegex_test email' = true /\ (js_length password < 6)%nat) /\
  fst r <> Refused WrongPassword /\
  (forall e, fst r = Refused e -> snd r = st) /\
  (forall u, getCurrentUser st = Present u -> email u = email' ->
     emailRegex_test email' = true -> (6 <= js_length password)%nat ->
     r = (LoggedIn u, st)).
Proof.
  cbv zeta. unfold CloudAccount.login.
  destruct (emailRegex_test email') eqn:Hre; cbn [negb];
    [destruct (Nat.ltb_spec (js_length password) 6) as [Hlt|Hge];
     [|destruct (getCurrentUser st) as [|u|] eqn:Hu;
       [| destruct (String.eqb_spec (email u) email') as [He|Hne] |]]|];
    cbn [fst snd];
    (split; [split; intros Hyp; first [discriminate Hyp | reflexivity]|]);
    (split; [split; [intros Hyp; first [discriminate Hyp | split; [reflexivity | exact Hlt]]
                    | intros [Hyp1 Hyp2]; first [discriminate Hyp1 | reflexivity | lia]]|]);
    (split; [discriminate|]);
    (split; [intros e Hyp; first [reflexivity | discriminate Hyp]|]);
    intros u' Hu' He' Hre' Hlen'; first [discriminate | lia | congruence].
Qed.

(** X13.  login under an e-mail address other than the stored user's, and
    register under any address, replace the stored user by a new one (id
    "user_" followed by the time, last sync time 0, sync enabled; for
    login the username is the part of the address before the first "@")
    and leave the stored sync data alone: downloadBookmarks then hands the
    new user the bookmarks that the previous user uploaded, whatever
    userId the sync data carries. *)
Theorem X13_new_user_inherits_sync_data (email' name password : string)
    (now1 now2 : Z) (st : gmap string string) (d : SyncData) :
  let by_login := mkUser (fresh_id now1) email' (before_char "@" email') None
                         now2 0 true in
  let by_register := mkUser (fresh_id now1) email' name None now2 0 true in
  holds_sync_data st d ->
  reads_back (user_to_json by_login) ->
  reads_back (user_to_json by_register) ->
  (emailRegex_test email' = true -> (6 <= js_length password)%nat ->
   getCurrentUser st <> IllTyped ->
   (forall u, getCurrentUser st = Present u -> email u <> email') ->
   login email' password now1 now2 st = (LoggedIn by_login, store_user by_login st) /\
   downloadBookmarks (store_user by_login st) = Done (sync_bookmarks d)) /\
  register email' name password now1 now2 st
    = (by_register, store_user by_register st) /\
  getCurrentUser (store_user by_register st) = Present by_register /\
  downloadBookmarks (store_user by_register st) = Done (sync_bookmarks d).
Proof.
  intros by_login by_register Hd Hbl Hbr.
  split; [|split; [reflexivity | split]].
  - intros Hre Hlen Htyped Hother. split.
    + unfold CloudAccount.login. rewrite Hre. cbn [negb].
      destruct (Nat.ltb_spec (js_length password) 6) as [Hlt|_]; [lia|].
      destruct (getCurrentUser st) as [|u|] eqn:Hu; [reflexivity | | contradiction].
      destruct (String.eqb_spec (email u) email') as [He|_]; [|reflexivity].
      exfalso. exact (Hother u eq_refl He).
    + apply (download_stored _ by_login).
      * apply current_user_stored. exact Hbl.
      * apply holds_sync_data_store. exact Hd.
  - apply current_user_stored. exact Hbr.
  - apply (download_stored _ by_register).
    + apply current_user_stored. exact Hbr.
    + apply holds_sync_data_store. exact Hd.
Qed.

End Account.

(** *** Evaluation with the reference codec *)

(** A reference version of the e-mail pattern for ASCII text: no white
    space and no second "@", a non-empty local part, and a domain with a
    dot that is neither its first nor its last character. *)
Definition plain_char (a : ascii) : bool :=
  negb (Ascii.eqb a "@" || Ascii.eqb a " " || Ascii.eqb a "009"
        || Ascii.eqb a "010" || Ascii.eqb a "013")%char.

Fixpoint plain (s : string) : bool :=
  match s with
  | EmptyString => true
  | String a s' => plain_char a && plain s'
  end.

Fixpoint has_inner_dot (s : string) : bool :=
  match s with
  | String "." (String _ _) => true
  | String _ s' => has_inner_dot s'
  | EmptyString => false
  end.

Definition emailRegex_ref (s : string) : bool :=
  let name := before_char "@" s in
  match string_drop (String.length name) s with
  | String "@" (String _ rest as domain) =>
      truthy_string name && plain name && plain domain && has_inner_dot rest
  | _ => false
  end.

Definition carol : User :=
  mkUser "user_1700000000000" "carol@example.com" "carol" None
         1700000000000 0 true.

Definition carols_bookmarks : list BookmarkNode :=
  [ folder "1" "Reading" [ bookmark "2" "Rocq" "https://rocq-prover.org/" ] ].

(** A storage in which carol is logged in and nothing is synced yet. *)
Definition storage_carol : gmap string string :=
  {[ STORAGE_KEY_USER := json_print (user_to_json carol) ]}.

(** The storage after carol has uploaded her bookmarks. *)
Definition storage_synced : gmap string string :=
  snd (uploadBookmarks json_print json_parse carols_bookmarks
         1700000000500 1700000000501 storage_carol).

Lemma X8_witness :
  syncBookmarks json_print json_parse carols_bookmarks
    1700000000500 1700000000501 storage_carol
  = (Done carols_bookmarks, storage_synced) /\
  checkForUpdates json_parse storage_synced = Done false.
Proof.
  destruct (X8_sync_returns_local json_print json_parse carols_bookmarks
              1700000000500 1700000000501 storage_carol carol)
    as (_ & Hsync & _ & Hupd).
  - vm_compute. reflexivity.
  - split; vm_compute; reflexivity.
  - split; vm_compute; reflexivity.
  - lia.
  - split; [exact Hsync | exact Hupd].
Defined.

Lemma X13_witness :
  let dave := mkUser "user_1700000009000" "dave@example.org" "dave" None
                     1700000009001 0 true in
  login json_print json_parse emailRegex_ref String.length
    "dave@example.org" "secret1" 1700000009000 1700000009001 storage_synced
  = (LoggedIn dave, store_user json_print dave storage_synced) /\
  downloadBookmarks json_parse (store_user json_print dave storage_synced)
  = Done carols_bookmarks.
Proof.
  cbv zeta.
  destruct (X13_new_user_inherits_sync_data json_print json_parse emailRegex_ref
              String.length "dave@example.org" "dave" "secret1"
              1700000009000 1700000009001 storage_synced
              (mkSyncData "user_1700000000000" carols_bookmarks 1700000000500 "1.0.0"))
    as (Hlogin & _).
  - eexists. split; [vm_compute; reflexivity|]. split; vm_compute; reflexivity.
  - split; vm_compute; reflexivity.
  - split; vm_compute; reflexivity.
  - apply Hlogin.
    + vm_compute. reflexivity.
    + vm_compute. lia.
    + vm_compute. discriminate.
    + intros u Hu.
      assert (E : getCurrentUser json_parse storage_synced
                  = Present (set_lastSyncTime 1700000000501 carol))
        by (vm_compute; reflexivity).
      rewrite E in Hu. injection Hu as <-. discriminate.
Defined.

End CloudAccountFacts.

Module ImportExportMore.
Import Json ImportExport Cleaning ImportExportFacts.

(** Induction on a tree, with the children read through the accessor. *)
Lemma node_induction (P : BookmarkNode -> Prop) :
  (forall n, Forall P (default [] (node_children n)) -> P n) -> forall n, P n.
Proof.
  intros H n. induction n as [i t u d p cs st tg nt IH] using BookmarkNode_ind.
  apply H. exact IH.
Qed.

Lemma forest_nodes_cons n l : forest_nodes (n :: l) = nodes_of n ++ forest_nodes l.
Proof. reflexivity. Qed.

Lemma nodes_of_children n :
  nodes_of n = n :: forest_nodes (default [] (node_children n)).
Proof. rewrite nodes_of_eq. destruct (node_children n); reflexivity. Qed.

Lemma elem_of_forest_nodes m l :
  m ∈ forest_nodes l <-> exists n, n ∈ l /\ m ∈ nodes_of n.
Proof.
  unfold forest_nodes. induction l as [|a l IH]; cbn [flat_map].
  - split; [intros H; apply elem_of_nil in H; contradiction|].
    intros (n & H & _). apply elem_of_nil in H. contradiction.
  - rewrite elem_of_app, IH. split.
    + intros [H | (n & H1 & H2)].
      * exists a. split; [apply elem_of_cons; left; reflexivity | exact H].
      * exists n. split; [apply elem_of_cons; right; exact H1 | exact H2].
    + intros (n & H1 & H2). apply elem_of_cons in H1 as [-> | H1].
      * left. exact H2.
      * right. exists n. auto.
Qed.

(** *** The export filter *)

Lemma keep_filterNode options n : keep options (filterNode options n) = keep options n.
Proof. rewrite filterNode_eq. reflexivity. Qed.

Lemma children_filterNode options n :
  default [] (node_children (filterNode options n))
  = filterTree options (default [] (node_children n)).
Proof. rewrite filterNode_eq. cbn. destruct (node_children n); reflexivity. Qed.

(** What is true of every node of an exported forest. *)
Definition exported (options : ExportOptions) (input : list BookmarkNode)
    (n' : BookmarkNode) : Prop :=
  keep options n' = true /\
  exists n, n ∈ forest_nodes input /\ n' = filterNode options n.

Lemma exported_mono options input input' n' :
  (forall n, n ∈ forest_nodes input -> n ∈ forest_nodes input') ->
  exported options input n' -> exported options input' n'.
Proof. intros Hsub (Hk & n & Hn & E). split; [exact Hk|]. exists n. auto. Qed.

Lemma filter_map_list_cons {A B : Type} (p : A -> bool) (f : A -> B) x r :
  filter_map_list p f (x :: r)
  = if p x then f x :: filter_map_list p f r else filter_map_list p f r.
Proof. reflexivity. Qed.

Lemma filterTree_exported options :
  forall n, Forall (exported options (default [] (node_children n)))
              (forest_nodes (filterTree options (default [] (node_children n)))).
Proof.
  apply node_induction. intros n IH.
  induction IH as [|c cs Hc _ IHcs]; [constructor|].
  unfold filterTree. rewrite filter_map_list_cons.
  fold (filterTree options cs).
  assert (Htail : Forall (exported options (c :: cs))
                    (forest_nodes (filterTree options cs))).
  { eapply Forall_impl; [exact IHcs|]. intros x. apply exported_mono.
    intros m Hm. rewrite forest_nodes_cons. apply elem_of_app. right. exact Hm. }
  destruct (keep options c) eqn:Hkeep; [|exact Htail].
  rewrite forest_nodes_cons. apply Forall_app. split; [|exact Htail].
  rewrite nodes_of_children. constructor.
  - split; [rewrite keep_filterNode; exact Hkeep|].
    exists c. split; [|reflexivity].
    rewrite forest_nodes_cons, nodes_of_children. apply elem_of_app. left.
    apply elem_of_cons. left. reflexivity.
  - rewrite children_filterNode.
    eapply Forall_impl; [exact Hc|]. intros x. apply exported_mono.
    intros m Hm. rewrite forest_nodes_cons, nodes_of_children.
    apply elem_of_app. left. apply elem_of_cons. right. exact Hm.
Qed.

Lemma filter_map_list_twice {A : Type} (p : A -> bool) (f : A -> A) l :
  Forall (fun x => p (f x) = p x /\ f (f x) = f x) l ->
  filter_map_list p f (filter_map_list p f l) = filter_map_list p f l.
Proof.
  induction 1 as [|x l [Hp Hf] _ IH]; [reflexivity|].
  rewrite (filter_map_list_cons p f x l).
  destruct (p x) eqn:E; [|exact IH].
  rewrite filter_map_list_cons, Hp, Hf, IH. reflexivity.
Qed.

Lemma filterNode_twice options :
  forall n, filterNode options (filterNode options n) = filterNode options n.
Proof.
  apply node_induction. intros n IH.
  rewrite (filterNode_eq options (filterNode options n)).
  rewrite (filterNode_eq options n) at 1 2.
  cbn [node_children with_children].
  destruct (node_children n) as [cs|] eqn:Hcs; cbn [default] in IH.
  - rewrite filter_map_list_twice.
    + rewrite filterNode_eq, Hcs. reflexivity.
    + eapply Forall_impl; [exact IH|]. intros x Hx.
      split; [apply keep_filterNode | exact Hx].
  - rewrite filterNode_eq, Hcs. reflexivity.
Qed.

(** X14.  The forest that exportToJSON writes (filterTree): every node of
    it, at any depth, passes the filter and is the filtered copy of a node
    of the input; with includeBroken = false it holds no node of status
    'broken', and with selectedFolders given the id of every node is
    empty or selected; filtering an exported forest again changes
    nothing. *)
Theorem X14_filterTree_sound (options : ExportOptions) (nodes : list BookmarkNode) :
  let out := filterTree options nodes in
  Forall (exported options nodes) (forest_nodes out) /\
  (includeBroken options = Some false ->
   Forall (fun n' => node_status n' <> Some NSBroken) (forest_nodes out)) /\
  (forall sel, selectedFolders options = Some sel ->
   Forall (fun n' => node_id n' = EmptyString \/ node_id n' ∈ sel) (forest_nodes out)) /\
  filterTree options out = out.
Proof.
  cbv zeta.
  pose proof (filterTree_exported options (folder EmptyString EmptyString nodes)) as Hall.
  cbn [folder node_children default] in Hall.
  split; [exact Hall|]. split; [|split].
  - intros Hb. eapply Forall_impl; [exact Hall|]. intros n' [Hk _] Hst.
    unfold keep in Hk. rewrite Hb, Hst in Hk.
    rewrite !bool_decide_eq_true_2 in Hk by reflexivity.
    destruct (match selectedFolders options with Some _ => _ | None => _ end);
      discriminate Hk.
  - intros sel Hsel. eapply Forall_impl; [exact Hall|]. intros n' [Hk _].
    unfold keep in Hk. rewrite Hsel in Hk.
    destruct (node_id n') as [|a r] eqn:Hid; [left; reflexivity|].
    right. cbn [truthy_string andb] in Hk.
    destruct (bool_decide (String a r ∈ sel)) eqn:Hin; [|discriminate Hk].
    apply bool_decide_eq_true in Hin. exact Hin.
  - unfold filterTree. apply filter_map_list_twice.
    apply Forall_forall. intros x _.
    split; [apply keep_filterNode | apply filterNode_twice].
Qed.

(** *** importFromJSON: the ids and the parent links *)

Lemma map_state_each {S A B : Type} (f : A -> S -> B * S) (R : B -> Prop) l :
  Forall (fun x => forall s, R (fst (f x s))) l ->
  forall s, Forall R (fst (map_state f l s)) /\
            length (fst (map_state f l s)) = length l.
Proof.
  induction 1 as [|x l Hx _ IH]; intros s; cbn; [split; [constructor | reflexivity]|].
  specialize (Hx s). destruct (f x s) as [y s1]. cbn [fst] in Hx.
  specialize (IH s1). destruct (map_state f l s1) as [ys s2]. cbn [fst] in *.
  destruct IH as [IH1 IH2]. split; [constructor; assumption | cbn; congruence].
Qed.

Lemma map_state_forest {S : Type} (f : BookmarkNode -> S -> BookmarkNode * S)
    (R : BookmarkNode -> Prop) l :
  Forall (fun x => forall s, Forall R (nodes_of (fst (f x s)))) l ->
  forall s, Forall R (forest_nodes (fst (map_state f l s))).
Proof.
  intros H s.
  destruct (map_state_each f (fun y => Forall R (nodes_of y)) l H s) as [Hall _].
  apply Forall_flat_map. exact Hall.
Qed.

Lemma traverse_length {A B : Type} (f : A -> option B) l :
  forall ys, traverse f l = Some ys -> length ys = length l.
Proof.
  induction l as [|x l IH]; intros ys H; cbn in H.
  - injection H as <-. reflexivity.
  - destruct (f x); [|discriminate]. fold (traverse f l) in H.
    destruct (traverse f l) as [zs|]; [|discriminate].
    injection H as <-. cbn. f_equal. apply IH. reflexivity.
Qed.

Section Ids.
Variable stamp : nat -> string.

Local Abbreviation addIds := (addIds stamp).

(** The root of what addIds returns. *)
Lemma addIds_root node p k :
  let r := fst (addIds node p k) in
  node_id r = (if truthy_string (node_id node) then node_id node
               else generateId stamp k) /\
  node_parentId r = p /\
  exists k1,
    default [] (node_children r)
    = fst (map_state (fun child => addIds child (Some (node_id node)))
             (default [] (node_children node)) k1).
Proof.
  cbv zeta. rewrite addIds_eq.
  destruct (truthy_string (node_id node));
    destruct (node_children node) as [cs|]; cbn [default].
  - destruct (map_state _ cs k) as [cs' k'] eqn:E. cbn.
    split; [reflexivity | split; [reflexivity|]]. exists k. rewrite E. reflexivity.
  - cbn. split; [reflexivity | split; [reflexivity|]]. exists k. reflexivity.
  - destruct (map_state _ cs (S k)) as [cs' k'] eqn:E. cbn.
    split; [reflexivity | split; [reflexivity|]]. exists (S k). rewrite E. reflexivity.
  - cbn. split; [reflexivity | split; [reflexivity|]]. exists k. reflexivity.
Qed.

Lemma addIds_ids :
  forall node p k,
    Forall (fun n => truthy_string (node_id n) = true) (nodes_of (fst (addIds node p k))).
Proof.
  intros node. induction node as [node IH] using node_induction. intros p k.
  destruct (addIds_root node p k) as (Hid & _ & k1 & Hkids).
  rewrite nodes_of_children. constructor.
  - rewrite Hid. destruct (truthy_string (node_id node)) eqn:E; [exact E | reflexivity].
  - rewrite Hkids. apply map_state_forest.
    eapply Forall_impl; [exact IH|]. intros x Hx s. apply Hx.
Qed.

(** X15.  addIds, the pass that importFromJSON makes over every imported
    tree: every node of the result has a non-empty id (an id that is
    present is kept, a missing one is generated); the parentId of the root
    is the one given, and the parentId of each child is the id its parent
    had in the imported document, not the id the parent has in the result:
    the children of a folder that came without an id point at the empty
    id, while the folder itself gets a generated one. *)
Theorem X15_addIds_ids_and_parents (node : BookmarkNode) (p : option string)
    (k : nat) :
  let r := fst (addIds node p k) in
  let kids := default [] (node_children r) in
  Forall (fun n => truthy_string (node_id n) = true) (nodes_of r) /\
  node_parentId r = p /\
  length kids = length (default [] (node_children node)) /\
  Forall (fun c => node_parentId c = Some (node_id node)) kids /\
  (truthy_string (node_id node) = true -> node_id r = node_id node) /\
  (truthy_string (node_id node) = false ->
   node_id r = generateId stamp k /\
   Forall (fun c => node_parentId c <> Some (node_id r)) kids).
Proof.
  cbv zeta.
  destruct (addIds_root node p k) as (Hid & Hp & k1 & Hkids).
  assert (Hlinks : Forall (fun c => node_parentId c = Some (node_id node))
                     (default [] (node_children (fst (addIds node p k)))) /\
                   length (default [] (node_children (fst (addIds node p k))))
                   = length (default [] (node_children node))).
  { rewrite Hkids. apply map_state_each. apply Forall_forall. intros x _ s.
    destruct (addIds_root x (Some (node_id node)) s) as (_ & H & _). exact H. }
  destruct Hlinks as [Hlinks Hlen].
  split; [apply addIds_ids|]. split; [exact Hp|]. split; [exact Hlen|].
  split; [exact Hlinks|]. split.
  - intros E. rewrite Hid, E. reflexivity.
  - intros E. rewrite E in Hid. split; [exact Hid|].
    eapply Forall_impl; [exact Hlinks|]. intros c Hc. rewrite Hc, Hid.
    destruct (node_id node); [|discriminate E]. discriminate.
Qed.

End Ids.




(** *** validateBookmarks and cleanBookmarks *)

Section Validation.
Variable trim : string -> string.

Local Abbreviation blank := (blank trim).
Local Abbreviation validateNode := (validateNode trim).
Local Abbreviation validateBookmarks := (validateBookmarks trim).
Local Abbreviation cleanNode := (cleanNode trim).
Local Abbreviation cleanBookmarks := (cleanBookmarks trim).

(** What validateBookmarks accepts at a node: a URL that starts with
    "http", or, at a node without URL, a title that is not blank. *)
Definition valid_node (n : BookmarkNode) : bool :=
  if has_url n then startsWith (default "" (node_url n)) "http"
  else negb (blank (node_title n)).

(** What cleanBookmarks lets through. *)
Definition clean_node (n : BookmarkNode) : bool :=
  if has_url n then
    startsWith (default "" (node_url n)) "http"
    || startsWith (default "" (node_url n)) "ftp"
  else negb (blank (node_title n)).

Lemma validateNode_eq node path :
  validateNode node path =
  let currentPath :=
    if truthy_string path then path +:+ " > " +:+ node_title node
    else node_title node in
  let url := default "" (node_url node) in
  (if has_url node && negb (startsWith url "http")
   then ["无效的书签URL: " +:+ currentPath +:+ " (" +:+ url +:+ ")"] else [])
  ++ (if negb (has_url node) && blank (node_title node)
      then ["文件夹没有标题: " +:+ (if truthy_string path then path else "根目录")]
      else [])
  ++ flat_map (fun child => validateNode child currentPath)
       (default [] (node_children node)).
Proof. destruct node as [i t u d p [cs|] st tg nt]; reflexivity. Qed.

Lemma cleanNode_raw node :
  cleanNode node =
  if has_url node then
    let url := default "" (node_url node) in
    if negb (startsWith url "http") && negb (startsWith url "https")
       && negb (startsWith url "ftp")
    then None else Some node
  else if blank (node_title node) then None
  else match node_children node with
       | Some (c :: cs) => Some (with_children (Some (omap cleanNode (c :: cs))) node)
       | _ => Some node
       end.
Proof. destruct node as [i t u d p [[|c cs]|] st tg nt]; reflexivity. Qed.

Lemma https_is_http s : startsWith s "http" = false -> startsWith s "https" = false.
Proof.
  intros H1. destruct (startsWith s "https") eqn:H2; [|reflexivity].
  apply startsWith_spec in H2 as [post ->].
  assert (startsWith ("https" +:+ post) "http" = true) as E
    by (apply startsWith_spec; exists ("s" +:+ post); reflexivity).
  rewrite E in H1. discriminate.
Qed.

Lemma cleanNode_eq node :
  cleanNode node =
  if has_url node then (if clean_node node then Some node else None)
  else if blank (node_title node) then None
  else match node_children node with
       | Some (c :: cs) => Some (with_children (Some (omap cleanNode (c :: cs))) node)
       | _ => Some node
       end.
Proof.
  rewrite cleanNode_raw. unfold clean_node.
  destruct (has_url node); [|reflexivity]. cbv zeta.
  set (url := default "" (node_url node)).
  destruct (startsWith url "http") eqn:H1; cbn [negb andb orb]; [reflexivity|].
  rewrite (https_is_http url H1). cbn [negb andb].
  destruct (startsWith url "ftp"); reflexivity.
Qed.

Definition offending (l : list BookmarkNode) : list BookmarkNode :=
  List.filter (fun n => negb (valid_node n)) l.

Lemma validateNode_count :
  forall node path,
    length (validateNode node path) = length (offending (nodes_of node)).
Proof.
  intros node. induction node as [node IH] using node_induction. intros path.
  rewrite validateNode_eq, nodes_of_children. cbv zeta.
  set (cp := if truthy_string path then _ else _).
  rewrite !length_app. unfold offending. cbn [List.filter].
  assert (Hkids : length (flat_map (fun child => validateNode child cp)
                            (default [] (node_children node)))
                  = length (List.filter (fun n => negb (valid_node n))
                              (forest_nodes (default [] (node_children node))))).
  { unfold forest_nodes. rewrite filter_flat_map.
    induction IH as [|c cs Hc _ IHcs]; [reflexivity|].
    cbn [flat_map]. rewrite !length_app, IHcs. f_equal. apply Hc. }
  rewrite Hkids. unfold valid_node.
  destruct (has_url node); cbn [andb negb].
  - destruct (startsWith _ "http"); reflexivity.
  - destruct (blank (node_title node)); reflexivity.
Qed.

Lemma validateBookmarks_count bookmarks :
  length (snd (validateBookmarks bookmarks))
  = length (offending (forest_nodes bookmarks)).
Proof.
  unfold Cleaning.validateBookmarks. cbn [snd]. unfold offending, forest_nodes.
  rewrite filter_flat_map.
  induction bookmarks as [|n l IH]; [reflexivity|].
  cbn [flat_map]. rewrite !length_app, IH. f_equal. apply validateNode_count.
Qed.

Lemma offending_none l :
  length (offending l) = 0%nat <-> Forall (fun n => valid_node n = true) l.
Proof.
  unfold offending. induction l as [|n l IH]; cbn [List.filter].
  - split; [constructor | reflexivity].
  - destruct (valid_node n) eqn:E; cbn [negb].
    + rewrite IH. split; [intros H; constructor; assumption|].
      intros H. apply Forall_cons in H as [_ H]. exact H.
    + split; [discriminate|]. intros H. apply Forall_cons in H as [H _].
      congruence.
Qed.

Lemma validateBookmarks_valid bookmarks :
  fst (validateBookmarks bookmarks) = true
  <-> Forall (fun n => valid_node n = true) (forest_nodes bookmarks).
Proof.
  rewrite <- offending_none, <- validateBookmarks_count.
  unfold Cleaning.validateBookmarks. cbn [fst snd]. apply Nat.eqb_eq.
Qed.

(** X17.  validateBookmarks reports exactly one error for every node, at
    any depth, that has a URL not starting with "http" or that has no URL
    and a blank title, and none for any other node; the forest is valid
    exactly when no node is of that kind. *)
Theorem X17_validateBookmarks (bookmarks : list BookmarkNode) :
  length (snd (validateBookmarks bookmarks))
  = length (List.filter (fun n => negb (valid_node n)) (forest_nodes bookmarks)) /\
  (fst (validateBookmarks bookmarks) = true
   <-> Forall (fun n => valid_node n = true) (forest_nodes bookmarks)).
Proof.
  split; [apply validateBookmarks_count | apply validateBookmarks_valid].
Qed.

(** What is true of every node of a cleaned forest. *)
Definition cleaned (input : list BookmarkNode) (n' : BookmarkNode) : Prop :=
  clean_node n' = true /\
  exists n, n ∈ forest_nodes input /\
    node_url n' = node_url n /\ node_title n' = node_title n /\
    node_id n' = node_id n.

Lemma cleaned_mono input input' n' :
  (forall n, n ∈ forest_nodes input -> n ∈ forest_nodes input') ->
  cleaned input n' -> cleaned input' n'.
Proof. intros Hsub (Hk & n & Hn & E). split; [exact Hk|]. exists n. auto. Qed.

Lemma leafy_nodes n :
  leafy n -> has_url n = true -> nodes_of n = [n].
Proof.
  intros Hl Hu. rewrite nodes_of_children, (Hl Hu). reflexivity.
Qed.

Lemma nodes_of_singleton n m : m ∈ nodes_of n <-> m ∈ forest_nodes [n].
Proof. unfold forest_nodes. cbn [flat_map]. rewrite app_nil_r. reflexivity. Qed.

Lemma omap_cleaned (input l : list BookmarkNode) :
  Forall (fun x => forall x', Forall leafy (nodes_of x) ->
                     cleanNode x = Some x' -> Forall (cleaned [x]) (nodes_of x')) l ->
  Forall leafy (forest_nodes l) ->
  (forall m, m ∈ forest_nodes l -> m ∈ forest_nodes input) ->
  Forall (cleaned input) (forest_nodes (omap cleanNode l)).
Proof.
  induction 1 as [|x l Hx _ IH]; intros Hleafy Hin; [constructor|].
  rewrite forest_nodes_cons in Hleafy. apply Forall_app in Hleafy as [Hlx Hll].
  assert (Htail : Forall (cleaned input) (forest_nodes (omap cleanNode l))).
  { apply IH; [exact Hll|]. intros m Hm. apply Hin.
    rewrite forest_nodes_cons. apply elem_of_app. right. exact Hm. }
  cbn [omap list_omap]. fold (omap cleanNode l).
  destruct (cleanNode x) as [x'|] eqn:Ex; [|exact Htail].
  rewrite forest_nodes_cons. apply Forall_app. split; [|exact Htail].
  eapply Forall_impl; [apply (Hx x' Hlx eq_refl)|].
  intros m. apply cleaned_mono. intros y Hy. apply Hin.
  rewrite forest_nodes_cons. apply elem_of_app. left.
  apply nodes_of_singleton. exact Hy.
Qed.

Lemma cleanNode_cleaned :
  forall node node', Forall leafy (nodes_of node) ->
    cleanNode node = Some node' ->
    Forall (cleaned [node]) (nodes_of node').
Proof.
  intros node. induction node as [node IH] using node_induction.
  intros node' Hleafy Hclean.
  assert (Hself : node ∈ forest_nodes [node]).
  { apply nodes_of_singleton. rewrite nodes_of_children.
    apply elem_of_cons. left. reflexivity. }
  rewrite cleanNode_eq in Hclean.
  rewrite nodes_of_children in Hleafy. apply Forall_cons in Hleafy as [Hl Hkids].
  destruct (has_url node) eqn:Hu.
  - destruct (clean_node node) eqn:Hc; [|discriminate]. injection Hclean as <-.
    rewrite (leafy_nodes node Hl Hu). constructor; [|constructor].
    split; [exact Hc|]. exists node. auto.
  - destruct (blank (node_title node)) eqn:Hb; [discriminate|].
    assert (Hroot : forall c, cleaned [node] (with_children c node)).
    { intros c. split.
      - unfold clean_node. rewrite has_url_with_children, Hu. cbn. rewrite Hb. reflexivity.
      - exists node. auto. }
    assert (Hnode : cleaned [node] node).
    { split; [unfold clean_node; rewrite Hu, Hb; reflexivity|]. exists node. auto. }
    destruct (node_children node) as [[|c cs]|] eqn:Hcs.
    + injection Hclean as <-. rewrite nodes_of_children, Hcs. cbn.
      constructor; [exact Hnode | constructor].
    + injection Hclean as <-. rewrite nodes_of_children.
      constructor; [apply Hroot|].
      apply (omap_cleaned [node] (c :: cs)); [exact IH | exact Hkids|].
      intros m Hm. apply nodes_of_singleton.
      rewrite nodes_of_children, Hcs. apply elem_of_cons. right. exact Hm.
    + injection Hclean as <-. rewrite nodes_of_children, Hcs. cbn.
      constructor; [exact Hnode | constructor].
Qed.

Lemma cleanBookmarks_cleaned bookmarks :
  leaf_invariant bookmarks ->
  Forall (cleaned bookmarks) (forest_nodes (cleanBookmarks bookmarks)).
Proof.
  intros Hinv. unfold Cleaning.cleanBookmarks.
  apply omap_cleaned; [|exact Hinv | auto].
  apply Forall_forall. intros x _ x'. apply cleanNode_cleaned.
Qed.

Lemma omap_fixed {A : Type} (f : A -> option A) l :
  Forall (fun x => forall y, f x = Some y -> f y = Some y) l ->
  omap f (omap f l) = omap f l.
Proof.
  induction 1 as [|x l Hx _ IH]; [reflexivity|].
  cbn [omap list_omap]. fold (omap f l).
  destruct (f x) as [y|] eqn:E; [|exact IH].
  cbn [omap list_omap]. fold (omap f (omap f l)).
  rewrite (Hx y eq_refl), IH. reflexivity.
Qed.

Lemma cleanNode_fixed :
  forall node node', cleanNode node = Some node' -> cleanNode node' = Some node'.
Proof.
  intros node. induction node as [node IH] using node_induction.
  intros node' Hclean. pose proof Hclean as Hc0.
  rewrite cleanNode_eq in Hclean.
  destruct (has_url node) eqn:Hu.
  - destruct (clean_node node); [|discriminate]. injection Hclean as <-. exact Hc0.
  - destruct (blank (node_title node)) eqn:Hb; [discriminate|].
    destruct (node_children node) as [[|c cs]|] eqn:Hcs;
      try (injection Hclean as <-; exact Hc0).
    assert (node' = with_children (Some (omap cleanNode (c :: cs))) node) as ->
      by congruence.
    pose proof (omap_fixed cleanNode (c :: cs) IH) as Hfix.
    remember (omap cleanNode (c :: cs)) as kids eqn:Ek.
    rewrite cleanNode_eq, has_url_with_children, Hu.
    change (node_title (with_children (Some kids) node)) with (node_title node).
    rewrite Hb.
    change (node_children (with_children (Some kids) node)) with (Some kids).
    destruct kids as [|c' cs']; [reflexivity|].
    rewrite Hfix. reflexivity.
Qed.

(** X18.  cleanBookmarks on a forest that satisfies the invariant of the
    data model (a node with a URL has no children): every node that is
    left, at any depth, has a URL starting with "http" or "ftp", or has no
    URL and a title that is not blank, and carries the id, title and URL
    of a node of the input; cleaning a cleaned forest changes nothing
    (this holds for every forest); and when no URL of the input starts
    with "ftp", the cleaned forest passes validateBookmarks. *)
Theorem X18_cleanBookmarks (bookmarks : list BookmarkNode) :
  leaf_invariant bookmarks ->
  let out := cleanBookmarks bookmarks in
  Forall (cleaned bookmarks) (forest_nodes out) /\
  cleanBookmarks out = out /\
  (Forall (fun n => startsWith (default "" (node_url n)) "ftp" = false)
          (forest_nodes bookmarks) ->
   validateBookmarks out = (true, [])).
Proof.
  intros Hinv. cbv zeta.
  pose proof (cleanBookmarks_cleaned bookmarks Hinv) as Hall.
  split; [exact Hall|]. split.
  - unfold Cleaning.cleanBookmarks. apply omap_fixed.
    apply Forall_forall. intros x _ y. apply cleanNode_fixed.
  - intros Hftp.
    assert (Hvalid : fst (validateBookmarks (cleanBookmarks bookmarks)) = true).
    { apply validateBookmarks_valid.
      eapply Forall_impl; [exact Hall|].
      intros n' (Hc & n & Hn & Hurl & Htitle & _).
      rewrite Forall_forall in Hftp. specialize (Hftp n Hn).
      unfold clean_node in Hc. unfold valid_node.
      destruct (has_url n'); [|exact Hc].
      rewrite Hurl in Hc |- *. rewrite Hftp, orb_false_r in Hc. exact Hc. }
    unfold Cleaning.validateBookmarks in *. cbn [fst] in Hvalid.
    apply Nat.eqb_eq in Hvalid. rewrite Hvalid. cbn.
    apply length_zero_iff_nil in Hvalid. rewrite Hvalid. reflexivity.
Qed.

End Validation.

(** *** The import preview *)

Definition sum_fst (l : list (nat * nat)) : nat := foldr (fun c n => fst c + n)%nat 0%nat l.
Definition sum_snd (l : list (nat * nat)) : nat := foldr (fun c n => snd c + n)%nat 0%nat l.

Lemma countItems_eq node :
  countItems node =
  if has_url node then (0, 1)%nat
  else (S (sum_fst (map countItems (default [] (node_children node)))),
        sum_snd (map countItems (default [] (node_children node)))).
Proof. destruct node as [i t u d p [cs|] st tg nt]; reflexivity. Qed.

Definition counted (c : BookmarkNode) : Prop :=
  snd (countItems c) = length (leaf_urls c) /\
  fst (countItems c) = length (nodes_of_skeleton (folders_only c)).

Lemma sum_counts l :
  Forall counted l ->
  sum_snd (map countItems l) = length (flat_map leaf_urls l) /\
  sum_fst (map countItems l) = length (forest_nodes (omap folders_only l)).
Proof.
  induction 1 as [|c l [Hc1 Hc2] _ [IH1 IH2]]; [split; reflexivity|].
  cbn [map sum_fst sum_snd foldr flat_map].
  fold (sum_fst (map countItems l)). fold (sum_snd (map countItems l)).
  rewrite length_app, Hc1, Hc2, IH1, IH2. split; [reflexivity|].
  cbn [omap list_omap]. fold (omap folders_only l).
  destruct (folders_only c) as [k|]; cbn [nodes_of_skeleton].
  - rewrite forest_nodes_cons, length_app. reflexivity.
  - reflexivity.
Qed.

Lemma countItems_spec : forall node, counted node.
Proof.
  intros node. induction node as [node IH] using node_induction.
  destruct (sum_counts _ IH) as [H1 H2].
  unfold counted. rewrite countItems_eq, leaf_urls_eq, folders_only_eq.
  destruct (has_url node); [split; reflexivity|].
  cbn [fst snd nodes_of_skeleton]. rewrite nodes_of_children.
  cbn [length]. rewrite H1, H2.
  destruct (node_children node) as [cs|]; split; reflexivity.
Qed.

(** X19.  The counts of previewImport: [count] is the number of top-level
    entries, [bookmarks] the number of bookmark leaves, and [folders] the
    number of nodes of the folder structure; on a forest that satisfies
    the invariant of the data model these are the number of nodes with a
    URL and the number of nodes without one, so that together they count
    every node once. *)
Theorem X19_previewCounts (bookmarks : list BookmarkNode) :
  let '(count, folders, marks) := previewCounts bookmarks in
  count = length bookmarks /\
  marks = length (flat_map leaf_urls bookmarks) /\
  folders = length (forest_nodes (omap folders_only bookmarks)) /\
  (leaf_invariant bookmarks ->
   marks = length (all_urls bookmarks) /\
   folders = length (all_folders bookmarks) /\
   (folders + marks)%nat = length (forest_nodes bookmarks)).
Proof.
  unfold previewCounts.
  fold (sum_fst (map countItems bookmarks)). fold (sum_snd (map countItems bookmarks)).
  destruct (sum_counts bookmarks) as [Hm Hf].
  { apply Forall_forall. intros x _. apply countItems_spec. }
  split; [reflexivity|]. split; [exact Hm|]. split; [exact Hf|].
  intros Hinv.
  assert (Hurls : sum_snd (map countItems bookmarks) = length (all_urls bookmarks))
    by (rewrite Hm, leaf_urls_all_forest by exact Hinv; reflexivity).
  assert (Hfolders : sum_fst (map countItems bookmarks)
                     = length (all_folders bookmarks))
    by (rewrite Hf, all_folders_skeleton, length_map by exact Hinv; reflexivity).
  split; [exact Hurls|]. split; [exact Hfolders|].
  rewrite Hurls, Hfolders. unfold all_urls, all_folders. rewrite length_map.
  induction (forest_nodes bookmarks) as [|n l IH]; [reflexivity|].
  cbn [omap list_omap List.filter].
  fold (omap (fun n => if has_url n then node_url n else None) l).
  destruct (has_url n) eqn:Hu; cbn [negb].
  - unfold has_url, truthy in Hu.
    destruct (node_url n) as [u|]; [|discriminate Hu]. cbn [length]. lia.
  - cbn [length]. lia.
Qed.


(** *** Evaluation on a small forest *)

(** A reference version of [trim] for ASCII white space. *)
Definition is_space (a : ascii) : bool :=
  (Ascii.eqb a " " || Ascii.eqb a "009" || Ascii.eqb a "010" || Ascii.eqb a "013")%char.

Fixpoint trim_start (s : string) : string :=
  match s with
  | String a r => if is_space a then trim_start r else s
  | EmptyString => EmptyString
  end.

Definition trim_ref (s : string) : string :=
  String.rev (trim_start (String.rev (trim_start s))).

Definition untidy : list BookmarkNode :=
  [ folder "1" "Bar"
      [ bookmark "2" "Rocq" "https://rocq-prover.org/";
        bookmark "3" "Script" "javascript:void(0)";
        folder "4" "  " [ bookmark "5" "Lost" "https://lost.example/" ] ];
    bookmark "6" "Mail" "mailto:someone@example.org" ].

Lemma X18_witness :
  cleanBookmarks trim_ref untidy
  = [ folder "1" "Bar" [ bookmark "2" "Rocq" "https://rocq-prover.org/" ] ] /\
  validateBookmarks trim_ref (cleanBookmarks trim_ref untidy) = (true, []).
Proof.
  split; [vm_compute; reflexivity|].
  refine (proj2 (proj2 (X18_cleanBookmarks trim_ref untidy _)) _).
  - unfold leaf_invariant. vm_compute.
    repeat (constructor; [intros H; first [reflexivity | discriminate H]|]).
    constructor.
  - vm_compute. repeat (constructor; [reflexivity|]). constructor.
Defined.

End ImportExportMore.

(** *** importFromJSON on whatever the document holds *)

Module ImportValuesFacts.
Import Json JsValue ImportExport ImportValues ImportExportFacts.

(** Induction on a value, through arrays and objects. *)
Section JsonInd.
Variable P : json -> Prop.
Hypothesis Hnull : P JNull.
Hypothesis Hbool : forall b, P (JBool b).
Hypothesis Hnum : forall n, P (JNum n).
Hypothesis Hstr : forall s, P (JStr s).
Hypothesis Harr : forall l, Forall P l -> P (JArr l).
Hypothesis Hobj : forall fields, Forall (fun kv => P (snd kv)) fields -> P (JObj fields).

Fixpoint json_induction (j : json) : P j :=
  match j with
  | JNull => Hnull
  | JBool b => Hbool b
  | JNum n => Hnum n
  | JStr s => Hstr s
  | JArr l =>
      Harr l ((fix all (k : list json) : Forall P k :=
                 match k with
                 | [] => @List.Forall_nil _ P
                 | x :: k' => @List.Forall_cons _ P x k' (json_induction x) (all k')
                 end) l)
  | JObj fields =>
      Hobj fields
        ((fix all (k : list (string * json)) : Forall (fun kv => P (snd kv)) k :=
            match k with
            | [] => @List.Forall_nil _ (fun kv => P (snd kv))
            | (key, x) :: k' =>
                @List.Forall_cons _ (fun kv => P (snd kv)) (key, x) k'
                  (json_induction x) (all k')
            end) fields)
  end.
End JsonInd.

Lemma jfind_lookup {A : Type} (k : string) (f : json -> A) fields :
  jfind k f fields = f <$> jlookup k fields.
Proof.
  induction fields as [|[k' v] rest IH]; cbn; [reflexivity|].
  destruct (String.eqb k k'); [reflexivity | exact IH].
Qed.

Lemma lookup_set_prop k v fields k' :
  jlookup k' (set_prop k v fields)
  = if String.eqb k' k then Some v else jlookup k' fields.
Proof.
  induction fields as [|[k0 v0] rest IH]; cbn [set_prop jlookup].
  - destruct (String.eqb k' k); reflexivity.
  - destruct (String.eqb_spec k k0) as [E|Hne]; cbn [jlookup].
    + subst k0. destruct (String.eqb k' k); reflexivity.
    + rewrite IH. destruct (String.eqb_spec k' k0) as [E|Hne'].
      * subst k0. destruct (String.eqb_spec k' k) as [E|_]; [congruence | reflexivity].
      * reflexivity.
Qed.

Lemma lookup_unset_prop k fields k' :
  jlookup k' (unset_prop k fields)
  = if String.eqb k' k then None else jlookup k' fields.
Proof.
  induction fields as [|[k0 v0] rest IH]; cbn [unset_prop jlookup].
  - destruct (String.eqb k' k); reflexivity.
  - destruct (String.eqb_spec k k0) as [E|Hne]; cbn [jlookup].
    + subst k0. rewrite IH. destruct (String.eqb k' k); reflexivity.
    + rewrite IH. destruct (String.eqb_spec k' k0) as [E|Hne'].
      * subst k0. destruct (String.eqb_spec k' k) as [E|_]; [congruence | reflexivity].
      * reflexivity.
Qed.

Lemma lookup_put_prop k o fields k' :
  jlookup k' (put_prop k o fields)
  = if String.eqb k' k then o else jlookup k' fields.
Proof.
  destruct o as [v|]; [apply lookup_set_prop | apply lookup_unset_prop].
Qed.

Lemma map_try_each {S A B : Type} (f : A -> S -> option (B * S)) (R : B -> Prop) l :
  Forall (fun x => forall s y s', f x s = Some (y, s') -> R y) l ->
  forall s ys s', map_try f l s = Some (ys, s') ->
    Forall R ys /\ length ys = length l.
Proof.
  induction 1 as [|x l Hx _ IH]; intros s ys s' E; cbn in E.
  - injection E as <- <-. split; [constructor | reflexivity].
  - destruct (f x s) as [[y s1]|] eqn:Ef; [|discriminate].
    fold (map_try f l) in E.
    destruct (map_try f l s1) as [[zs s2]|] eqn:Em; [|discriminate].
    injection E as <- <-. destruct (IH _ _ _ Em) as [H1 H2].
    split; [constructor; [eapply Hx; exact Ef | exact H1] | cbn; congruence].
Qed.

(** A node with an id that [if (id)] takes for one. *)
Definition has_id (node : json) : Prop :=
  exists v, get_prop "id" node = Some v /\ truthy_value v = true.

(** The names of the indexed properties start with a digit. *)
Definition is_digit (a : ascii) : bool :=
  (48 <=? nat_of_ascii a)%nat && (nat_of_ascii a <=? 57)%nat.

Definition starts_with_digit (s : string) : Prop :=
  match s with
  | String a _ => is_digit a = true
  | EmptyString => False
  end.

Lemma pretty_N_char_digit x : is_digit (pretty_N_char x) = true.
Proof. unfold pretty_N_char. repeat case_match; reflexivity. Qed.

Lemma pretty_N_go_digit x :
  forall s, starts_with_digit s -> starts_with_digit (pretty_N_go x s).
Proof.
  induction (N.lt_wf_0 x) as [x _ IH]. intros s Hs.
  destruct (N.eq_dec x 0%N) as [->|Hx]; [exact Hs|].
  rewrite pretty_N_go_step by lia. apply IH.
  - apply N.div_lt; lia.
  - apply pretty_N_char_digit.
Qed.

Lemma pretty_nat_digit (i : nat) : starts_with_digit (pretty i).
Proof.
  unfold pretty, pretty_nat, pretty, pretty_N.
  case_decide; [reflexivity|].
  rewrite pretty_N_go_step by lia. apply pretty_N_go_digit.
  apply pretty_N_char_digit.
Qed.

Lemma indexed_no_children l : jlookup "children" (indexed l) = None.
Proof.
  unfold indexed.
  enough (H : forall g : nat -> nat,
             jlookup "children" (imap (fun i v => (pretty (g i), v)) l) = None)
    by exact (H (fun i => i)).
  induction l as [|v l IH]; intros g; [reflexivity|].
  cbn [imap jlookup].
  destruct (String.eqb_spec "children" (pretty (g 0%nat))) as [E|_].
  - pose proof (pretty_nat_digit (g 0%nat)) as H. rewrite <- E in H. discriminate H.
  - apply (IH (fun i => g (S i))).
Qed.

Section Ids.
Variable JSON_parse : string -> option json.
Variable stamp : nat -> string.

Local Abbreviation addIds := (addIds stamp).
Local Abbreviation importFromJSON := (importFromJSON JSON_parse stamp).

Lemma id_or_fresh_truthy id k : truthy_value (fst (id_or_fresh stamp id k)) = true.
Proof.
  unfold id_or_fresh. destruct id as [v|]; [|reflexivity].
  destruct (truthy_value v) eqn:E; [exact E | reflexivity].
Qed.

Lemma value_nodes_obj fields :
  value_nodes (JObj fields)
  = JObj fields ::
    match jlookup "children" fields with
    | Some (JArr items) => flat_map value_nodes items
    | _ => []
    end.
Proof.
  cbn [value_nodes]. rewrite jfind_lookup.
  destruct (jlookup "children" fields) as [[]|]; reflexivity.
Qed.

Lemma addIds_obj fields parentId k :
  addIds (JObj fields) parentId k =
  let id := jlookup "id" fields in
  let '(id', k1) := id_or_fresh stamp id k in
  match match jlookup "children" fields with
        | Some c =>
            if truthy_value c then
              match c with
              | JArr items =>
                  match map_try (fun child => addIds child id) items k1 with
                  | Some (items', k2) => Some (Some (JArr items'), k2)
                  | None => None
                  end
              | _ => None
              end
            else Some (None, k1)
        | None => Some (None, k1)
        end
  with
  | Some (children', k2) =>
      Some (JObj (put_prop "children" children'
                    (put_prop "parentId" parentId (set_prop "id" id' fields))), k2)
  | None => None
  end.
Proof.
  cbn [ImportValues.addIds]. cbv zeta.
  destruct (id_or_fresh stamp (jlookup "id" fields) k) as [id' k1].
  rewrite jfind_lookup.
  destruct (jlookup "children" fields) as [c|]; reflexivity.
Qed.

(** What addIds returns, when it returns: an object with a truthy id and
    the given parentId, whose nodes all have a truthy id. *)
Definition imported (parentId : option json) (node' : json) : Prop :=
  has_id node' /\ get_prop "parentId" node' = parentId /\
  Forall has_id (value_nodes node').

Lemma imported_leaf parentId id' fs :
  truthy_value id' = true -> jlookup "children" fs = None ->
  imported parentId (JObj (put_prop "parentId" parentId (set_prop "id" id' fs))).
Proof.
  intros Hid Hkids.
  assert (Hself : has_id (JObj (put_prop "parentId" parentId (set_prop "id" id' fs)))).
  { exists id'. split; [|exact Hid]. cbn [get_prop].
    rewrite lookup_put_prop, lookup_set_prop. reflexivity. }
  split; [exact Hself|]. split.
  - cbn [get_prop]. rewrite lookup_put_prop. reflexivity.
  - rewrite value_nodes_obj, lookup_put_prop, lookup_set_prop.
    cbn [String.eqb Ascii.eqb Bool.eqb]. rewrite Hkids.
    constructor; [exact Hself | constructor].
Qed.

Lemma imported_node parentId id' fs (kids : option json) :
  truthy_value id' = true ->
  (forall items, kids = Some (JArr items) -> Forall has_id (flat_map value_nodes items)) ->
  (forall c, kids = Some c -> exists items, c = JArr items) ->
  imported parentId
    (JObj (put_prop "children" kids
             (put_prop "parentId" parentId (set_prop "id" id' fs)))).
Proof.
  intros Hid Hkids Harr.
  assert (Hself : has_id (JObj (put_prop "children" kids
                     (put_prop "parentId" parentId (set_prop "id" id' fs))))).
  { exists id'. split; [|exact Hid]. cbn [get_prop].
    rewrite !lookup_put_prop, lookup_set_prop. reflexivity. }
  split; [exact Hself|]. split.
  - cbn [get_prop]. rewrite !lookup_put_prop. reflexivity.
  - rewrite value_nodes_obj, lookup_put_prop. cbn [String.eqb Ascii.eqb Bool.eqb].
    constructor; [exact Hself|].
    destruct kids as [c|]; [|constructor].
    destruct (Harr c eq_refl) as [items ->]. apply Hkids. reflexivity.
Qed.

Lemma addIds_imported :
  forall node,
    (forall parentId k node' k',
       addIds node parentId k = Some (node', k') -> imported parentId node') /\
    (forall items, node = JArr items ->
       Forall (fun child => forall parentId k node' k',
                 addIds child parentId k = Some (node', k') -> imported parentId node')
              items).
Proof.
  intros node.
  induction node as [|b|n|s|l IH|fields IH] using json_induction.
  - split; [discriminate | discriminate].
  - split; [|discriminate]. intros parentId k node' k' E. cbn in E.
    injection E as <- <-. apply (imported_leaf parentId _ []); reflexivity.
  - split; [|discriminate]. intros parentId k node' k' E. cbn in E.
    injection E as <- <-. apply (imported_leaf parentId _ []); reflexivity.
  - split; [|discriminate]. intros parentId k node' k' E.
    cbn [ImportValues.addIds id_or_fresh] in E. injection E as <- <-.
    apply imported_leaf; [reflexivity | apply indexed_no_children].
  - split.
    + intros parentId k node' k' E.
      cbn [ImportValues.addIds id_or_fresh] in E. injection E as <- <-.
      apply imported_leaf; [reflexivity | apply indexed_no_children].
    + intros items E. injection E as <-.
      eapply Forall_impl; [exact IH|]. intros child [H _]. exact H.
  - split; [|discriminate]. intros parentId k node' k' E.
    rewrite addIds_obj in E. cbv zeta in E.
    pose proof (id_or_fresh_truthy (jlookup "id" fields) k) as Hid.
    destruct (id_or_fresh stamp (jlookup "id" fields) k) as [id' k1].
    cbn [fst] in Hid.
    destruct (jlookup "children" fields) as [c|] eqn:Hc.
    2:{ injection E as <- <-.
        apply (imported_node parentId id' fields None); [exact Hid | |];
          intros; discriminate. }
    destruct (truthy_value c) eqn:Htruthy.
    2:{ injection E as <- <-.
        apply (imported_node parentId id' fields None); [exact Hid | |];
          intros; discriminate. }
    destruct c as [| | | |items|]; try discriminate E.
    destruct (map_try (fun child => addIds child (jlookup "id" fields)) items k1)
      as [[items' k2]|] eqn:Hmap; [|discriminate E].
    injection E as <- <-.
    apply (imported_node parentId id' fields (Some (JArr items')));
      [exact Hid | | intros c E; injection E as <-; eauto].
    intros its E. injection E as <-.
    assert (Hitems : Forall (fun child => forall parentId k node' k',
                       addIds child parentId k = Some (node', k') ->
                       imported parentId node') items).
    { assert (Hin : In ("children", JArr items) fields).
      { clear -Hc. induction fields as [|[k0 v0] rest IHf]; [discriminate|].
        cbn [jlookup] in Hc. destruct (String.eqb_spec "children" k0) as [<-|_].
        - injection Hc as ->. left. reflexivity.
        - right. apply IHf. exact Hc. }
      rewrite Forall_forall in IH.
      destruct (IH _ (proj2 (list_elem_of_In _ _) Hin)) as [_ H]. cbn in H.
      apply H. reflexivity. }
    destruct (map_try_each (fun child => addIds child (jlookup "id" fields))
                (imported (jlookup "id" fields)) items) with (s := k1) (ys := items')
                (s' := k2) as [Hall _]; [|exact Hmap|].
    { eapply Forall_impl; [exact Hitems|]. intros child H s y s' Ey.
      eapply H. exact Ey. }
    apply Forall_flat_map. eapply Forall_impl; [exact Hall|].
    intros y (_ & _ & Hy). exact Hy.
Qed.

(** X16.  importFromJSON succeeds only on a document that parses to an
    object (or other value) whose 'bookmarks' property is an array; the
    forest it returns has one tree per entry of the array, whatever the
    entries are (no check is made that they are bookmark nodes); every
    node of it, at any depth, has an id that is not empty, an entry that
    came without one included; and no root has a parentId, whatever the
    document gave it. *)
Theorem X16_importFromJSON_ids (jsonContent : string) (nodes : list json) :
  importFromJSON jsonContent = Gives nodes ->
  Forall has_id (flat_map value_nodes nodes) /\
  Forall (fun n => get_prop "parentId" n = None) nodes /\
  exists data items,
    JSON_parse jsonContent = Some data /\
    get_prop "bookmarks" data = Some (JArr items) /\
    length nodes = length items.
Proof.
  unfold ImportValues.importFromJSON.
  destruct (JSON_parse jsonContent) as [data|] eqn:Hparse; [|discriminate].
  assert (Hgo : match get_prop "bookmarks" data with
                | Some (JArr items) =>
                    match map_try (fun node => addIds node None) items 0%nat with
                    | Some (nodes, _) => Gives nodes
                    | None => Fails TypeError
                    end
                | _ => Fails InvalidFormat
                end = Gives nodes ->
                Forall has_id (flat_map value_nodes nodes) /\
                Forall (fun n => get_prop "parentId" n = None) nodes /\
                exists data0 items,
                  Some data = Some data0 /\
                  get_prop "bookmarks" data0 = Some (JArr items) /\
                  length nodes = length items).
  { destruct (get_prop "bookmarks" data) as [[| | | |items|]|] eqn:Hlook;
      try discriminate.
    destruct (map_try (fun node => addIds node None) items 0%nat)
      as [[out k]|] eqn:Hmap; [|discriminate].
    intros E. injection E as <-.
    destruct (map_try_each (fun node => addIds node None) (imported None) items)
      with (s := 0%nat) (ys := out) (s' := k) as [Hall Hlen]; [|exact Hmap|].
    { apply Forall_forall. intros x _ s y s' Ey.
      destruct (addIds_imported x) as [H _]. eapply H. exact Ey. }
    split; [|split].
    - apply Forall_flat_map. eapply Forall_impl; [exact Hall|].
      intros y (_ & _ & Hy). exact Hy.
    - eapply Forall_impl; [exact Hall|]. intros y (_ & Hy & _). exact Hy.
    - exists data, items. auto. }
  destruct data; try exact Hgo. discriminate.
Qed.

End Ids.
(** *** The reading at the type BookmarkNode *)

Section Agree.
Variable JSON_parse : string -> option json.
Variable stamp : nat -> string.

(** What addIds does on a value that is a bookmark node: the document of
    what it does on the node. *)
Definition agrees (item : json) : Prop :=
  forall node parentId k,
    node_of_json item = Some node ->
    exists v,
      ImportValues.addIds stamp item (JStr <$> parentId) k
      = Some (v, snd (ImportExport.addIds stamp node parentId k)) /\
      node_of_json v = Some (fst (ImportExport.addIds stamp node parentId k)).

Lemma agrees_list items :
  Forall agrees items ->
  forall cs parentId k,
    traverse node_of_json items = Some cs ->
    exists vs,
      map_try (fun child => ImportValues.addIds stamp child (JStr <$> parentId)) items k
      = Some (vs, snd (map_state (fun child => ImportExport.addIds stamp child parentId) cs k)) /\
      traverse node_of_json vs
      = Some (fst (map_state (fun child => ImportExport.addIds stamp child parentId) cs k)).
Proof.
  induction 1 as [|item items Hitem _ IH]; intros cs parentId k Hdec.
  - cbn in Hdec. injection Hdec as <-. exists []. split; reflexivity.
  - cbn [traverse] in Hdec.
    destruct (node_of_json item) as [node|] eqn:Hnode; [|discriminate].
    destruct (traverse node_of_json items) as [rest|] eqn:Hrest; [|discriminate].
    injection Hdec as <-.
    destruct (Hitem node parentId k Hnode) as (v & Hv & Hdv).
    cbn [map_state map_try]. rewrite Hv.
    destruct (ImportExport.addIds stamp node parentId k) as [node' k1] eqn:Hnode'.
    cbn [fst snd] in *.
    destruct (IH rest parentId k1 eq_refl) as (vs & Hvs & Hdvs).
    rewrite Hvs.
    destruct (map_state (fun child => ImportExport.addIds stamp child parentId) rest k1)
      as [rest' k2].
    cbn [fst snd] in *. exists (v :: vs). split; [reflexivity|].
    cbn [traverse]. rewrite Hdv, Hdvs. reflexivity.
Qed.

Lemma lookup_in k fields v : jlookup k fields = Some v -> In (k, v) fields.
Proof.
  induction fields as [|[k0 v0] rest IH]; [discriminate|].
  cbn [jlookup]. destruct (String.eqb_spec k k0) as [<-|_].
  - intros E. injection E as ->. left. reflexivity.
  - intros E. right. apply IH. exact E.
Qed.

(** Reading a node back after [{ ...node, id, parentId, children }]. *)
Lemma node_of_json_updated fields node id' parentId kids kids' :
  node_of_json (JObj fields) = Some node ->
  match kids with
  | Some v => exists vs ks, v = JArr vs /\ traverse node_of_json vs = Some ks /\
                            kids' = Some ks
  | None => kids' = None
  end ->
  node_of_json
    (JObj (put_prop "children" kids
             (put_prop "parentId" (JStr <$> parentId)
                (set_prop "id" (JStr id') fields))))
  = Some (mkBookmarkNode id' (node_title node) (node_url node) (node_dateAdded node)
            parentId kids' (node_status node) (node_tags node) (node_notes node)).
Proof.
  intros Hnode Hkids.
  rewrite node_of_json_obj, !jfind_lookup in Hnode.
  rewrite node_of_json_obj, !jfind_lookup, !lookup_put_prop, !lookup_set_prop.
  cbn [String.eqb Ascii.eqb Bool.eqb].
  destruct (dec_string <$> jlookup "id" fields) as [[i|]|]; try discriminate Hnode.
  destruct (dec_string <$> jlookup "title" fields) as [[t|]|]; try discriminate Hnode.
  destruct (dec_opt (dec_string <$> jlookup "url" fields)) as [u|];
    try discriminate Hnode.
  destruct (dec_opt (dec_number <$> jlookup "dateAdded" fields)) as [d|];
    try discriminate Hnode.
  destruct (dec_opt (dec_string <$> jlookup "parentId" fields)) as [p|];
    try discriminate Hnode.
  match type of Hnode with
  | match ?x with _ => _ end = _ => destruct x as [c|]; try discriminate Hnode
  end.
  destruct (dec_opt (dec_status <$> jlookup "status" fields)) as [st|];
    try discriminate Hnode.
  destruct (dec_opt (dec_strings <$> jlookup "tags" fields)) as [tg|];
    try discriminate Hnode.
  destruct (dec_opt (dec_string <$> jlookup "notes" fields)) as [nt|];
    try discriminate Hnode.
  injection Hnode as <-. cbn [node_title node_url node_dateAdded node_status
                              node_tags node_notes].
  cbn [fmap option_fmap option_map dec_string].
  assert (Hp : dec_opt (dec_string <$> (JStr <$> parentId)) = Some parentId)
    by (destruct parentId; reflexivity).
  rewrite Hp.
  destruct kids as [v|].
  - destruct Hkids as (vs & ks & -> & Hks & ->).
    cbn [fmap option_fmap option_map]. rewrite Hks. reflexivity.
  - subst kids'. reflexivity.
Qed.

(** What the node read from an object holds of its id and children. *)
Lemma node_of_json_id_children fields node :
  node_of_json (JObj fields) = Some node ->
  jlookup "id" fields = Some (JStr (node_id node)) /\
  match jlookup "children" fields with
  | Some c => exists items cs, c = JArr items /\
                traverse node_of_json items = Some cs /\
                node_children node = Some cs
  | None => node_children node = None
  end.
Proof.
  intros Hnode. rewrite node_of_json_obj, !jfind_lookup in Hnode.
  destruct (jlookup "id" fields) as [[| | |i| |]|]; try discriminate Hnode.
  cbn [fmap option_fmap option_map dec_string] in Hnode.
  destruct (dec_string <$> jlookup "title" fields) as [[t|]|]; try discriminate Hnode.
  destruct (dec_opt (dec_string <$> jlookup "url" fields)) as [u|];
    try discriminate Hnode.
  destruct (dec_opt (dec_number <$> jlookup "dateAdded" fields)) as [d|];
    try discriminate Hnode.
  destruct (dec_opt (dec_string <$> jlookup "parentId" fields)) as [p|];
    try discriminate Hnode.
  destruct (jlookup "children" fields) as [c|].
  - destruct c as [| | | |items|];
      cbn [fmap option_fmap option_map dec_opt] in Hnode; try discriminate Hnode.
    destruct (traverse node_of_json items) as [cs|] eqn:Hcs; [|discriminate Hnode].
    destruct (dec_opt (dec_status <$> jlookup "status" fields)) as [st|];
      try discriminate Hnode.
    destruct (dec_opt (dec_strings <$> jlookup "tags" fields)) as [tg|];
      try discriminate Hnode.
    destruct (dec_opt (dec_string <$> jlookup "notes" fields)) as [nt|];
      try discriminate Hnode.
    injection Hnode as <-. split; [reflexivity|]. exists items, cs. auto.
  - cbn [fmap option_fmap option_map dec_opt] in Hnode.
    destruct (dec_opt (dec_status <$> jlookup "status" fields)) as [st|];
      try discriminate Hnode.
    destruct (dec_opt (dec_strings <$> jlookup "tags" fields)) as [tg|];
      try discriminate Hnode.
    destruct (dec_opt (dec_string <$> jlookup "notes" fields)) as [nt|];
      try discriminate Hnode.
    injection Hnode as <-. split; reflexivity.
Qed.

(** The closure addIds on a node, one level. *)
Lemma typed_addIds_eq node parentId k :
  ImportExport.addIds stamp node parentId k =
  let '(id, k1) :=
    if truthy_string (node_id node) then (node_id node, k)
    else (generateId stamp k, S k) in
  let '(children, k2) :=
    match node_children node with
    | Some cs =>
        let '(cs', k') :=
          map_state (fun child => ImportExport.addIds stamp child (Some (node_id node)))
            cs k1 in
        (Some cs', k')
    | None => (None, k1)
    end in
  (mkBookmarkNode id (node_title node) (node_url node) (node_dateAdded node)
     parentId children (node_status node) (node_tags node) (node_notes node),
   k2).
Proof. destruct node. reflexivity. Qed.

Lemma addIds_agrees item :
  agrees item /\ (forall items, item = JArr items -> Forall agrees items).
Proof.
  induction item as [|b|n|s|l IH|fields IH] using json_induction;
    try (split; [intros node parentId k H; discriminate H | discriminate]).
  - split; [intros node parentId k H; discriminate H|].
    intros items E. injection E as <-.
    eapply Forall_impl; [exact IH|]. intros child [H _]. exact H.
  - split; [|discriminate]. intros node parentId k Hnode.
    destruct (node_of_json_id_children fields node Hnode) as [Hid Hkids].
    rewrite addIds_obj, typed_addIds_eq, Hid. cbv zeta.
    cbn [id_or_fresh truthy_value].
    set (idk := if truthy_string (node_id node) then (node_id node, k)
                else (generateId stamp k, S k)).
    assert (Eidk : (if truthy_string (node_id node) then (JStr (node_id node), k)
                    else (JStr (generateId stamp k), S k))
                   = (JStr (fst idk), snd idk))
      by (subst idk; destruct (truthy_string (node_id node)); reflexivity).
    rewrite Eidk. destruct idk as [id' k1]. cbn [fst snd].
    destruct (jlookup "children" fields) as [c|] eqn:Ec.
    + destruct Hkids as (items & cs & -> & Hcs & Hchildren).
      rewrite Hchildren. cbn [truthy_value].
      assert (Hitems : Forall agrees items).
      { rewrite Forall_forall in IH.
        destruct (IH _ (proj2 (list_elem_of_In _ _) (lookup_in _ _ _ Ec))) as [_ H].
        apply H. reflexivity. }
      destruct (agrees_list items Hitems cs (Some (node_id node)) k1 Hcs)
        as (vs & Hvs & Hdvs).
      cbn [fmap option_fmap option_map] in Hvs. rewrite Hvs.
      destruct (map_state
                  (fun child => ImportExport.addIds stamp child (Some (node_id node)))
                  cs k1) as [cs' k2].
      cbn [fst snd] in *. eexists. split; [reflexivity|].
      apply node_of_json_updated; [exact Hnode|]. exists vs, cs'. auto.
    + rewrite Hkids. cbn [fst snd]. eexists. split; [reflexivity|].
      apply node_of_json_updated; [exact Hnode | reflexivity].
Qed.

(** On a document whose entries are bookmark nodes, importFromJSON as it
    is read at the type BookmarkNode returns the nodes that are read from
    what importFromJSON returns on the values. *)
Lemma typed_import_agrees (jsonContent : string) (nodes : list BookmarkNode) :
  ImportExport.importFromJSON JSON_parse stamp jsonContent = Imported nodes ->
  exists values,
    ImportValues.importFromJSON JSON_parse stamp jsonContent = Gives values /\
    traverse node_of_json values = Some nodes.
Proof.
  unfold ImportExport.importFromJSON, ImportValues.importFromJSON.
  destruct (JSON_parse jsonContent) as [[| | | | |fields]|]; try discriminate.
  cbn [get_prop].
  destruct (jlookup "bookmarks" fields) as [[| | | |items|]|]; try discriminate.
  destruct (traverse node_of_json items) as [decoded|] eqn:Hdec; [|discriminate].
  intros E. injection E as <-.
  destruct (agrees_list items) with (cs := decoded) (parentId := @None string) (k := 0%nat)
    as (vs & Hvs & Hdvs); [|exact Hdec|].
  { apply Forall_forall. intros x _. apply addIds_agrees. }
  cbn [fmap option_fmap option_map] in Hvs. rewrite Hvs.
  exists vs. split; [reflexivity | exact Hdvs].
Qed.

End Agree.

(** A document with a folder whose id is empty, and with an entry that is
    no bookmark node at all. *)
Definition anonymous_folder : json :=
  JObj [("version", JStr "1.0");
        ("bookmarks",
         JArr [JObj [("id", JStr EmptyString); ("title", JStr "Inbox");
                     ("parentId", JStr "99");
                     ("children",
                      JArr [JObj [("id", JStr "7"); ("title", JStr "Rocq");
                                  ("url", JStr "https://rocq-prover.org/")];
                            JObj [("title", JStr "untitled")]])];
               JNum 5])].

Definition stamp_k (k : nat) : string := "1700000000000_k" +:+ pretty k.

Definition imported_folder : list json :=
  [ JObj [("id", JStr "bk_1700000000000_k0"); ("title", JStr "Inbox");
          ("children",
           JArr [JObj [("id", JStr "7"); ("title", JStr "Rocq");
                       ("url", JStr "https://rocq-prover.org/");
                       ("parentId", JStr EmptyString)];
                 JObj [("title", JStr "untitled");
                       ("id", JStr "bk_1700000000000_k1");
                       ("parentId", JStr EmptyString)]])];
    JObj [("id", JStr "bk_1700000000000_k2")] ].

Lemma X16_witness :
  importFromJSON json_parse stamp_k (json_print anonymous_folder)
  = Gives imported_folder /\
  Forall has_id (flat_map value_nodes imported_folder) /\
  Forall (fun n => get_prop "parentId" n = None) imported_folder.
Proof.
  assert (E : importFromJSON json_parse stamp_k (json_print anonymous_folder)
              = Gives imported_folder) by (vm_compute; reflexivity).
  split; [exact E|].
  destruct (X16_importFromJSON_ids json_parse stamp_k _ _ E) as (H1 & H2 & _).
  split; [exact H1 | exact H2].
Defined.

End ImportValuesFacts.

Module OrganizerMore.
Import Organizer Duplicates Organizing ImportExportFacts ImportExportMore.

(** A closure that visits a node and then its children, threading a
    state, visits the nodes of the tree in the order of [nodes_of]. *)
Lemma traversal_flat {S : Type} (visit go : BookmarkNode -> S -> S) :
  (forall n s, go n s = fold_left (fun s c => go c s)
                          (default [] (node_children n)) (visit n s)) ->
  forall n s, go n s = fold_left (fun s m => visit m s) (nodes_of n) s.
Proof.
  intros Hgo n. induction n as [n IH] using node_induction. intros s.
  rewrite Hgo, nodes_of_children. cbn [fold_left].
  generalize (visit n s). clear s.
  induction IH as [|c cs Hc _ IHcs]; intros s; [reflexivity|].
  rewrite forest_nodes_cons, fold_left_app. cbn [fold_left].
  rewrite Hc. apply IHcs.
Qed.

Lemma traversal_forest {S : Type} (visit go : BookmarkNode -> S -> S) :
  (forall n s, go n s = fold_left (fun s c => go c s)
                          (default [] (node_children n)) (visit n s)) ->
  forall l s, fold_left (fun s n => go n s) l s
              = fold_left (fun s m => visit m s) (forest_nodes l) s.
Proof.
  intros Hgo l. induction l as [|n l IH]; intros s; [reflexivity|].
  rewrite forest_nodes_cons, fold_left_app. cbn [fold_left].
  rewrite (traversal_flat visit go Hgo). apply IH.
Qed.

Lemma fold_left_filter {A : Type} (p : A -> bool) l :
  forall acc, fold_left (fun r x => if p x then r ++ [x] else r) l acc
              = acc ++ List.filter p l.
Proof.
  induction l as [|x l IH]; intros acc; cbn [fold_left List.filter].
  - rewrite app_nil_r. reflexivity.
  - rewrite IH. destruct (p x); [rewrite <- app_assoc|]; reflexivity.
Qed.

Section Search.
Variable toLowerCase : string -> string.

Local Abbreviation search_matches := (search_matches toLowerCase).
Local Abbreviation searchNode := (searchNode toLowerCase).
Local Abbreviation searchBookmarks := (searchBookmarks toLowerCase).

Lemma searchNode_eq q o n results :
  searchNode q o n results =
  fold_left (fun r c => searchNode q o c r) (default [] (node_children n))
    (if search_matches q o n then results ++ [n] else results).
Proof. destruct n as [i t u d p [cs|] st tg nt]; reflexivity. Qed.

(** X23.  searchBookmarks returns the nodes of the forest that match, each
    once and in visiting order, folders and the descendants of matching
    nodes included; a node matches when the lower-cased query occurs in
    the lower-cased title, URL or one of the tags, each of the three only
    when its option is set, so that with no option set nothing is
    found. *)
Theorem X23_searchBookmarks (bookmarks : list BookmarkNode) (query : string)
    (options : SearchOptions) :
  let q := toLowerCase query in
  searchBookmarks bookmarks query options
  = List.filter (search_matches q options) (forest_nodes bookmarks) /\
  (forall n,
     search_matches q options n =
     (searchTitle options && includes (toLowerCase (node_title n)) q)
     || (searchUrl options && has_url n
         && includes (toLowerCase (default "" (node_url n))) q)
     || (searchTags options
         && existsb (fun tag => includes (toLowerCase tag) q)
              (default [] (node_tags n)))) /\
  (searchTitle options = false -> searchUrl options = false ->
   searchTags options = false ->
   searchBookmarks bookmarks query options = []).
Proof.
  cbv zeta.
  assert (Hflat : searchBookmarks bookmarks query options
                  = List.filter (search_matches (toLowerCase query) options)
                      (forest_nodes bookmarks)).
  { unfold Organizing.searchBookmarks.
    rewrite (traversal_forest
               (fun n r => if search_matches (toLowerCase query) options n
                           then r ++ [n] else r)
               (searchNode (toLowerCase query) options)).
    - apply (fold_left_filter (search_matches (toLowerCase query) options)).
    - intros n s. apply searchNode_eq. }
  assert (Hm : forall n,
     search_matches (toLowerCase query) options n =
     (searchTitle options && includes (toLowerCase (node_title n)) (toLowerCase query))
     || (searchUrl options && has_url n
         && includes (toLowerCase (default "" (node_url n))) (toLowerCase query))
     || (searchTags options
         && existsb (fun tag => includes (toLowerCase tag) (toLowerCase query))
              (default [] (node_tags n)))).
  { intros n. unfold Organizing.search_matches.
    assert (Htags :
      match node_tags n with
      | Some tags => existsb (fun tag => includes (toLowerCase tag) (toLowerCase query)) tags
      | None => false
      end = existsb (fun tag => includes (toLowerCase tag) (toLowerCase query))
              (default [] (node_tags n)))
      by (destruct (node_tags n); reflexivity).
    rewrite Htags.
    destruct (searchTitle options && _); cbn [negb andb orb]; [reflexivity|].
    destruct (searchUrl options && has_url n && _); cbn [negb andb orb];
      [reflexivity|].
    destruct (searchTags options && _); reflexivity. }
  split; [exact Hflat | split; [exact Hm|]].
  intros H1 H2 H3. rewrite Hflat. clear Hflat.
  induction (forest_nodes bookmarks) as [|n l IH]; [reflexivity|].
  cbn [List.filter]. rewrite Hm, H1, H2, H3. cbn. exact IH.
Qed.

End Search.

Lemma ratio_nonneg (a b : nat) :
  (0 <= inject_Z (Z.of_nat a) / inject_Z (Z.of_nat b))%Q.
Proof.
  unfold Qdiv. apply Qmult_le_0_compat.
  - change 0%Q with (inject_Z 0). rewrite <- Zle_Qle. lia.
  - apply Qinv_le_0_compat. change 0%Q with (inject_Z 0). rewrite <- Zle_Qle. lia.
Qed.

Lemma ratio_le_1 (a b : nat) :
  (a <= b)%nat -> (0 < b)%nat ->
  (inject_Z (Z.of_nat a) / inject_Z (Z.of_nat b) <= 1)%Q.
Proof.
  intros Hab Hb. apply Qle_shift_div_r.
  - change 0%Q with (inject_Z 0). rewrite <- Zlt_Qlt. lia.
  - rewrite Qmult_1_l. rewrite <- Zle_Qle. lia.
Qed.

Lemma common_length (t1 t2 : list string) :
  NoDup t1 -> NoDup t2 ->
  length (List.filter (fun t => bool_decide (t ∈ t2)) t1)
  = length (List.filter (fun t => bool_decide (t ∈ t1)) t2).
Proof.
  intros H1 H2. apply Permutation_length. apply NoDup_Permutation.
  - apply NoDup_ListNoDup, List.NoDup_filter, NoDup_ListNoDup. exact H1.
  - apply NoDup_ListNoDup, List.NoDup_filter, NoDup_ListNoDup. exact H2.
  - intros x. rewrite !list_elem_of_In, !filter_In, !bool_decide_eq_true,
      !list_elem_of_In. tauto.
Qed.

Section Similarity.
Variable toLowerCase : string -> string.
Variable URL_href_nohash : string -> option string.

Local Abbreviation normalizeUrl := (normalizeUrl toLowerCase URL_href_nohash).
Local Abbreviation calculateUrlSimilarity :=
  (calculateUrlSimilarity toLowerCase URL_href_nohash).

(** X20.  The score of calculateUrlSimilarity is never negative, is 1 for
    two URLs with the same normal form, and is 0 when one of them has no
    token longer than two characters.  When no token of the first URL is
    repeated the score is at most 1, and when no token is repeated in
    either URL the score does not depend on the order of the two
    arguments. *)
Theorem X20_similarity_without_repeats (url1 url2 : string) :
  let t1 := tokens (normalizeUrl url1) in
  let t2 := tokens (normalizeUrl url2) in
  (0 <= calculateUrlSimilarity url1 url2)%Q /\
  (normalizeUrl url1 = normalizeUrl url2 -> calculateUrlSimilarity url1 url2 = 1%Q) /\
  (normalizeUrl url1 <> normalizeUrl url2 -> t1 = [] \/ t2 = [] ->
   calculateUrlSimilarity url1 url2 = 0%Q) /\
  (NoDup t1 ->
   (calculateUrlSimilarity url1 url2 <= 1)%Q /\
   (NoDup t2 -> calculateUrlSimilarity url1 url2 = calculateUrlSimilarity url2 url1)).
Proof.
  cbv zeta. unfold Duplicates.calculateUrlSimilarity.
  set (n1 := normalizeUrl url1). set (n2 := normalizeUrl url2).
  rewrite (String.eqb_sym n2 n1).
  destruct (String.eqb_spec n1 n2) as [E|NE].
  { repeat split; intros; try reflexivity; try discriminate; contradiction. }
  set (t1 := tokens n1). set (t2 := tokens n2).
  rewrite (orb_comm (length t2 =? 0)%nat).
  destruct ((length t1 =? 0)%nat || (length t2 =? 0)%nat) eqn:Hempty.
  { repeat split; intros; try reflexivity; try discriminate; contradiction. }
  apply orb_false_iff in Hempty as [He1 He2].
  apply Nat.eqb_neq in He1, He2.
  split; [apply ratio_nonneg|]. split; [intros E; contradiction|]. split.
  { intros _ [E|E]; rewrite E in *; contradiction. }
  intros Hnd1. split.
  - apply ratio_le_1.
    + rewrite <- (size_list_to_set (C := gset string)
                    (List.filter (fun t => bool_decide (t ∈ t2)) t1)).
      * apply subseteq_size. intros x Hx.
        apply elem_of_list_to_set in Hx. apply elem_of_list_to_set.
        apply elem_of_app. left. apply list_elem_of_In in Hx.
        apply filter_In in Hx as [Hx _]. apply list_elem_of_In. exact Hx.
      * apply NoDup_ListNoDup, List.NoDup_filter, NoDup_ListNoDup. exact Hnd1.
    + assert (Hin : exists x, x ∈ t1) by (destruct t1 as [|x r]; [contradiction | exists x; left]).
      destruct Hin as [x Hx].
      assert (Hx' : x ∈ (list_to_set (t1 ++ t2) : gset string)).
      { apply elem_of_list_to_set, elem_of_app. left. exact Hx. }
      destruct (size (list_to_set (t1 ++ t2) : gset string)) eqn:Hs; [|lia].
      apply size_empty_iff in Hs. rewrite Hs in Hx'. set_solver.
  - intros Hnd2. rewrite (common_length t1 t2 Hnd1 Hnd2).
    assert (Hu : (list_to_set (t1 ++ t2) : gset string) = list_to_set (t2 ++ t1)).
    { apply set_eq. intros x. rewrite !elem_of_list_to_set, !elem_of_app. tauto. }
    rewrite Hu. reflexivity.
Qed.

End Similarity.

(** *** The exact groups of findDuplicates *)

(** The list stored under a key of the insertion-ordered map. *)
Fixpoint assoc (k : string) (m : list (string * list BookmarkNode))
  : option (list BookmarkNode) :=
  match m with
  | [] => None
  | (k', l) :: rest => if String.eqb k k' then Some l else assoc k rest
  end.

Lemma assoc_push k x m k' :
  assoc k' (urlMap_push k x m)
  = if String.eqb k' k then Some (default [] (assoc k m) ++ [x]) else assoc k' m.
Proof.
  induction m as [|[k0 l0] rest IH]; cbn [urlMap_push assoc].
  - destruct (String.eqb k' k); reflexivity.
  - destruct (String.eqb_spec k k0) as [E|Hne]; cbn [assoc].
    + subst k0. destruct (String.eqb_spec k' k) as [E'|Hne']; reflexivity.
    + rewrite IH. destruct (String.eqb_spec k' k0) as [E'|Hne'].
      * subst k0. destruct (String.eqb_spec k' k) as [E|_]; [congruence | reflexivity].
      * reflexivity.
Qed.

Lemma keys_push k x m :
  map fst (urlMap_push k x m)
  = if bool_decide (k ∈ map fst m) then map fst m else map fst m ++ [k].
Proof.
  induction m as [|[k0 l0] rest IH]; cbn [urlMap_push map fst].
  - reflexivity.
  - destruct (String.eqb_spec k k0) as [->|Hne]; cbn [map fst].
    + rewrite bool_decide_eq_true_2 by (left). reflexivity.
    + rewrite IH. case_bool_decide as H1; case_bool_decide as H2;
        try reflexivity; exfalso.
      * apply H2. right. exact H1.
      * apply elem_of_cons in H2 as [E|H2]; [congruence | contradiction].
Qed.

Lemma keys_push_NoDup k x m : NoDup (map fst m) -> NoDup (map fst (urlMap_push k x m)).
Proof.
  intros H. rewrite keys_push. case_bool_decide as Hin; [exact H|].
  apply NoDup_app. split; [exact H|]. split.
  - intros y Hy Hy'. apply list_elem_of_singleton in Hy'. subst. contradiction.
  - apply NoDup_singleton.
Qed.

Lemma elem_key (m : list (string * list BookmarkNode)) k l :
  (k, l) ∈ m -> k ∈ map fst m.
Proof.
  induction m as [|[k0 l0] rest IH]; intros H.
  - apply elem_of_nil in H. contradiction.
  - apply elem_of_cons in H as [E|H]; cbn [map fst].
    + injection E as -> ->. left.
    + right. apply IH. exact H.
Qed.

Lemma elem_assoc m k l :
  NoDup (map fst m) -> (k, l) ∈ m <-> assoc k m = Some l.
Proof.
  induction m as [|[k0 l0] rest IH]; cbn [map fst assoc]; intros Hnd.
  - split; [intros H; apply elem_of_nil in H; contradiction | discriminate].
  - apply NoDup_cons in Hnd as [Hk0 Hnd]. rewrite elem_of_cons, (IH Hnd).
    destruct (String.eqb_spec k k0) as [->|Hne].
    + split.
      * intros [E|H]; [congruence|]. exfalso. apply Hk0.
        apply (elem_key rest k0 l). apply (IH Hnd). exact H.
      * intros E. left. congruence.
    + split; [intros [E|H]; [congruence | exact H] | intros H; right; exact H].
Qed.

Section Exact.
Variable toLowerCase : string -> string.
Variable URL_href_nohash : string -> option string.

Local Abbreviation normalizeUrl := (normalizeUrl toLowerCase URL_href_nohash).
Local Abbreviation collectUrls := (collectUrls toLowerCase URL_href_nohash).
Local Abbreviation collectAll := (collectAll toLowerCase URL_href_nohash).
Local Abbreviation findDuplicates := (findDuplicates toLowerCase URL_href_nohash).
Local Abbreviation findSimilarDuplicates :=
  (findSimilarDuplicates toLowerCase URL_href_nohash).

(** The normal form of the URL of a node that has one. *)
Definition url_key (n : BookmarkNode) : option string :=
  if has_url n then Some (normalizeUrl (default "" (node_url n))) else None.

(** The nodes of a list whose URL has the normal form [k], in order. *)
Definition with_key (k : string) (l : list BookmarkNode) : list BookmarkNode :=
  List.filter (fun n => bool_decide (url_key n = Some k)) l.

Definition visit_url (n : BookmarkNode) (m : list (string * list BookmarkNode))
  : list (string * list BookmarkNode) :=
  match url_key n with
  | Some k => urlMap_push k n m
  | None => m
  end.

Lemma collectUrls_eq n m :
  collectUrls n m
  = fold_left (fun m c => collectUrls c m) (default [] (node_children n)) (visit_url n m).
Proof.
  unfold visit_url, url_key, has_url, truthy.
  destruct n as [i t [u|] d p [cs|] st tg nt]; cbn; try reflexivity;
    destruct (truthy_string u); reflexivity.
Qed.

Definition nonempty (l : list BookmarkNode) : option (list BookmarkNode) :=
  match l with [] => None | _ :: _ => Some l end.

Lemma with_key_snoc k l x :
  with_key k (l ++ [x])
  = with_key k l ++ (if bool_decide (url_key x = Some k) then [x] else []).
Proof. unfold with_key. rewrite List.filter_app. reflexivity. Qed.

Lemma nonempty_snoc l x : nonempty (l ++ [x]) = Some (l ++ [x]).
Proof. destruct l; reflexivity. Qed.

Lemma default_nonempty l : default [] (nonempty l) = l.
Proof. destruct l; reflexivity. Qed.

(** The map that collectUrls has built after visiting the nodes [l]. *)
Lemma collected l :
  let m := fold_left (fun m n => visit_url n m) l [] in
  NoDup (map fst m) /\ forall k, assoc k m = nonempty (with_key k l).
Proof.
  induction l as [|x l IH] using rev_ind; [split; [constructor | reflexivity]|].
  cbv zeta in *. rewrite fold_left_app. cbn [fold_left].
  destruct IH as [Hnd Hassoc]. unfold visit_url at 1 3.
  destruct (url_key x) as [k0|] eqn:Hkey.
  - split; [apply keys_push_NoDup; exact Hnd|].
    intros k. rewrite assoc_push, with_key_snoc, Hkey, Hassoc, default_nonempty.
    destruct (String.eqb_spec k k0) as [->|Hne].
    + rewrite bool_decide_eq_true_2 by reflexivity. symmetry. apply nonempty_snoc.
    + rewrite bool_decide_eq_false_2 by congruence.
      rewrite app_nil_r. apply Hassoc.
  - split; [exact Hnd|]. intros k. rewrite with_key_snoc, Hkey.
    rewrite bool_decide_eq_false_2 by discriminate. rewrite app_nil_r. apply Hassoc.
Qed.

Lemma collectAll_flat bookmarks :
  collectAll bookmarks = fold_left (fun m n => visit_url n m) (forest_nodes bookmarks) [].
Proof.
  unfold Duplicates.collectAll.
  apply (traversal_forest visit_url collectUrls). intros n s. apply collectUrls_eq.
Qed.

Lemma collectAll_spec bookmarks :
  NoDup (map fst (collectAll bookmarks)) /\
  forall k l, (k, l) ∈ collectAll bookmarks
              <-> l = with_key k (forest_nodes bookmarks) /\ l <> [].
Proof.
  rewrite collectAll_flat.
  destruct (collected (forest_nodes bookmarks)) as [Hnd Hassoc]. cbv zeta in *.
  split; [exact Hnd|]. intros k l. rewrite (elem_assoc _ k l Hnd), Hassoc.
  destruct (with_key k (forest_nodes bookmarks)) as [|y ys]; cbn [nonempty].
  - split; [discriminate | intros [-> H]; contradiction].
  - split; [intros E; injection E as <-; split; [reflexivity | discriminate]|].
    intros [-> _]. reflexivity.
Qed.

Definition exact_group (p : string * list BookmarkNode) : list DuplicateInfo :=
  let '(url, bookmarkList) := p in
  if (1 <? length bookmarkList)%nat
  then [mkDuplicateInfo url bookmarkList 1%Q] else [].

Lemma exact_groups_urls m :
  NoDup (map fst m) -> NoDup (map dup_url (flat_map exact_group m)).
Proof.
  induction m as [|[k l] rest IH]; cbn [map fst flat_map]; intros Hnd; [constructor|].
  apply NoDup_cons in Hnd as [Hk Hnd]. specialize (IH Hnd).
  unfold exact_group at 1. destruct (1 <? length l)%nat; [|exact IH].
  cbn [app map dup_url]. apply NoDup_cons. split; [|exact IH].
  intros Hin. apply Hk. clear -Hin.
  induction rest as [|[k' l'] rest IH]; cbn [flat_map map fst] in *.
  - apply elem_of_nil in Hin. contradiction.
  - rewrite map_app in Hin. apply elem_of_app in Hin as [Hin|Hin].
    + unfold exact_group in Hin. destruct (1 <? length l')%nat.
      * cbn in Hin. apply list_elem_of_singleton in Hin. subst. left.
      * apply elem_of_nil in Hin. contradiction.
    + right. apply IH. exact Hin.
Qed.

Lemma elem_exact_groups m d :
  d ∈ flat_map exact_group m
  <-> exists k l, (k, l) ∈ m /\ (2 <= length l)%nat /\ d = mkDuplicateInfo k l 1%Q.
Proof.
  induction m as [|[k l] rest IH]; cbn [flat_map].
  - split; [intros H; apply elem_of_nil in H; contradiction|].
    intros (k & l & H & _). apply elem_of_nil in H. contradiction.
  - rewrite elem_of_app, IH. unfold exact_group at 1. split.
    + intros [H | (k' & l' & H1 & H2 & H3)].
      * destruct (Nat.ltb_spec 1 (length l)) as [Hlen|Hlen].
        -- apply list_elem_of_singleton in H. exists k, l.
           split; [left | split; [lia | exact H]].
        -- apply elem_of_nil in H. contradiction.
      * exists k', l'. split; [right; exact H1 | auto].
    + intros (k' & l' & H1 & H2 & H3). apply elem_of_cons in H1 as [E|H1].
      * injection E as -> ->. left.
        destruct (Nat.ltb_spec 1 (length l)) as [Hlen|Hlen]; [|lia].
        subst d. left.
      * right. exists k', l'. auto.
Qed.

(** X21.  The exact groups of findDuplicates (all its groups when
    similarMatch is off, and the first groups of the result when it is
    on): there is one group for every normal form that two or more URL
    nodes of the forest share, and no other; the group holds exactly the
    nodes with that normal form, in visiting order, with similarity 1; no
    two groups have the same URL, so a node is in at most one group. *)
Theorem X21_exact_duplicate_groups (bookmarks : list BookmarkNode) :
  let nodes := forest_nodes bookmarks in
  let groups := findDuplicates bookmarks false in
  (forall d, d ∈ groups <->
     exists k, (2 <= length (with_key k nodes))%nat /\
               d = mkDuplicateInfo k (with_key k nodes) 1%Q) /\
  NoDup (map dup_url groups) /\
  findDuplicates bookmarks true = groups ++ findSimilarDuplicates bookmarks.
Proof.
  cbv zeta. unfold Duplicates.findDuplicates.
  change (fun '(url, bookmarkList) =>
            if (1 <? length bookmarkList)%nat
            then [mkDuplicateInfo url bookmarkList 1%Q] else [])
    with exact_group.
  destruct (collectAll_spec bookmarks) as [Hnd Hspec].
  split; [|split; [apply exact_groups_urls; exact Hnd | reflexivity]].
  intros d. rewrite elem_exact_groups. split.
  - intros (k & l & Hin & Hlen & ->). apply Hspec in Hin as [-> _].
    exists k. auto.
  - intros (k & Hlen & ->). exists k, (with_key k (forest_nodes bookmarks)).
    split; [|auto]. apply Hspec. split; [reflexivity|].
    intros E. rewrite E in Hlen. cbn in Hlen. lia.
Qed.

End Exact.

(** *** mergeBookmarks *)

Section Merging.
Variable toLowerCase : string -> string.
Variable URL_href_nohash : string -> option string.

Local Abbreviation url_key := (url_key toLowerCase URL_href_nohash).
Local Abbreviation addToMap := (addToMap toLowerCase URL_href_nohash).
Local Abbreviation processSource := (processSource toLowerCase URL_href_nohash).
Local Abbreviation mergeBookmarks := (mergeBookmarks toLowerCase URL_href_nohash).

Definition visit_target (n : BookmarkNode) (tm : gmap string BookmarkNode)
  : gmap string BookmarkNode :=
  match url_key n with
  | Some k => <[k := n]> tm
  | None => tm
  end.

Definition visit_source (tm : gmap string BookmarkNode) (n : BookmarkNode)
    (st : MergeState) : MergeState :=
  match url_key n with
  | Some k =>
      if bool_decide (k ∈ processed st) then st
      else mkMergeState
             (match tm !! k with
              | Some _ => merged st
              | None => merged st ++ [n]
              end)
             ({[k]} ∪ processed st)
  | None => st
  end.

Lemma addToMap_eq n tm :
  addToMap n tm
  = fold_left (fun m c => addToMap c m) (default [] (node_children n)) (visit_target n tm).
Proof.
  unfold visit_target, OrganizerMore.url_key, has_url, truthy.
  destruct n as [i t [u|] d p [cs|] st tg nt]; cbn; try reflexivity;
    destruct (truthy_string u); reflexivity.
Qed.

Lemma processSource_eq tm n st :
  processSource tm n st
  = fold_left (fun s c => processSource tm c s) (default [] (node_children n))
      (visit_source tm n st).
Proof.
  unfold visit_source, OrganizerMore.url_key, has_url, truthy.
  destruct n as [i t [u|] d p [cs|] s tg nt]; cbn; try reflexivity;
    destruct (truthy_string u); reflexivity.
Qed.

Lemma target_keys l :
  forall tm k,
    is_Some (fold_left (fun m n => visit_target n m) l tm !! k)
    <-> is_Some (tm !! k) \/ exists n, n ∈ l /\ url_key n = Some k.
Proof.
  induction l as [|x l IH]; intros tm k; cbn [fold_left].
  - split; [auto|]. intros [H | (n & H & _)]; [exact H|].
    apply elem_of_nil in H. contradiction.
  - rewrite IH. unfold visit_target. split.
    + intros [H | (n & Hn & Hk)].
      * destruct (url_key x) as [k0|] eqn:Hx; [|left; exact H].
        destruct (decide (k0 = k)) as [->|Hne].
        -- right. exists x. split; [left | exact Hx].
        -- rewrite lookup_insert_ne in H by exact Hne. left. exact H.
      * right. exists n. split; [right; exact Hn | exact Hk].
    + intros [H | (n & Hn & Hk)].
      * left. destruct (url_key x) as [k0|]; [|exact H].
        destruct (decide (k0 = k)) as [->|Hne].
        -- rewrite lookup_insert_eq. eauto.
        -- rewrite lookup_insert_ne by exact Hne. exact H.
      * apply elem_of_cons in Hn as [->|Hn].
        -- left. rewrite Hk. rewrite lookup_insert_eq. eauto.
        -- right. exists n. auto.
Qed.

(** What holds of the locals of mergeBookmarks after the nodes [l] of the
    source have been visited. *)
Definition merge_inv (tm : gmap string BookmarkNode) (l : list BookmarkNode)
    (st : MergeState) : Prop :=
  (forall k, k ∈ processed st <-> exists n, n ∈ l /\ url_key n = Some k) /\
  Forall (fun a => a ∈ l /\ exists k, url_key a = Some k /\ tm !! k = None)
         (merged st) /\
  NoDup (map url_key (merged st)) /\
  (forall n k, n ∈ l -> url_key n = Some k -> tm !! k = None ->
               exists a, a ∈ merged st /\ url_key a = Some k).

Lemma merge_inv_step tm l x st :
  merge_inv tm l st -> merge_inv tm (l ++ [x]) (visit_source tm x st).
Proof.
  intros (Hproc & Hall & Hnd & Hcomplete).
  assert (Hmono : Forall (fun a => a ∈ l ++ [x] /\
                            exists k, url_key a = Some k /\ tm !! k = None)
                         (merged st)).
  { eapply Forall_impl; [exact Hall|]. intros a [Ha Hk].
    split; [apply elem_of_app; left; exact Ha | exact Hk]. }
  unfold visit_source. destruct (url_key x) as [k0|] eqn:Hx.
  - case_bool_decide as Hin.
    + (* the normal form has been met before *)
      split; [|split; [exact Hmono | split; [exact Hnd|]]].
      * intros k. rewrite Hproc. split.
        -- intros (n & Hn & Hk). exists n. split; [apply elem_of_app; left|]; assumption.
        -- intros (n & Hn & Hk). apply elem_of_app in Hn as [Hn|Hn]; [eauto|].
           apply list_elem_of_singleton in Hn. subst n.
           apply Hproc. congruence.
      * intros n k Hn Hk Htm. apply elem_of_app in Hn as [Hn|Hn]; [eauto|].
        apply list_elem_of_singleton in Hn. subst n.
        assert (k = k0) as -> by congruence.
        apply Hproc in Hin as (n' & Hn' & Hk'). eauto.
    + (* a new normal form *)
      assert (Hproc' : forall k, k ∈ ({[k0]} ∪ processed st : gset string)
                         <-> exists n, n ∈ l ++ [x] /\ url_key n = Some k).
      { intros k. rewrite elem_of_union, elem_of_singleton, Hproc. split.
        - intros [->|(n & Hn & Hk)].
          + exists x. split; [apply elem_of_app; right; left | exact Hx].
          + exists n. split; [apply elem_of_app; left|]; assumption.
        - intros (n & Hn & Hk). apply elem_of_app in Hn as [Hn|Hn]; [eauto|].
          apply list_elem_of_singleton in Hn. subst n. left. congruence. }
      destruct (tm !! k0) as [t|] eqn:Htm; unfold merge_inv; cbn [merged processed].
      * split; [exact Hproc' | split; [exact Hmono | split; [exact Hnd|]]].
        intros n k Hn Hk Hnone. apply elem_of_app in Hn as [Hn|Hn]; [eauto|].
        apply list_elem_of_singleton in Hn. subst n.
        assert (k = k0) as -> by congruence. congruence.
      * split; [exact Hproc' | split; [|split]].
        -- apply Forall_app. split; [exact Hmono|]. constructor; [|constructor].
           split; [apply elem_of_app; right; left | eauto].
        -- rewrite List.map_app. apply NoDup_app. split; [exact Hnd|]. split.
           ++ intros y Hy Hy'. cbn in Hy'. apply list_elem_of_singleton in Hy'. subst y.
              apply list_elem_of_In, in_map_iff in Hy as (a & Ha & Hain).
              apply list_elem_of_In in Hain.
              rewrite Forall_forall in Hall. destruct (Hall a Hain) as [Hal _].
              apply Hin. apply Hproc. exists a. rewrite Hx in Ha. auto.
           ++ cbn. apply NoDup_singleton.
        -- intros n k Hn Hk Hnone. apply elem_of_app in Hn as [Hn|Hn].
           ++ destruct (Hcomplete n k Hn Hk Hnone) as (a & Ha & Hak).
              exists a. split; [apply elem_of_app; left|]; assumption.
           ++ apply list_elem_of_singleton in Hn. subst n.
              exists x. split; [apply elem_of_app; right; left | exact Hk].
  - (* a node without URL *)
    split; [|split; [exact Hmono | split; [exact Hnd|]]].
    + intros k. rewrite Hproc. split.
      * intros (n & Hn & Hk). exists n. split; [apply elem_of_app; left|]; assumption.
      * intros (n & Hn & Hk). apply elem_of_app in Hn as [Hn|Hn]; [eauto|].
        apply list_elem_of_singleton in Hn. subst n. congruence.
    + intros n k Hn Hk Htm. apply elem_of_app in Hn as [Hn|Hn]; [eauto|].
      apply list_elem_of_singleton in Hn. subst n. congruence.
Qed.

Lemma merge_inv_fold tm l :
  merge_inv tm l (fold_left (fun s n => visit_source tm n s) l (mkMergeState [] ∅)).
Proof.
  induction l as [|x l IH] using rev_ind.
  - cbn. split; [|split; [constructor | split; [constructor|]]].
    + intros k. split; [intros H; apply elem_of_empty in H; contradiction|].
      intros (n & H & _). apply elem_of_nil in H. contradiction.
    + intros n k H. apply elem_of_nil in H. contradiction.
  - rewrite fold_left_app. cbn [fold_left]. apply merge_inv_step. exact IH.
Qed.

(** X22.  mergeBookmarks returns the source for 'replace' and the target
    for 'skip'.  For 'merge' it returns the target forest, unchanged,
    preceded by bookmarks of the source: each of them is a node with a URL
    from somewhere in the source forest (taken out of its folder; no
    folder of the source is in the result) whose normal form occurs
    nowhere in the target; no two of them have the same normal form; and
    every URL of the source is represented, in the target or among the
    added bookmarks. *)
Theorem X22_mergeBookmarks (source target : list BookmarkNode) :
  mergeBookmarks source target Replace = source /\
  mergeBookmarks source target Skip = target /\
  exists added,
    mergeBookmarks source target Merge = added ++ target /\
    Forall (fun a => a ∈ forest_nodes source /\ has_url a = true /\
                     forall t, t ∈ forest_nodes target -> url_key t <> url_key a)
           added /\
    NoDup (map url_key added) /\
    (forall n, n ∈ forest_nodes source -> has_url n = true ->
       (exists t, t ∈ forest_nodes target /\ url_key t = url_key n) \/
       (exists a, a ∈ added /\ url_key a = url_key n)).
Proof.
  split; [reflexivity|]. split; [reflexivity|].
  unfold Organizing.mergeBookmarks.
  rewrite (traversal_forest visit_target addToMap)
    by (intros n s; apply addToMap_eq).
  set (tm := fold_left _ (forest_nodes target) ∅).
  rewrite (traversal_forest (visit_source tm) (processSource tm))
    by (intros n s; apply processSource_eq).
  destruct (merge_inv_fold tm (forest_nodes source)) as (_ & Hall & Hnd & Hcomplete).
  set (st := fold_left _ (forest_nodes source) _) in *.
  assert (Htm : forall k, tm !! k = None <->
                  forall t, t ∈ forest_nodes target -> url_key t <> Some k).
  { intros k. rewrite eq_None_not_Some. subst tm. rewrite target_keys.
    rewrite lookup_empty. split.
    - intros H t Ht Hk. apply H. right. eauto.
    - intros H [[y Hy] | (t & Ht & Hk)]; [discriminate | exact (H t Ht Hk)]. }
  exists (merged st). split; [reflexivity|]. split; [|split; [exact Hnd|]].
  - eapply Forall_impl; [exact Hall|]. intros a (Ha & k & Hk & Hnone).
    split; [exact Ha|]. split.
    + unfold OrganizerMore.url_key in Hk. destruct (has_url a); [reflexivity | discriminate].
    + rewrite Hk. apply Htm. exact Hnone.
  - intros n Hn Hurl.
    assert (Hk : exists k, url_key n = Some k)
      by (unfold OrganizerMore.url_key; rewrite Hurl; eauto).
    destruct Hk as [k Hk]. rewrite Hk.
    destruct (tm !! k) as [t|] eqn:Hlook.
    + left. assert (Hs : is_Some (tm !! k)) by eauto.
      subst tm. apply target_keys in Hs as [Hs | (t' & Ht' & Hk')].
      * rewrite lookup_empty in Hs. destruct Hs; discriminate.
      * exists t'. auto.
    + right. apply (Hcomplete n k Hn Hk Hlook).
Qed.

End Merging.

(** *** The keys of categorizeBookmarks *)

Section Categories.
Variable toLowerCase : string -> string.
Variable regex_test : string -> string -> option bool.

Local Abbreviation matchesRule := (matchesRule toLowerCase regex_test).
Local Abbreviation assign := (assign toLowerCase regex_test).
Local Abbreviation categorizeNode := (categorizeNode toLowerCase regex_test).
Local Abbreviation categorizeBookmarks := (categorizeBookmarks toLowerCase regex_test).
Local Abbreviation goes_to := (goes_to toLowerCase regex_test).

Definition visit_rules (rules : list CategoryRule) (n : BookmarkNode)
    (c : gmap string (list BookmarkNode)) : gmap string (list BookmarkNode) :=
  if has_url n then assign n rules c else c.

(** Every entry of the map holds a bookmark and belongs to a rule. *)
Definition keyed_by (rules : list CategoryRule)
    (c : gmap string (list BookmarkNode)) : Prop :=
  forall f l, c !! f = Some l ->
    l <> [] /\ exists r, r ∈ rules /\ targetFolder r = f.

Lemma assign_keyed rules n rs c :
  (forall r, r ∈ rs -> r ∈ rules) -> keyed_by rules c ->
  keyed_by rules (assign n rs c).
Proof.
  induction rs as [|r rs IH]; intros Hsub Hc; cbn [Organizer.assign]; [exact Hc|].
  destruct (matchesRule n r).
  - intros f l. unfold push_to.
    destruct (decide (targetFolder r = f)) as [<-|Hne].
    + rewrite lookup_insert_eq. intros E. injection E as <-. split.
      * intros E. apply app_eq_nil in E as [_ E]. discriminate.
      * exists r. split; [apply Hsub; left | reflexivity].
    + rewrite lookup_insert_ne by exact Hne. apply Hc.
  - apply IH; [|exact Hc]. intros r' Hr'. apply Hsub. right. exact Hr'.
Qed.

Lemma categorizeNode_flat rules n c :
  categorizeNode rules n c
  = fold_left (fun c child => categorizeNode rules child c)
      (default [] (node_children n)) (visit_rules rules n c).
Proof.
  rewrite OrganizerFacts.categorizeNode_eq. unfold visit_rules.
  destruct (node_children n); reflexivity.
Qed.

(** X25.  The map that categorizeBookmarks returns has an entry exactly
    for the folders that receive at least one bookmark: the list under a
    key is never empty, it holds the bookmarks whose first matching rule
    has that key as target folder, in visiting order, and every key is
    the target folder of one of the rules. *)
Theorem X25_categorize_entries (bookmarks : list BookmarkNode)
    (rules : list CategoryRule) (f : string) (l : list BookmarkNode) :
  let categorized := categorizeBookmarks bookmarks rules in
  (categorized !! f = Some l <->
     l = List.filter (goes_to rules f) (forest_nodes bookmarks) /\ l <> []) /\
  (categorized !! f = Some l -> exists r, r ∈ rules /\ targetFolder r = f).
Proof.
  cbv zeta.
  assert (Hkeyed : keyed_by rules (categorizeBookmarks bookmarks rules)).
  { unfold Organizer.categorizeBookmarks.
    rewrite (traversal_forest (visit_rules rules) (categorizeNode rules))
      by (intros n s; apply categorizeNode_flat).
    generalize (forest_nodes bookmarks). intros nodes.
    assert (H0 : keyed_by rules ∅) by (intros k v H; rewrite lookup_empty in H; discriminate).
    revert H0. generalize (∅ : gmap string (list BookmarkNode)).
    induction nodes as [|n nodes IH]; intros c Hc; cbn [fold_left]; [exact Hc|].
    apply IH. unfold visit_rules. destruct (has_url n); [|exact Hc].
    apply assign_keyed; [auto | exact Hc]. }
  pose proof (OrganizerFacts.categorizeBookmarks_filed toLowerCase regex_test
                bookmarks rules f) as Hfiled.
  unfold filed in Hfiled.
  split; [split|].
  - intros E. rewrite E in Hfiled. cbn in Hfiled.
    split; [exact Hfiled | apply (Hkeyed f l E)].
  - intros [-> Hne].
    destruct (categorizeBookmarks bookmarks rules !! f) as [l'|]; cbn in Hfiled.
    + rewrite Hfiled. reflexivity.
    + rewrite <- Hfiled in Hne. contradiction.
  - intros E. apply (Hkeyed f l E).
Qed.

End Categories.

(** *** organizeByFolder *)

(** The bookmark leaves below a node, each with the folder path under
    which organizeByFolder files it. *)
Fixpoint leaves_at (folderPath : string) (node : BookmarkNode)
  : list (string * BookmarkNode) :=
  if has_url node then [(folderPath, node)]
  else match node_children node with
       | Some cs => flat_map (leaves_at (folderPath +:+ "/" +:+ node_title node)) cs
       | None => []
       end.

Definition filed_at (f : string) (l : list (string * BookmarkNode)) : list BookmarkNode :=
  map snd (List.filter (fun pn => String.eqb (fst pn) f) l).

Lemma filed_at_app f l1 l2 : filed_at f (l1 ++ l2) = filed_at f l1 ++ filed_at f l2.
Proof. unfold filed_at. rewrite List.filter_app, List.map_app. reflexivity. Qed.

Lemma leaves_at_eq folderPath node :
  leaves_at folderPath node =
  if has_url node then [(folderPath, node)]
  else flat_map (leaves_at (folderPath +:+ "/" +:+ node_title node))
         (default [] (node_children node)).
Proof. destruct node as [i t u d p [cs|] st tg nt]; reflexivity. Qed.

Lemma organizeNode_eq node folderPath m :
  organizeNode node folderPath m =
  if has_url node then push_to folderPath node m
  else fold_left (fun m child =>
                    organizeNode child (folderPath +:+ "/" +:+ node_title node) m)
         (default [] (node_children node)) m.
Proof. destruct node as [i t u d p [cs|] st tg nt]; reflexivity. Qed.

Lemma filed_pushed folderName node (cat : gmap string (list BookmarkNode)) f :
  filed (push_to folderName node cat) f =
  filed cat f ++ (if String.eqb folderName f then [node] else []).
Proof.
  unfold filed, push_to. destruct (String.eqb_spec folderName f) as [->|Hne].
  - rewrite lookup_insert_eq. reflexivity.
  - rewrite lookup_insert_ne by exact Hne. rewrite app_nil_r. reflexivity.
Qed.

Lemma organizeNode_filed :
  forall node folderPath m f,
    filed (organizeNode node folderPath m) f
    = filed m f ++ filed_at f (leaves_at folderPath node).
Proof.
  intros node. induction node as [node IH] using node_induction.
  intros folderPath m f. rewrite organizeNode_eq, leaves_at_eq.
  destruct (has_url node).
  - rewrite filed_pushed. unfold filed_at. cbn [List.filter fst].
    destruct (String.eqb folderPath f); reflexivity.
  - set (p := folderPath +:+ "/" +:+ node_title node). clearbody p.
    revert m. induction IH as [|c cs Hc _ IHcs]; intros m; cbn [fold_left flat_map].
    + unfold filed_at. cbn. rewrite app_nil_r. reflexivity.
    + rewrite IHcs, Hc, filed_at_app, app_assoc. reflexivity.
Qed.

Lemma string_app_assoc (a b c : string) : (a +:+ b) +:+ c = a +:+ (b +:+ c).
Proof.
  induction a as [|x a IH]; [reflexivity|].
  rewrite !append_cons. f_equal. exact IH.
Qed.

Lemma string_app_nil (a : string) : a = a +:+ EmptyString.
Proof.
  induction a as [|x a IH]; [reflexivity|].
  rewrite append_cons. f_equal. exact IH.
Qed.

Lemma leaves_at_paths :
  forall node folderPath,
    Forall (fun pn => has_url (snd pn) = true /\
                      exists rest, fst pn = folderPath +:+ rest /\
                        (has_url node = false -> rest <> EmptyString))
           (leaves_at folderPath node) /\
    map (fun pn => default "" (node_url (snd pn))) (leaves_at folderPath node)
    = leaf_urls node.
Proof.
  intros node. induction node as [node IH] using node_induction.
  intros folderPath. rewrite leaves_at_eq, leaf_urls_eq.
  destruct (has_url node) eqn:Hurl.
  - split; [|reflexivity]. constructor; [|constructor]. cbn [fst snd].
    split; [exact Hurl|]. exists EmptyString.
    split; [apply string_app_nil | discriminate].
  - set (p := folderPath +:+ "/" +:+ node_title node).
    assert (Hkids : Forall (fun pn => has_url (snd pn) = true /\
                              exists rest, fst pn = folderPath +:+ rest /\
                                (false = false -> rest <> EmptyString))
                      (flat_map (leaves_at p) (default [] (node_children node))) /\
                    map (fun pn => default "" (node_url (snd pn)))
                      (flat_map (leaves_at p) (default [] (node_children node)))
                    = flat_map leaf_urls (default [] (node_children node))).
    { induction IH as [|c cs Hc _ IHcs]; cbn [flat_map]; [split; [constructor | reflexivity]|].
      destruct IHcs as [IH1 IH2]. destruct (Hc p) as [Hc1 Hc2].
      split; [|rewrite List.map_app, Hc2, IH2; reflexivity].
      apply Forall_app. split; [|exact IH1].
      eapply Forall_impl; [exact Hc1|]. intros pn (Hu & rest & Hrest & _).
      split; [exact Hu|]. exists (("/" +:+ node_title node) +:+ rest).
      split; [|discriminate]. rewrite Hrest. subst p.
      rewrite <- !string_app_assoc. reflexivity. }
    destruct Hkids as [H1 H2]. split; [exact H1|].
    rewrite H2. destruct (node_children node); reflexivity.
Qed.

Lemma append_same_length (a b : string) : a = a +:+ b -> b = EmptyString.
Proof.
  induction a as [|x a IH]; intros H; [symmetry; exact H|].
  rewrite append_cons in H. injection H as H. apply IH. exact H.
Qed.

Lemma leaves_forest root bookmarks :
  Forall (fun pn => has_url (snd pn) = true /\
            exists rest, fst pn = root +:+ rest)
         (flat_map (leaves_at root) bookmarks) /\
  map (fun pn => default "" (node_url (snd pn))) (flat_map (leaves_at root) bookmarks)
  = flat_map leaf_urls bookmarks.
Proof.
  induction bookmarks as [|n l [IH1 IH2]]; cbn [flat_map];
    [split; [constructor | reflexivity]|].
  destruct (leaves_at_paths n root) as [Hn1 Hn2].
  split; [|rewrite List.map_app, Hn2, IH2; reflexivity].
  apply Forall_app. split; [|exact IH1].
  eapply Forall_impl; [exact Hn1|].
  intros pn (Hu & rest & Hrest & _). split; [exact Hu | eauto].
Qed.

(** X24.  organizeByFolder files every bookmark leaf, and nothing else,
    under the path of its folders, which starts with '根目录' and adds
    "/" and the title for every folder on the way; the lists keep the
    visiting order; the top-level bookmarks are the ones filed under
    '根目录' itself; nothing below a node with a URL is filed. *)
Theorem X24_organizeByFolder (bookmarks : list BookmarkNode) :
  let root := "根目录" in
  let leaves := flat_map (leaves_at root) bookmarks in
  let organized := organizeByFolder bookmarks in
  (forall f, filed organized f = filed_at f leaves) /\
  map (fun pn => default "" (node_url (snd pn))) leaves = flat_map leaf_urls bookmarks /\
  (forall f n, n ∈ filed organized f -> has_url n = true /\ startsWith f root = true) /\
  filed organized root = List.filter has_url bookmarks.
Proof.
  cbv zeta. set (root := "根目录").
  assert (Hfiled : forall f, filed (organizeByFolder bookmarks) f
                             = filed_at f (flat_map (leaves_at root) bookmarks)).
  { intros f. unfold organizeByFolder. fold root.
    assert (H : forall m, filed (fold_left (fun m node => organizeNode node root m)
                                   bookmarks m) f
                          = filed m f ++ filed_at f (flat_map (leaves_at root) bookmarks)).
    { induction bookmarks as [|n l IH]; intros m; cbn [fold_left flat_map].
      - unfold filed_at. cbn. rewrite app_nil_r. reflexivity.
      - rewrite IH, organizeNode_filed, filed_at_app, app_assoc. reflexivity. }
    rewrite H. unfold filed. rewrite lookup_empty. reflexivity. }
  pose proof (leaves_forest root bookmarks) as Hleaves.
  destruct Hleaves as [Hl1 Hl2].
  split; [exact Hfiled|]. split; [exact Hl2|]. split.
  - intros f n Hn. rewrite Hfiled in Hn. unfold filed_at in Hn.
    apply list_elem_of_In, in_map_iff in Hn as ([p n'] & E & Hin). cbn in E. subst n'.
    apply filter_In in Hin as [Hin Hp]. cbn in Hp. apply String.eqb_eq in Hp. subst p.
    rewrite Forall_forall in Hl1. apply list_elem_of_In in Hin.
    destruct (Hl1 _ Hin) as (Hu & rest & Hrest). cbn in Hu, Hrest.
    split; [exact Hu|]. apply startsWith_spec. exists rest. exact Hrest.
  - rewrite Hfiled. clear Hfiled Hl1 Hl2.
    induction bookmarks as [|n l IH]; [reflexivity|].
    cbn [flat_map List.filter]. rewrite filed_at_app, IH.
    destruct (leaves_at_paths n root) as [Hn _]. rewrite leaves_at_eq in Hn |- *.
    destruct (has_url n) eqn:Hurl.
    + unfold filed_at. cbn [List.filter fst]. rewrite String.eqb_refl. reflexivity.
    + assert (E : filed_at root
                    (flat_map (leaves_at (root +:+ "/" +:+ node_title n))
                       (default [] (node_children n))) = []).
      { unfold filed_at.
        induction Hn as [|pn rest' (_ & r & Hr & Hne) _ IHn]; [reflexivity|].
        cbn [List.filter]. destruct (String.eqb_spec (fst pn) root) as [E|_]; [|exact IHn].
        exfalso. apply (Hne eq_refl). apply (append_same_length root).
        rewrite <- Hr. symmetry. exact E. }
      rewrite E. reflexivity.
Qed.

(** *** The similar groups of findDuplicates *)

Section Similar.
Variable toLowerCase : string -> string.
Variable URL_href_nohash : string -> option string.

Local Abbreviation calculateUrlSimilarity :=
  (calculateUrlSimilarity toLowerCase URL_href_nohash).
Local Abbreviation collectAll := (collectAll toLowerCase URL_href_nohash).
Local Abbreviation similar_to := (similar_to toLowerCase URL_href_nohash).
Local Abbreviation similar_pairs := (similar_pairs toLowerCase URL_href_nohash).
Local Abbreviation findSimilarDuplicates :=
  (findSimilarDuplicates toLowerCase URL_href_nohash).
Local Abbreviation with_key := (with_key toLowerCase URL_href_nohash).

(** The group that the pair of map entries [(u1, l1)], [(u2, l2)] gives. *)
Definition pair_group (u1 : string) (l1 : list BookmarkNode)
    (u2 : string) (l2 : list BookmarkNode) : DuplicateInfo :=
  mkDuplicateInfo u1 (l1 ++ l2) (calculateUrlSimilarity u1 u2).

Lemma elem_similar_to u1 l1 rest d :
  d ∈ similar_to u1 l1 rest
  <-> exists j u2 l2, rest !! j = Some (u2, l2) /\
        (8 # 10 < calculateUrlSimilarity u1 u2)%Q /\ d = pair_group u1 l1 u2 l2.
Proof.
  unfold Duplicates.similar_to.
  induction rest as [|[u l] rest IH]; cbn [flat_map].
  - split; [intros H; apply elem_of_nil in H; contradiction|].
    intros (j & u2 & l2 & H & _). rewrite lookup_nil in H. discriminate.
  - rewrite elem_of_app, IH. split.
    + intros [H | (j & u2 & l2 & Hj & Hs & Hd)].
      * destruct (Qlt_le_dec (8 # 10) (calculateUrlSimilarity u1 u)) as [Hlt|Hle].
        -- apply list_elem_of_singleton in H. exists 0%nat, u, l. auto.
        -- apply elem_of_nil in H. contradiction.
      * exists (S j), u2, l2. auto.
    + intros ([|j] & u2 & l2 & Hj & Hs & Hd).
      * cbn in Hj. injection Hj as -> ->. left.
        destruct (Qlt_le_dec (8 # 10) (calculateUrlSimilarity u1 u2)) as [Hlt|Hle].
        -- subst d. left.
        -- exfalso. apply (Qlt_not_le _ _ Hs). exact Hle.
      * right. exists j, u2, l2. auto.
Qed.

Lemma elem_similar_pairs m d :
  d ∈ similar_pairs m
  <-> exists i j u1 l1 u2 l2,
        (i < j)%nat /\ m !! i = Some (u1, l1) /\ m !! j = Some (u2, l2) /\
        (8 # 10 < calculateUrlSimilarity u1 u2)%Q /\ d = pair_group u1 l1 u2 l2.
Proof.
  induction m as [|[u l] rest IH]; cbn [Duplicates.similar_pairs].
  - split; [intros H; apply elem_of_nil in H; contradiction|].
    intros (i & j & u1 & l1 & u2 & l2 & _ & H & _). rewrite lookup_nil in H. discriminate.
  - rewrite elem_of_app, elem_similar_to, IH. split.
    + intros [(j & u2 & l2 & Hj & Hs & Hd) | (i & j & u1 & l1 & u2 & l2 & Hij & Hi & Hj & Hs & Hd)].
      * exists 0%nat, (S j), u, l, u2, l2. repeat split; auto. lia.
      * exists (S i), (S j), u1, l1, u2, l2. repeat split; auto. lia.
    + intros ([|i] & j & u1 & l1 & u2 & l2 & Hij & Hi & Hj & Hs & Hd).
      * cbn in Hi. injection Hi as -> ->. destruct j as [|j]; [lia|].
        left. exists j, u2, l2. auto.
      * destruct j as [|j]; [lia|]. right.
        exists i, j, u1, l1, u2, l2. repeat split; auto. lia.
Qed.

(** X26.  The similar groups of findDuplicates are made of pairs, not of
    clusters: there is one group for every two different normal forms of
    the forest whose score, taken with the one met first as first
    argument, exceeds 0.8, and no other; the group carries the URL met
    first, that score, and the bookmarks of the first normal form followed
    by those of the second (so at least two bookmarks). *)
Theorem X26_similar_duplicate_groups (bookmarks : list BookmarkNode) (d : DuplicateInfo) :
  let nodes := forest_nodes bookmarks in
  let keys := map fst (collectAll bookmarks) in
  (d ∈ findSimilarDuplicates bookmarks <->
     exists i j k1 k2,
       (i < j)%nat /\ keys !! i = Some k1 /\ keys !! j = Some k2 /\
       (8 # 10 < calculateUrlSimilarity k1 k2)%Q /\
       d = mkDuplicateInfo k1 (with_key k1 nodes ++ with_key k2 nodes)
             (calculateUrlSimilarity k1 k2)) /\
  (d ∈ findSimilarDuplicates bookmarks ->
     (8 # 10 < dup_similarity d)%Q /\ (2 <= length (dup_bookmarks d))%nat) /\
  NoDup keys /\
  (forall k, k ∈ keys <-> with_key k nodes <> []).
Proof.
  cbv zeta. unfold Duplicates.findSimilarDuplicates.
  destruct (collectAll_spec toLowerCase URL_href_nohash bookmarks) as [Hnd Hspec].
  set (m := collectAll bookmarks) in *.
  set (nodes := forest_nodes bookmarks) in *.
  assert (Hentry : forall i k, map fst m !! i = Some k <->
                     m !! i = Some (k, with_key k nodes)).
  { intros i k. rewrite list_lookup_fmap. split.
    - intros H. destruct (m !! i) as [[k' l]|] eqn:E; [|discriminate].
      cbn in H. injection H as ->.
      apply list_elem_of_lookup_2 in E as Hin. apply Hspec in Hin as [-> _]. reflexivity.
    - intros ->. reflexivity. }
  assert (Hiff : d ∈ similar_pairs m <->
     exists i j k1 k2,
       (i < j)%nat /\ map fst m !! i = Some k1 /\ map fst m !! j = Some k2 /\
       (8 # 10 < calculateUrlSimilarity k1 k2)%Q /\
       d = mkDuplicateInfo k1 (with_key k1 nodes ++ with_key k2 nodes)
             (calculateUrlSimilarity k1 k2)).
  { rewrite elem_similar_pairs. split.
    - intros (i & j & u1 & l1 & u2 & l2 & Hij & Hi & Hj & Hs & Hd).
      apply list_elem_of_lookup_2 in Hi as Hin1. apply Hspec in Hin1 as [-> _].
      apply list_elem_of_lookup_2 in Hj as Hin2. apply Hspec in Hin2 as [-> _].
      exists i, j, u1, u2. rewrite !Hentry. auto.
    - intros (i & j & k1 & k2 & Hij & Hi & Hj & Hs & Hd).
      apply Hentry in Hi, Hj.
      exists i, j, k1, (with_key k1 nodes), k2, (with_key k2 nodes). auto. }
  split; [exact Hiff|]. split; [|split; [exact Hnd|]].
  - intros Hd. apply Hiff in Hd as (i & j & k1 & k2 & Hij & Hi & Hj & Hs & ->).
    cbn [dup_similarity dup_bookmarks]. split; [exact Hs|].
    apply Hentry, list_elem_of_lookup_2, Hspec in Hi as [_ H1].
    apply Hentry, list_elem_of_lookup_2, Hspec in Hj as [_ H2].
    rewrite length_app.
    destruct (with_key k1 nodes); [contradiction|].
    destruct (with_key k2 nodes); [contradiction|]. cbn. lia.
  - intros k. split.
    + intros Hk. apply list_elem_of_lookup_1 in Hk as [i Hi].
      apply Hentry, list_elem_of_lookup_2, Hspec in Hi as [_ H]. exact H.
    + intros Hne. apply (elem_key m k (with_key k nodes)).
      apply Hspec. auto.
Qed.

End Similar.

(** *** Evaluation with the reference platform *)

Lemma X20_witness :
  let score := calculateUrlSimilarity toLowerCase_ascii URL_href_nohash_ref in
  (score "http://x.com/docs/intro" "http://x.com/docs/guide" <= 1)%Q /\
  score "http://x.com/docs/intro" "http://x.com/docs/guide"
  = score "http://x.com/docs/guide" "http://x.com/docs/intro".
Proof.
  cbv zeta.
  destruct (X20_similarity_without_repeats toLowerCase_ascii URL_href_nohash_ref
              "http://x.com/docs/intro" "http://x.com/docs/guide")
    as (_ & _ & _ & H).
  destruct H as [Hle Hsym].
  - apply (bool_decide_unpack _). vm_compute. exact I.
  - split; [exact Hle|]. apply Hsym.
    apply (bool_decide_unpack _). vm_compute. exact I.
Defined.

End OrganizerMore.
